(** * ldapbench: metrics, failure logger, connection pool and workload runner

    A shallow embedding of the concurrent core of ldapbench
    (internal/metrics, internal/fail, internal/ldapclient, internal/runner)
    and the properties its design document states about it.

    Conventions.
    - Go [int], [int64] and [time.Duration] are [Z] with the 64-bit
      wrap-around written out ([wrap64]).
    - [float64] is Rocq's primitive binary64 float.
    - A nil pointer receiver is [None].
    - A goroutine is a small state machine; shared state changes one atomic
      event at a time, and a schedule is a list of events. *)

From Stdlib Require Import ZArith List Bool Lia String Ascii.
From Stdlib Require Import Sorting.Sorted Sorting.Permutation.
From Stdlib Require Import PrimFloat FloatOps SpecFloat FloatAxioms Uint63.
Import ListNotations.

Open Scope Z_scope.

(** ** Outcome of a call that may panic *)

Inductive outcome (A : Type) : Type :=
| Ok (a : A)
| Panic (msg : string).
Arguments Ok {A} a.
Arguments Panic {A} msg.

Definition bind {A B} (x : outcome A) (k : A -> outcome B) : outcome B :=
  match x with
  | Ok a => k a
  | Panic msg => Panic msg
  end.

Notation "'let!' x ':=' e 'in' k" := (bind e (fun x => k))
  (at level 10, x name, e at level 100, k at level 200).

(** ** Machine integers *)

Module GoInt.

Definition min_int : Z := - 2 ^ 63.
Definition max_int : Z := 2 ^ 63 - 1.

(** Two's complement reduction of an exact result to int64. *)
Definition wrap64 (z : Z) : Z := (z + 2 ^ 63) mod 2 ^ 64 - 2 ^ 63.

Definition add (x y : Z) : Z := wrap64 (x + y).
Definition mul (x y : Z) : Z := wrap64 (x * y).

(** Go's [/] on integers truncates toward zero and panics on a zero
    divisor. *)
Definition div (x y : Z) : outcome Z :=
  if y =? 0 then Panic "integer divide by zero" else Ok (wrap64 (Z.quot x y)).

(** Go's [%] on integers: the remainder of [/]. *)
Definition rem (x y : Z) : outcome Z :=
  if y =? 0 then Panic "integer divide by zero" else Ok (Z.rem x y).

(** [len(s)]. *)
Definition len {A} (l : list A) : Z := Z.of_nat (List.length l).

(** [s[i]] for an index already known to be in range. *)
Definition index (l : list Z) (i : Z) : Z := nth (Z.to_nat i) l 0.

(** [s[i] = v]. *)
Fixpoint store (l : list Z) (i : nat) (v : Z) : list Z :=
  match l, i with
  | [], _ => []
  | _ :: t, O => v :: t
  | h :: t, S j => h :: store t j v
  end.

End GoInt.

(** ** The parts of package fmt and strings the runner relies on *)

Module Fmt.

Open Scope string_scope.

(** [strings.Contains(s, substr)]. *)
Fixpoint Contains (s substr : string) : bool :=
  String.prefix substr s ||
  match s with
  | EmptyString => false
  | String _ rest => Contains rest substr
  end.

Definition is_percent (c : ascii) : bool := Ascii.eqb c "%"%char.

(** Characters that, right after a [%], start flags, a width, a precision or
    an argument index. *)
Definition starts_complex_directive (c : ascii) : bool :=
  existsb (Ascii.eqb c)
    ["#"; "0"; "+"; "-"; " "; "1"; "2"; "3"; "4"; "5"; "6"; "7"; "8"; "9";
     "."; "*"; "["]%char
  || (128 <=? N.of_nat (nat_of_ascii c))%N.

(** Operands left over once the format is exhausted. *)
Definition extra (a : list string) : string :=
  match a with
  | [] => ""
  | _ => "%!(EXTRA " ++ String.concat ", " (map (fun s => "string=" ++ s) a) ++ ")"
  end.

Section Printf.

(** What fmt prints from a directive this model does not interpret (flags,
    width, precision, argument index, a verb other than [s] and [v] applied
    to an operand), given the format from that directive on and the operands
    still unused. Left unspecified. *)
Variable fmt_other : string -> list string -> string.

(** [doPrintf] for string operands: literal text is copied; [%%] prints a
    percent sign; [%s] and [%v] print the next operand; a verb with no
    operand left prints [%!verb(MISSING)]; a lone trailing [%] prints
    [%!(NOVERB)]; unused operands are reported at the end. *)
Fixpoint doPrintf (format : string) (a : list string) : string :=
  match format with
  | EmptyString => extra a
  | String c rest =>
      if is_percent c then
        match rest with
        | EmptyString => "%!(NOVERB)" ++ extra a
        | String verb rest' =>
            if is_percent verb then String "%" (doPrintf rest' a)
            else if starts_complex_directive verb then fmt_other format a
            else
              match a with
              | [] => "%!" ++ String verb ("(MISSING)" ++ doPrintf rest' [])
              | x :: a' =>
                  if Ascii.eqb verb "s" || Ascii.eqb verb "v"
                  then x ++ doPrintf rest' a'
                  else fmt_other format a
              end
        end
      else String c (doPrintf rest a)
  end.

Definition Sprintf (format : string) (a : list string) : string :=
  doPrintf format a.

End Printf.

End Fmt.

(** ** internal/config *)

Module Config.

Definition Mode := string.
Definition ModeAuth : Mode := "auth"%string.
Definition ModeSearch : Mode := "search"%string.
Definition ModeBoth : Mode := "both"%string.

(** The fields of [Config] the core reads. *)
Record Config := {
  Mode_ : Mode;
  Filter : string;
  Concurrency : Z;
  Connections : Z;
  FailLogPath : string;
  FailLogBatch : Z
}.

End Config.

(** ** internal/metrics *)

Module Metrics.

Import GoInt.

(** [time.Duration]: int64 nanoseconds. *)
Definition Duration := Z.
Definition Millisecond : Duration := 1000000.

Record LatencyStats := {
  Count : Z;
  Avg : Duration;
  P50 : Duration;
  P95 : Duration;
  P99 : Duration
}.

(** The zero value [LatencyStats{}]. *)
Definition zero_stats : LatencyStats :=
  {| Count := 0; Avg := 0; P50 := 0; P95 := 0; P99 := 0 |}.

(** The recorder's fields; [mu] is not a field here: every method body runs
    under it from its first to its last statement, so a method call is one
    atomic transition of this record. *)
Record LatencyRecorder := {
  totalCount : Z;
  totalSum : Duration;
  sample : list Duration;
  cap : Z;
  window : list Duration
}.

Definition NewLatencyRecorder (capacity : Z) : LatencyRecorder :=
  let capacity := if capacity <? 0 then 0 else capacity in
  {| totalCount := 0; totalSum := 0; sample := []; cap := capacity;
     window := [] |}.

(** [Record(d)]; [now] is the reading of [time.Now().UnixNano()]. The modulo
    panics on a zero divisor and the store on an index out of range. *)
Definition Record_ (l : LatencyRecorder) (d : Duration) (now : Z)
  : outcome LatencyRecorder :=
  let tc := add (totalCount l) 1 in
  let ts := add (totalSum l) d in
  let keep s := Ok {| totalCount := tc; totalSum := ts; sample := s;
                      cap := cap l; window := window l ++ [d] |} in
  (* reservoir sampling: fill up to cap, then replace randomly *)
  if 0 <? cap l then
    if len (sample l) <? cap l then keep (sample l ++ [d])
    else
      let! idx := rem now tc in
      if idx <? cap l then
        if (idx <? 0) || (len (sample l) <=? idx)
        then Panic "index out of range"
        else keep (store (sample l) (Z.to_nat idx) d)
      else keep (sample l)
  else keep (sample l).

(** [sort.Slice(tmp, func(i, j) bool { return tmp[i] < tmp[j] })]: the
    ascending rearrangement of the values. *)
Fixpoint insert_sorted (d : Duration) (l : list Duration) : list Duration :=
  match l with
  | [] => [d]
  | h :: t => if d <=? h then d :: l else h :: insert_sorted d t
  end.

Definition sort_durations (l : list Duration) : list Duration :=
  fold_right insert_sorted [] l.

Section Percentile.

(** The result of converting to [int] a float64 that [int] cannot represent
    (NaN, an infinity, a magnitude of 2^63 or more): Go leaves it to the
    implementation. *)
Variable indefinite : Z.

(** [float64(n)] for a non-negative [int]. *)
Definition float_of_int (n : Z) : float := PrimFloat.of_uint63 (Uint63.of_Z n).

(** [int(x)]: truncation toward zero. *)
Definition int_of_float (x : float) : Z :=
  match Prim2SF x with
  | S754_zero _ => 0
  | S754_finite s m e =>
      let v := if 0 <=? e then Z.pos m * 2 ^ e
               else Z.quot (Z.pos m) (2 ^ (- e)) in
      let v := if s then - v else v in
      if (min_int <=? v) && (v <=? max_int) then v else indefinite
  | S754_infinity _ | S754_nan => indefinite
  end.

Definition percentile (sorted : list Duration) (p : float) : Duration :=
  if len sorted =? 0 then 0
  else if PrimFloat.leb p 0%float then index sorted 0
  else if PrimFloat.leb 1%float p then index sorted (len sorted - 1)
  else
    (* nearest-rank method *)
    let rank := int_of_float (PrimFloat.mul (float_of_int (len sorted)) p) in
    if rank <=? 0 then index sorted 0
    else if len sorted <=? rank then index sorted (len sorted - 1)
    else index sorted rank.

(** The float64 values of the constants 0.50, 0.95 and 0.99. *)
Definition p50 : float := 0x1p-1%float.
Definition p95 : float := 0x1.e666666666666p-1%float.
Definition p99 : float := 0x1.fae147ae147aep-1%float.

Definition TotalSnapshot (l : LatencyRecorder) : outcome LatencyStats :=
  let! avg := if 0 <? totalCount l then div (totalSum l) (totalCount l)
              else Ok 0 in
  (* compute percentiles from sample (best-effort) *)
  if 0 <? len (sample l) then
    let tmp := sort_durations (sample l) in
    Ok {| Count := totalCount l; Avg := avg; P50 := percentile tmp p50;
          P95 := percentile tmp p95; P99 := percentile tmp p99 |}
  else
    Ok {| Count := totalCount l; Avg := avg; P50 := 0; P95 := 0; P99 := 0 |}.

(** Returns the stats and the recorder as the call leaves it. *)
Definition WindowSnapshotAndReset (l : LatencyRecorder)
  : outcome (LatencyStats * LatencyRecorder) :=
  let n := len (window l) in
  if n =? 0 then Ok (zero_stats, l)
  else
    let tmp := window l in
    let l' := {| totalCount := totalCount l; totalSum := totalSum l;
                 sample := sample l; cap := cap l; window := [] |} in
    (* compute aggregates *)
    let sum := fold_left add tmp 0 in
    let! avg := div sum n in
    let tmp := sort_durations tmp in
    Ok ({| Count := n; Avg := avg; P50 := percentile tmp p50;
           P95 := percentile tmp p95; P99 := percentile tmp p99 |}, l').

(** Calls made on a recorder, in the order they take the lock. *)
Inductive call :=
| CallRecord (d : Duration) (now : Z)
| CallTotalSnapshot
| CallWindowSnapshotAndReset.

(** Serves the calls in turn; returns what the window reads returned,
    oldest first, and the recorder at the end. *)
Fixpoint serve (calls : list call) (l : LatencyRecorder)
  : outcome (list LatencyStats * LatencyRecorder) :=
  match calls with
  | [] => Ok ([], l)
  | CallRecord d now :: rest =>
      let! l' := Record_ l d now in serve rest l'
  | CallTotalSnapshot :: rest =>
      let! _ := TotalSnapshot l in serve rest l
  | CallWindowSnapshotAndReset :: rest =>
      let! r := WindowSnapshotAndReset l in
      let! r' := serve rest (snd r) in
      Ok (fst r :: fst r', snd r')
  end.

End Percentile.

(** Samples reported by a series of window reads. *)
Definition counted (reads : list LatencyStats) : Z :=
  fold_right Z.add 0 (map Count reads).

Definition records (calls : list call) : Z :=
  len (filter (fun c => match c with CallRecord _ _ => true | _ => false end)
         calls).

(** The three atomic counters; [Start] is the creation time. *)
Record Metrics := {
  Attempts : Z;
  Success : Z;
  Fail : Z;
  Start : Z;
  Lat : LatencyRecorder
}.

Definition New (now : Z) : Metrics :=
  {| Attempts := 0; Success := 0; Fail := 0; Start := now;
     Lat := NewLatencyRecorder 20000 |}.

(** [m.Attempts.Add(1)], [m.Success.Add(1)], [m.Fail.Add(1)]. *)
Definition AttemptsAdd1 (m : Metrics) : Metrics :=
  {| Attempts := add (Attempts m) 1; Success := Success m; Fail := Fail m;
     Start := Start m; Lat := Lat m |}.

Definition SuccessAdd1 (m : Metrics) : Metrics :=
  {| Attempts := Attempts m; Success := add (Success m) 1; Fail := Fail m;
     Start := Start m; Lat := Lat m |}.

Definition FailAdd1 (m : Metrics) : Metrics :=
  {| Attempts := Attempts m; Success := Success m; Fail := add (Fail m) 1;
     Start := Start m; Lat := Lat m |}.

(** [Snapshot()] when its three loads see the same state. *)
Definition Snapshot (m : Metrics) (now : Z) : Z * Z * Z * Duration :=
  (Attempts m, Success m, Fail m, wrap64 (now - Start m)).

End Metrics.

(** ** internal/fail *)

Module Fail.

Import GoInt.

(** A failed attempt. [Timestamp] is [UnixNano] of the [time.Time]. *)
Record Record_ := {
  Timestamp : Z;
  Operation : string;
  Username : string;
  DN : string;
  Filter : string;
  Error : string
}.

(** A line [run] writes to the CSV file. *)
Inductive line :=
| Header
| Row (r : Record_).

(** Where the goroutine [l.run] stands. *)
Inductive consumer :=
| Opening                        (* started, before os.OpenFile returns *)
| Discarding                     (* open failed: [for range l.ch {}] *)
| Serving (buf : list Record_)   (* at the outer select *)
| Draining (buf : list Record_)  (* stopCh case taken: at the inner select *)
| Returned.                      (* run returned; the deferred wg.Done ran *)

(** A [*Logger] that is not nil, together with what its goroutine has
    written: [file] holds the lines [run] has passed to [w.Write] and
    flushed with [w.Flush], oldest first. [run] opens the file for appending
    and does not truncate it, so these lines go after what the file held
    before; it drops the errors of [w.Write] and [w.Flush], so a line is in
    [file] whether or not the write went through. [ch] holds the records
    buffered in the channel, oldest first; nothing in package fail closes
    that channel. [panicked] is set once a panic has taken the process down;
    nothing happens afterwards. *)
Record Logger := {
  path : string;
  batch : Z;
  ch : list Record_;
  ch_cap : Z;
  stop_closed : bool;
  run : consumer;
  file : list line;
  panicked : bool
}.

Definition with_ch (l : Logger) (q : list Record_) : Logger :=
  {| path := path l; batch := batch l; ch := q; ch_cap := ch_cap l;
     stop_closed := stop_closed l; run := run l; file := file l;
     panicked := panicked l |}.

Definition with_run (l : Logger) (c : consumer) (f : list line) : Logger :=
  {| path := path l; batch := batch l; ch := ch l; ch_cap := ch_cap l;
     stop_closed := stop_closed l; run := c; file := f;
     panicked := panicked l |}.

(** [New(path, batch)]; [make] panics on a negative size. The goroutine is
    started and left at its first statement: it has written nothing yet. *)
Definition New (path : string) (batch : Z) : outcome (option Logger) :=
  if String.eqb path "" then Ok None
  else
    let batch := if batch <=? 0 then 256 else batch in
    let size := mul batch 4 in
    if size <? 0 then Panic "makechan: size out of range"
    else Ok (Some {| path := path; batch := batch; ch := []; ch_cap := size;
                     stop_closed := false; run := Opening; file := [];
                     panicked := false |}).

(** The select of [Log] on a logger that is not nil: the send goes through
    when the channel has room, the default case drops the record. (A record
    handed straight to a waiting [run] passes through [ch] here; the channel
    is empty in that case, and its capacity is at least 4 unless [batch * 4]
    overflowed.) *)
Definition send_or_drop (l : Logger) (rec : Record_) : Logger :=
  if len (ch l) <? ch_cap l then with_ch l (ch l ++ [rec]) else l.

Definition Log (l : option Logger) (rec : Record_) : option Logger :=
  match l with
  | None => None
  | Some l => Some (send_or_drop l rec)
  end.

(** The closure [flush] of [run]: returns the new [buf] and the lines
    written; [buf] is emptied whatever [w.Write] and [w.Flush] return. *)
Definition flush (buf : list Record_) (f : list line)
  : list Record_ * list line :=
  match buf with
  | [] => (buf, f)
  | _ => ([], f ++ map Row buf)
  end.

(** [buf = append(buf, r); if len(buf) >= l.batch { flush() }]. *)
Definition append_and_maybe_flush (l : Logger) (buf : list Record_)
  (r : Record_) : list Record_ * list line :=
  let buf := buf ++ [r] in
  if batch l <=? len buf then flush buf (file l) else (buf, file l).

(** What can happen to a logger, one atomic step at a time. *)
Inductive event :=
| EvOpen (ok : bool)      (* os.OpenFile returns, with or without error *)
| EvRecv                  (* run receives the oldest record of l.ch *)
| EvTick                  (* the ticker case of the outer select runs *)
| EvStop                  (* the stopCh case of the outer select runs *)
| EvEmpty                 (* the default case of the inner select runs *)
| EvLog (rec : Record_)   (* some goroutine calls Log *)
| EvCloseStop.            (* some goroutine runs close(l.stopCh) *)

(** [close(l.stopCh)]: closing a closed channel panics. *)
Definition close_stopCh (l : Logger) : Logger :=
  {| path := path l; batch := batch l; ch := ch l; ch_cap := ch_cap l;
     stop_closed := true; run := run l; file := file l;
     panicked := stop_closed l |}.

(** One step of [run] on a received record [r], [q] being the rest of the
    channel. *)
Definition receive (l : Logger) (r : Record_) (q : list Record_) : Logger :=
  match run l with
  | Discarding => with_ch l q
  | Serving buf =>
      let '(buf', f) := append_and_maybe_flush l buf r in
      with_run (with_ch l q) (Serving buf') f
  | Draining buf =>
      let '(buf', f) := append_and_maybe_flush l buf r in
      with_run (with_ch l q) (Draining buf') f
  | Opening | Returned => l
  end.

(** The effect of an event; an event that cannot happen in the state at hand
    (a receive from an empty channel, the stopCh case before the channel is
    closed, the default case while a record is waiting) changes nothing. *)
Definition fire (ev : event) (l : Logger) : Logger :=
  if panicked l then l
  else
    match ev with
    | EvOpen ok =>
        match run l with
        | Opening =>
            if ok then with_run l (Serving []) (file l ++ [Header])
            else with_run l Discarding (file l)
        | _ => l
        end
    | EvRecv =>
        match ch l with
        | [] => l
        | r :: q => receive l r q
        end
    | EvTick =>
        match run l with
        | Serving buf =>
            let '(buf', f) := flush buf (file l) in with_run l (Serving buf') f
        | _ => l
        end
    | EvStop =>
        match run l with
        | Serving buf =>
            if stop_closed l then with_run l (Draining buf) (file l) else l
        | _ => l
        end
    | EvEmpty =>
        match run l, ch l with
        | Draining buf, [] =>
            let '(_, f) := flush buf (file l) in with_run l Returned f
        | _, _ => l
        end
    | EvLog rec => send_or_drop l rec
    | EvCloseStop => close_stopCh l
    end.

(** A schedule: the events in the order they happen. *)
Definition exec (evs : list event) (l : Logger) : Logger :=
  fold_left (fun l ev => fire ev l) evs l.

(** [l.wg.Wait()] returns once [run] has returned. *)
Definition wg_done (l : Logger) : bool :=
  match run l with
  | Returned => true
  | _ => false
  end.

Inductive close_result :=
| CloseReturned (l : option Logger)   (* Close has returned *)
| CloseBlocked (l : Logger)           (* Close is still in wg.Wait *)
| ClosePanicked.

(** [l.wg.Wait()] while the events of [sched] happen. *)
Fixpoint Wait (l : Logger) (sched : list event) : close_result :=
  if wg_done l then CloseReturned (Some l)
  else
    match sched with
    | [] => CloseBlocked l
    | ev :: sched' => Wait (fire ev l) sched'
    end.

(** [Close()], [sched] being what the other goroutines do meanwhile. *)
Definition Close (l : option Logger) (sched : list event) : close_result :=
  match l with
  | None => CloseReturned None
  | Some l =>
      let l := close_stopCh l in
      if panicked l then ClosePanicked else Wait l sched
  end.

(** Records written to the file, and calls of [Log] in a schedule. *)
Definition persisted (f : list line) : list Record_ :=
  flat_map (fun ln => match ln with Header => [] | Row r => [r] end) f.

Definition log_calls (evs : list event) : Z :=
  len (filter (fun ev => match ev with EvLog _ => true | _ => false end) evs).

(** Records [run] holds in [buf]. *)
Definition in_hand (c : consumer) : list Record_ :=
  match c with
  | Serving buf | Draining buf => buf
  | Opening | Discarding | Returned => []
  end.


(** The batch size [New] works with. *)
Definition effective_batch (batch : Z) : Z :=
  if batch <=? 0 then 256 else batch.

End Fail.

(** ** internal/ldapclient: the pool of user connections *)

Module LdapClient.

Import GoInt.

(** The identity of a [*ldap.Conn]: connections are numbered in the order
    they are dialed, so a fresh dial never yields a pointer seen before. *)
Definition Conn := nat.

(** A Go [error]: nil is [None]. *)
Definition error := option string.

(** The client's fields. [pool] is the content of the buffered channel,
    oldest first, and [pool_cap] its capacity; [dialed] counts the dials so
    far and [closed] lists the connections [Close()] was called on. *)
Record client := {
  cfg : Config.Config;
  conn : option Conn;
  pool : list Conn;
  pool_cap : Z;
  dialed : nat;
  closed : list Conn
}.

Definition with_pool (c : client) (p : list Conn) : client :=
  {| cfg := cfg c; conn := conn c; pool := p; pool_cap := pool_cap c;
     dialed := dialed c; closed := closed c |}.

(** [l.Close()]. *)
Definition close_conn (c : client) (l : Conn) : client :=
  {| cfg := cfg c; conn := conn c; pool := pool c; pool_cap := pool_cap c;
     dialed := dialed c; closed := l :: closed c |}.

(** A successful dial. *)
Definition dial (c : client) : Conn * client :=
  (dialed c,
   {| cfg := cfg c; conn := conn c; pool := pool c; pool_cap := pool_cap c;
      dialed := S (dialed c); closed := closed c |}).

(** [New(cfg)]; [lookup_ok] tells whether [connectLookup] succeeds. The
    lookup connection is the first one dialed. *)
Definition New (cfg : Config.Config) (lookup_ok : bool) : option client :=
  if lookup_ok then
    let size := mul (Config.Concurrency cfg) (Config.Connections cfg) in
    let size := if size <? 1 then 1 else size in
    Some {| cfg := cfg; conn := Some O; pool := []; pool_cap := size;
            dialed := 1%nat; closed := [] |}
  else None.

(** [getConn()]; [dial_ok] tells whether [dialUser] succeeds when it is
    called. *)
Definition getConn (c : client) (dial_ok : bool) : option Conn * client :=
  match pool c with
  | l :: rest => (Some l, with_pool c rest)
  | [] =>
      if dial_ok then let '(l, c') := dial c in (Some l, c')
      else (None, c)
  end.

(** [putConn(l, err)]. *)
Definition putConn (c : client) (l : option Conn) (err : error) : client :=
  match l with
  | None => c
  | Some l =>
      match err with
      | Some _ => close_conn c l
      | None =>
          if len (pool c) <? pool_cap c then with_pool c (pool c ++ [l])
          else close_conn c l
      end
  end.

(** [UserBind(dn, password)]; [bind] is the server's answer on the
    connection used. *)
Definition UserBind (c : client) (dial_ok : bool) (bind : Conn -> error)
  : error * client :=
  let '(l, c) := getConn c dial_ok in
  match l with
  | None => (Some "no connection available"%string, c)
  | Some l' =>
      let err := bind l' in
      (err, putConn c l err)
  end.

(** [UserSearch(dn, password, filter)]; [search] answers with the number of
    entries or an error. *)
Definition UserSearch (c : client) (dial_ok : bool) (bind : Conn -> error)
  (search : Conn -> Z * error) : Z * error * client :=
  let '(l, c) := getConn c dial_ok in
  match l with
  | None => (0, Some "no connection available"%string, c)
  | Some l' =>
      match bind l' with
      | Some e => (0, Some e, putConn c l (Some e))
      | None =>
          let '(n, err) := search l' in
          let c := putConn c l err in
          match err with
          | Some e => (0, Some e, c)
          | None => (n, None, c)
          end
      end
  end.

(** Workers share the client, from [New] up to the call of [Close()].
    [held] lists the connections a call of [UserBind] or [UserSearch] has
    borrowed and not yet given back: each such call runs [getConn] once and,
    when it got a connection, [putConn] once on that connection. *)
Record shared := {
  cl : client;
  held : list Conn
}.

Inductive event :=
| Borrow (dial_ok : bool)             (* a call runs [l := c.getConn()] *)
| GiveBack (l : Conn) (err : error).  (* the call holding [l] runs [c.putConn(l, err)] *)

(** The effect of an event and, for [Borrow], what [getConn] returned. A
    [GiveBack] of a connection no call holds cannot happen and changes
    nothing. *)
Definition fire (ev : event) (s : shared) : option Conn * shared :=
  match ev with
  | Borrow dial_ok =>
      let '(l, c) := getConn (cl s) dial_ok in
      (l, {| cl := c;
             held := match l with Some l => l :: held s | None => held s end |})
  | GiveBack l err =>
      if existsb (Nat.eqb l) (held s)
      then (None, {| cl := putConn (cl s) (Some l) err;
                     held := List.remove Nat.eq_dec l (held s) |})
      else (None, s)
  end.

Fixpoint exec (evs : list event) (s : shared) : shared :=
  match evs with
  | [] => s
  | ev :: evs' => exec evs' (snd (fire ev s))
  end.

(** The connections the [getConn] calls of a schedule returned. *)
Fixpoint acquired (evs : list event) (s : shared) : list Conn :=
  match evs with
  | [] => []
  | ev :: evs' =>
      let '(r, s') := fire ev s in
      match ev, r with
      | Borrow _, Some l => l :: acquired evs' s'
      | _, _ => acquired evs' s'
      end
  end.

Definition start (c : client) : shared := {| cl := c; held := [] |}.

(** What holds of the pool and of the connections out on loan, whatever the
    workers do. *)
Record consistent (s : shared) : Prop := {
  pool_nodup : NoDup (pool (cl s));
  pool_not_held : forall h, In h (pool (cl s)) -> ~ In h (held s);
  closed_gone : forall h, In h (closed (cl s)) ->
                          ~ In h (pool (cl s)) /\ ~ In h (held s);
  all_dialed : forall h, In h (pool (cl s)) \/ In h (held s)
                         \/ In h (closed (cl s)) -> (h < dialed (cl s))%nat
}.

End LdapClient.

(** ** internal/runner *)

Module Runner.

Import GoInt.

(** [csvdata.User]. *)
Record User := {
  Username : string;
  Password : string
}.

Definition error := option string.

(** The interface [ldapclient.Client] as [runOnce] uses it: what each call
    answers. *)
Record Client := {
  LookupDN : string -> string * error;
  UserBind : string -> string -> error;
  UserSearch : string -> string -> string -> Z * error
}.

(** The runner's own fields. [m] and [flog] point to objects shared with
    other goroutines, which live in [world] below; [flog] here only tells
    whether the pointer is non-nil. *)
Record Runner := {
  cfg : Config.Config;
  client : Client;
  users : list User;
  flog : bool
}.

(** The statements of [runOnce] that touch shared state. *)
Inductive action :=
| ActAttempts                      (* r.m.Attempts.Add(1) *)
| ActSuccess                       (* r.m.Success.Add(1) *)
| ActFail                          (* r.m.Fail.Add(1) *)
| ActLog (rec : Fail.Record_)      (* r.flog.Log(rec) *)
| ActPrintln (s : string).         (* fmt.Println(s) *)

Section WithFmt.

Variable fmt_other : string -> list string -> string.

(** prepareFilter injects the username into the filter if %s placeholder
    exists. *)
Definition prepareFilter (r : Runner) (username : string) : string :=
  let f := Config.Filter (cfg r) in
  if Fmt.Contains f "%s" then Fmt.Sprintf fmt_other f [username]
  else f.

(** The failure branch shared by the three operations: count the failure
    and, with a logger attached, queue a record. *)
Definition failed (r : Runner) (now : Z) (op : string) (user : User)
  (dn filter err : string) : list action :=
  ActFail ::
  (if flog r
   then [ActLog {| Fail.Timestamp := now; Fail.Operation := op;
                   Fail.Username := Username user; Fail.DN := dn;
                   Fail.Filter := filter; Fail.Error := err |}]
   else []).

Definition bind_phase (r : Runner) (now : Z) (user : User) (dn : string)
  (next : list action) : list action :=
  match UserBind (client r) dn (Password user) with
  | Some err => failed r now "bind" user dn "" err
  | None => next
  end.

Definition search_phase (r : Runner) (now : Z) (user : User) (dn : string)
  : list action :=
  let filter := prepareFilter r (Username user) in
  match UserSearch (client r) dn (Password user) filter with
  | (_, Some err) => failed r now "search" user dn filter err
  | (_, None) => [ActSuccess]
  end.

(** [runOnce()] for the entry [user] that [rand.Intn] selected: its shared
    effects, in program order. [now] is the reading of [time.Now()]. *)
Definition runOnce (r : Runner) (user : User) (now : Z) : list action :=
  ActAttempts ::
  match LookupDN (client r) (Username user) with
  | (_, Some err) => failed r now "lookup" user "" "" err
  | (dn, None) =>
      let mode := Config.Mode_ (cfg r) in
      if String.eqb mode Config.ModeAuth then
        bind_phase r now user dn [ActSuccess]
      else if String.eqb mode Config.ModeSearch then
        search_phase r now user dn
      else if String.eqb mode Config.ModeBoth then
        bind_phase r now user dn (search_phase r now user dn)
      else
        (* Should not happen due to validation *)
        [ActFail; ActPrintln "unknown mode"]
  end.

End WithFmt.

(** The objects the workers share. *)
Record world := {
  m : Metrics.Metrics;
  logger : option Fail.Logger;
  stdout : list string
}.

Definition perform (a : action) (w : world) : world :=
  match a with
  | ActAttempts =>
      {| m := Metrics.AttemptsAdd1 (m w); logger := logger w; stdout := stdout w |}
  | ActSuccess =>
      {| m := Metrics.SuccessAdd1 (m w); logger := logger w; stdout := stdout w |}
  | ActFail =>
      {| m := Metrics.FailAdd1 (m w); logger := logger w; stdout := stdout w |}
  | ActLog rec =>
      {| m := m w; logger := Fail.Log (logger w) rec; stdout := stdout w |}
  | ActPrintln s =>
      {| m := m w; logger := logger w; stdout := stdout w ++ [s] |}
  end.

(** A whole call of [runOnce] with nothing else running. *)
Definition runOnce_alone (fmt_other : string -> list string -> string)
  (r : Runner) (user : User) (now : Z) (w : world) : world :=
  fold_left (fun w a => perform a w) (runOnce fmt_other r user now) w.

(** A worker goroutine of [Run]. *)
Inductive worker :=
| LoopTop                          (* between two iterations *)
| InRunOnce (todo : list action)   (* inside runOnce, [todo] still to run *)
| Exited.                          (* saw ctx.Done() and returned *)

Record system := {
  shared : world;
  workers : list worker
}.

Inductive event :=
| Begin (i : nat) (answers : Client) (pick : nat) (now : Z)
    (* worker i calls runOnce; rand.Intn returns pick, and the directory
       answers this iteration's calls as [answers] tells *)
| Step (i : nat)     (* worker i runs its next statement with a shared effect *)
| Finish (i : nat)   (* worker i returns from runOnce *)
| Leave (i : nat).   (* worker i sees ctx.Done() at the loop top *)

Fixpoint set_worker (ws : list worker) (i : nat) (wk : worker) : list worker :=
  match ws, i with
  | [], _ => []
  | _ :: t, O => wk :: t
  | h :: t, S j => h :: set_worker t j wk
  end.

Section Schedule.

Variable fmt_other : string -> list string -> string.
Variable r : Runner.

(** The effect of an event; one that cannot happen in the state at hand
    changes nothing. *)
Definition fire (ev : event) (s : system) : system :=
  match ev with
  | Begin i answers pick now =>
      match nth_error (workers s) i, nth_error (users r) pick with
      | Some LoopTop, Some user =>
          let r' := {| cfg := cfg r; client := answers; users := users r;
                       flog := flog r |} in
          {| shared := shared s;
             workers := set_worker (workers s) i
                          (InRunOnce (runOnce fmt_other r' user now)) |}
      | _, _ => s
      end
  | Step i =>
      match nth_error (workers s) i with
      | Some (InRunOnce (a :: todo)) =>
          {| shared := perform a (shared s);
             workers := set_worker (workers s) i (InRunOnce todo) |}
      | _ => s
      end
  | Finish i =>
      match nth_error (workers s) i with
      | Some (InRunOnce []) =>
          {| shared := shared s; workers := set_worker (workers s) i LoopTop |}
      | _ => s
      end
  | Leave i =>
      match nth_error (workers s) i with
      | Some LoopTop =>
          {| shared := shared s; workers := set_worker (workers s) i Exited |}
      | _ => s
      end
  end.

Definition exec (evs : list event) (s : system) : system :=
  fold_left (fun s ev => fire ev s) evs s.

(** [Run] right after it has spawned its workers ([config.Parse] rejects a
    concurrency below 1). *)
Definition start (w : world) : system :=
  {| shared := w;
     workers := repeat LoopTop (Z.to_nat (Config.Concurrency (cfg r))) |}.

End Schedule.

(** [wg.Wait()] of [Run] returns once every worker has returned. *)
Definition run_complete (s : system) : bool :=
  forallb (fun wk => match wk with Exited => true | _ => false end) (workers s).

Definition is_attempt (a : action) : bool :=
  match a with ActAttempts => true | _ => false end.

Definition is_outcome (a : action) : bool :=
  match a with ActSuccess | ActFail => true | _ => false end.

(** An iteration is in flight once its attempt is counted and until its
    outcome is. *)
Definition in_flight (wk : worker) : Z :=
  match wk with
  | InRunOnce todo =>
      if negb (existsb is_attempt todo) && existsb is_outcome todo then 1 else 0
  | _ => 0
  end.

(** How often a stretch of [runOnce] counts an attempt, and an outcome. *)
Definition attempts (todo : list action) : nat :=
  List.length (filter is_attempt todo).

Definition outcomes (todo : list action) : nat :=
  List.length (filter is_outcome todo).

(** The stretches of [runOnce] a worker can have before it: a whole call,
    which counts the attempt first and one outcome later, or a rest of one
    that no longer counts an attempt. *)
Definition stretch (todo : list action) : Prop :=
  (exists rest, todo = ActAttempts :: rest /\ attempts rest = O
                /\ outcomes rest = 1%nat)
  \/ (attempts todo = O /\ (outcomes todo <= 1)%nat).

Definition sound_worker (wk : worker) : Prop :=
  match wk with
  | InRunOnce todo => stretch todo
  | _ => True
  end.

Definition flights (ws : list worker) : Z :=
  fold_right Z.add 0 (map in_flight ws).

Definition iterations_in_flight (s : system) : Z := flights (workers s).

(** The counters and the workers agree. *)
Definition balanced (s : system) : Prop :=
  Forall sound_worker (workers s) /\
  Metrics.Attempts (m (shared s))
  = GoInt.wrap64 (Metrics.Success (m (shared s)) + Metrics.Fail (m (shared s)) + flights (workers s)).

(** The world [main] builds: fresh metrics, and a logger iff one is
    configured. *)
Definition fresh_world (now : Z) (l : option Fail.Logger) : world :=
  {| m := Metrics.New now; logger := l; stdout := [] |}.

End Runner.

(** ** Fixtures of internal/runner/runner_test.go *)

Module RunnerTest.

Open Scope string_scope.

(** [fakeClient]: the lookup always succeeds. *)
Definition fakeClient (bindErr searchErr : option string) : Runner.Client :=
  {| Runner.LookupDN := fun username => ("dn-" ++ username, None);
     Runner.UserBind := fun _ _ => bindErr;
     Runner.UserSearch := fun _ _ _ => (1%Z, searchErr) |}.

Definition config (mode : Config.Mode) (filter : string) : Config.Config :=
  {| Config.Mode_ := mode; Config.Filter := filter;
     Config.Concurrency := 1; Config.Connections := 1;
     Config.FailLogPath := ""; Config.FailLogBatch := 256 |}.

Definition bob : Runner.User :=
  {| Runner.Username := "bob"; Runner.Password := "pw" |}.

(** The runner of [TestPrepareFilter]. *)
Definition runner_with_filter (f : string) : Runner.Runner :=
  {| Runner.cfg := config Config.ModeSearch f;
     Runner.client := fakeClient None None;
     Runner.users := [];
     Runner.flog := false |}.

(** The runner of [TestRunOnce_ModeAuth_Success], with any mode and bind
    answer. *)
Definition runner_in_mode (mode : Config.Mode) (bindErr : option string)
  : Runner.Runner :=
  {| Runner.cfg := config mode "(objectClass=person)";
     Runner.client := fakeClient bindErr None;
     Runner.users := [bob];
     Runner.flog := false |}.

End RunnerTest.

(** ** The design document's wording, for comparison with the code *)

Module Design.

(** "Every occurrence of the two-character placeholder is replaced with the
    current username": left to right, without rescanning what was put in. *)
Fixpoint replace_every_placeholder (f u : string) : string :=
  match f with
  | EmptyString => EmptyString
  | String c rest =>
      match rest with
      | EmptyString => f
      | String d rest' =>
          if Fmt.is_percent c && Ascii.eqb d "s"
          then (u ++ replace_every_placeholder rest' u)%string
          else String c (replace_every_placeholder rest u)
      end
  end.

(** Number of percent signs in a filter text. *)
Fixpoint percent_signs (f : string) : nat :=
  match f with
  | EmptyString => O
  | String c rest => ((if Fmt.is_percent c then 1 else 0) + percent_signs rest)%nat
  end.

(** "rank = floor(N*p); clamp rank to [0, N-1]". *)
Definition clamp_rank (n rank : Z) : Z := Z.max 0 (Z.min (n - 1) rank).

(** "rank = floor(N*p)", read on the number the float64 [p] stands for: the
    floor of the exact product. *)
Definition floor_rank (n : Z) (p : float) : Z :=
  match Prim2SF p with
  | S754_finite s m e =>
      let v := n * (if s then Z.neg m else Z.pos m) in
      if 0 <=? e then v * 2 ^ e else v / 2 ^ (- e)
  | S754_zero _ | S754_infinity _ | S754_nan => 0
  end.

(** "rank = floor(N*p)", read on the fraction [num / den] that is written
    down for [p]. *)
Definition floor_rank_of_fraction (n num den : Z) : Z := n * num / den.

(** The float64 value of the constant 0.29. *)
Definition p29 : float := 0x1.28f5c28f5c28fp-2%float.


(** "capacity = concurrency x connections-per-worker (minimum 1)". *)
Definition pool_capacity (concurrency connections : Z) : Z :=
  Z.max 1 (concurrency * connections).

End Design.

(** ** Sequences in order *)

Module Seq.

(** [subseq l1 l2]: [l1] is [l2] with some elements left out. *)
Inductive subseq {A : Type} : list A -> list A -> Prop :=
| subseq_nil : subseq [] []
| subseq_skip (x : A) (l1 l2 : list A) : subseq l1 l2 -> subseq l1 (x :: l2)
| subseq_take (x : A) (l1 l2 : list A) :
    subseq l1 l2 -> subseq (x :: l1) (x :: l2).

End Seq.

(** ** A Go result: a value or an error *)

Inductive result (A : Type) : Type :=
| Good (a : A)
| Bad (err : string).
Arguments Good {A} a.
Arguments Bad {A} err.

(** ** internal/fail: the records of a schedule *)

Module FailTrace.

Import Fail.

(** The records passed to [Log], in call order. *)
Definition logged (evs : list event) : list Record_ :=
  flat_map (fun ev => match ev with EvLog rec => [rec] | _ => [] end) evs.

(** The records the logger holds, oldest first: written to the file, in
    [buf], in the channel. *)
Definition retained (l : Logger) : list Record_ :=
  persisted (file l) ++ in_hand (run l) ++ ch l.

(** The shape of what [run] has written, by where it stands. *)
Definition file_in_shape (l : Logger) : Prop :=
  match run l with
  | Opening | Discarding => file l = []
  | Serving _ | Draining _ | Returned =>
      file l = Header :: map Row (persisted (file l))
  end.

End FailTrace.

(** ** internal/ldapclient: shutdown *)

Module LdapShutdown.

Import LdapClient.

(** The client together with the state of its pool channel, which [Close]
    closes. *)
Record closable := {
  base : client;
  pool_closed : bool
}.

Definition opened (c : client) : closable :=
  {| base := c; pool_closed := false |}.

(** [Close()]: the lookup connection is closed and forgotten, then the pool
    channel is closed and every connection left in it is closed. Closing a
    closed channel panics. *)
Definition Close (c : closable) : outcome closable :=
  let b := base c in
  let b := match conn b with
           | Some l =>
               {| cfg := cfg b; conn := None; pool := pool b;
                  pool_cap := pool_cap b; dialed := dialed b;
                  closed := l :: closed b |}
           | None => b
           end in
  if pool_closed c then Panic "close of closed channel"
  else
    Ok {| base := with_pool (fold_left close_conn (pool b) b) [];
          pool_closed := true |}.

(** [getConn()] at any time: a receive from the closed and drained channel
    yields nil at once, and nil is what [getConn] then returns. *)
Definition getConn (c : closable) (dial_ok : bool) : option Conn * closable :=
  if pool_closed c then
    match pool (base c) with
    | l :: rest => (Some l, {| base := with_pool (base c) rest;
                               pool_closed := true |})
    | [] => (None, c)
    end
  else
    let '(l, b) := LdapClient.getConn (base c) dial_ok in
    (l, {| base := b; pool_closed := false |}).

(** [putConn(l, err)] at any time: the send of the select panics on a closed
    channel. *)
Definition putConn (c : closable) (l : option Conn) (err : error)
  : outcome closable :=
  match l, err with
  | Some _, None =>
      if pool_closed c then Panic "send on closed channel"
      else Ok {| base := LdapClient.putConn (base c) l err;
                 pool_closed := false |}
  | _, _ => Ok {| base := LdapClient.putConn (base c) l err;
                  pool_closed := pool_closed c |}
  end.

(** [UserBind(dn, password)] at any time. *)
Definition UserBind (c : closable) (dial_ok : bool) (bind : Conn -> error)
  : outcome (error * closable) :=
  let '(l, c) := getConn c dial_ok in
  match l with
  | None => Ok (Some "no connection available"%string, c)
  | Some l' =>
      let err := bind l' in
      let! c := putConn c l err in
      Ok (err, c)
  end.

End LdapShutdown.

(** ** internal/csvdata *)

Module Csvdata.

Open Scope string_scope.

Record User := {
  Username : string;
  Password : string;
  ExpectedOK : bool
}.

(** What [csv.Reader.Read] returns before the end of the file: a record or
    an error. The end of the list is [io.EOF]. [csv.NewReader] leaves
    [FieldsPerRecord] at 0, so that the reader takes the number of fields of
    the first record as the number every record has and returns any other
    record with [ErrFieldCount]: such a read is a [Failed] one, and a [Row]
    after the header has as many fields as the header
    ([CsvHeader.reader_yields]). *)
Inductive read :=
| Row (rec : list string)
| Failed (err : string).

Section Strings.

(** [strings.TrimSpace], [strings.ToLower], [strings.TrimRight] and
    [strings.EqualFold], not interpreted here. *)
Variable TrimSpace : string -> string.
Variable ToLower : string -> string.
Variable TrimRight : string -> string -> string.
Variable EqualFold : string -> string -> bool.

(** The loop over the header: indices of the three columns, -1 when a
    column is missing; [i] is the index of the first name of [h]. *)
Fixpoint header_indices (h : list string) (i : Z) (idx : Z * Z * Z)
  : Z * Z * Z :=
  match h with
  | [] => idx
  | name :: rest =>
      let col := TrimSpace (ToLower name) in
      let '(idxU, idxP, idxOK) := idx in
      header_indices rest (i + 1)
        (if String.eqb col "username" then (i, idxP, idxOK)
         else if String.eqb col "password" then (idxU, i, idxOK)
         else if String.eqb col "expected_ok" then (idxU, idxP, i)
         else idx)
  end.

Definition field (rec : list string) (i : Z) : string :=
  nth (Z.to_nat i) rec "".

(** The body of the loop over the rows: the user to append, or nothing when
    the row is skipped. *)
Definition row_user (idxU idxP idxOK : Z) (rec : list string) : option User :=
  if ((GoInt.len rec <=? idxU) || (GoInt.len rec <=? idxP))%Z then None
  else
    (* Trim username and strip trailing CR/LF from password *)
    let u := TrimSpace (field rec idxU) in
    let p := TrimRight (field rec idxP) (String "013" (String "010" "")) in
    if (0 <=? idxOK)%Z then
      let val := if (idxOK <? GoInt.len rec)%Z then field rec idxOK else "" in
      if EqualFold (TrimSpace val) "true"
      then Some {| Username := u; Password := p; ExpectedOK := true |}
      else None
    else Some {| Username := u; Password := p; ExpectedOK := false |}.

(** The loop over the rows, [users] being what was appended so far. *)
Fixpoint load_rows (idxU idxP idxOK : Z) (reads : list read)
  (users : list User) : result (list User) :=
  match reads with
  | [] => Good users
  | Failed err :: _ => Bad err
  | Row rec :: rest =>
      load_rows idxU idxP idxOK rest
        (match row_user idxU idxP idxOK rec with
         | Some u => users ++ [u]
         | None => users
         end)
  end.

(** [Load(path)]; [file] is the error of [os.Open] or what the reader
    yields. *)
Definition Load (file : result (list read)) : result (list User) :=
  match file with
  | Bad err => Bad err
  | Good [] => Bad ("read header: " ++ "EOF")
  | Good (Failed err :: _) => Bad ("read header: " ++ err)
  | Good (Row h :: reads) =>
      let '(idxU, idxP, idxOK) := header_indices h 0 (-1, -1, -1) in
      if ((idxU <? 0) || (idxP <? 0))%Z
      then Bad "csv must have username,password headers"
      else load_rows idxU idxP idxOK reads []
  end.

End Strings.

End Csvdata.

(** ** internal/config: the checks of Parse *)

Module ConfigParse.

Open Scope string_scope.

(** The flag values [pflag.Parse] leaves behind, as far as [Parse] checks
    them or the core reads them. *)
Record Flags := {
  mode : string;
  filter : string;
  BaseDN : string;
  LookupBindDN : string;
  LookupBindPass : string;
  SaslExternal : bool;
  concurrency : Z;
  connections : Z;
  fail_log : string;
  fail_batch : Z
}.

(** [Parse()] from the call of [pflag.Parse] on. *)
Definition Parse (fl : Flags) : result Config.Config :=
  if negb (String.eqb (mode fl) Config.ModeAuth
           || String.eqb (mode fl) Config.ModeSearch
           || String.eqb (mode fl) Config.ModeBoth)
  then Bad "invalid mode: must be auth, search, or both"
  else if String.eqb (BaseDN fl) "" then Bad "base-dn is required"
  else if negb (SaslExternal fl)
          && (String.eqb (LookupBindDN fl) ""
              || String.eqb (LookupBindPass fl) "")
  then Bad "lookup-bind-dn and lookup-bind-pass are required (or use --sasl-external)"
  else if ((concurrency fl <=? 0) || (connections fl <=? 0))%Z
  then Bad "concurrency and connections must be >= 1"
  else Good {| Config.Mode_ := mode fl; Config.Filter := filter fl;
               Config.Concurrency := concurrency fl;
               Config.Connections := connections fl;
               Config.FailLogPath := fail_log fl;
               Config.FailLogBatch := fail_batch fl |}.

End ConfigParse.

(** ** internal/check *)

Module Check.

Open Scope string_scope.

(** The client as [Run] uses it. *)
Record Client := {
  BindLookup : Runner.error;
  ops : Runner.Client
}.

(** The calls [Run] makes on the client, in order. *)
Inductive call :=
| CallBindLookup
| CallLookupDN (username : string)
| CallUserBind (dn password : string)
| CallUserSearch (dn password filter : string)
| CallClose.

(** The effective filter of the search and both branches. *)
Definition search_filter (fmt_other : string -> list string -> string)
  (cfg : Config.Config) (username : string) : string :=
  let filter := Config.Filter cfg in
  if Fmt.Contains filter "%s" then Fmt.Sprintf fmt_other filter [username]
  else filter.

Section Run.

Variable fmt_other : string -> list string -> string.

Definition check_bind (c : Client) (u : Csvdata.User) (dn : string)
  (next : list call * Runner.error) : list call * Runner.error :=
  match Runner.UserBind (ops c) dn (Csvdata.Password u) with
  | Some err =>
      ([CallUserBind dn (Csvdata.Password u)],
       Some ("user bind failed for '" ++ Csvdata.Username u ++ "': " ++ err))
  | None =>
      (CallUserBind dn (Csvdata.Password u) :: fst next, snd next)
  end.

Definition check_search (cfg : Config.Config) (c : Client)
  (u : Csvdata.User) (dn : string) : list call * Runner.error :=
  let filter := search_filter fmt_other cfg (Csvdata.Username u) in
  ([CallUserSearch dn (Csvdata.Password u) filter],
   match Runner.UserSearch (ops c) dn (Csvdata.Password u) filter with
   | (_, Some err) =>
       Some ("user search failed for '" ++ Csvdata.Username u
             ++ "' with filter '" ++ filter ++ "': " ++ err)
   | (_, None) => None
   end).

(** [Run] once the client exists: the calls before the deferred [Close],
    and the error returned. *)
Definition with_client (cfg : Config.Config) (c : Client)
  (u : Csvdata.User) : list call * Runner.error :=
  match BindLookup c with
  | Some err => ([CallBindLookup], Some ("lookup bind failed: " ++ err))
  | None =>
      match Runner.LookupDN (ops c) (Csvdata.Username u) with
      | (_, Some err) =>
          ([CallBindLookup; CallLookupDN (Csvdata.Username u)],
           Some ("lookup dn failed for user '" ++ Csvdata.Username u
                 ++ "': " ++ err))
      | (dn, None) =>
          let mode := Config.Mode_ cfg in
          let '(calls, err) :=
            if String.eqb mode Config.ModeAuth then
              check_bind c u dn ([], None)
            else if String.eqb mode Config.ModeSearch then
              check_search cfg c u dn
            else if String.eqb mode Config.ModeBoth then
              check_bind c u dn (check_search cfg c u dn)
            else ([], None) in
          (CallBindLookup :: CallLookupDN (Csvdata.Username u) :: calls, err)
      end
  end.

(** [Run(cfg)]; [csv_path] is [cfg.CSVPath], [loaded] what [csvdata.Load]
    returns and [new_client] what [newClient] returns. *)
Definition Run (cfg : Config.Config) (csv_path : string)
  (loaded : result (list Csvdata.User)) (new_client : result Client)
  : list call * Runner.error :=
  match loaded with
  | Bad err => ([], Some ("csv error: " ++ err))
  | Good [] => ([], Some ("csv error: no users found in " ++ csv_path))
  | Good (u :: _) =>
      match new_client with
      | Bad err => ([], Some ("ldap client error: " ++ err))
      | Good c =>
          let '(calls, err) := with_client cfg c u in
          ((calls ++ [CallClose])%list, err)
      end
  end.

End Run.

End Check.

(** ** internal/metrics: the samples of a series of calls *)

Module MetricsTrace.

Import Metrics.

(** The durations passed to [Record], in call order. *)
Definition recorded (calls : list call) : list Duration :=
  flat_map (fun c => match c with CallRecord d _ => [d] | _ => [] end) calls.

(** The clock never reads a time before 1970. *)
Definition clock_not_negative (calls : list call) : Prop :=
  Forall (fun c => match c with CallRecord _ now => 0 <= now | _ => True end)
    calls.

(** The exact sum of a list of durations. *)
Definition total (ds : list Duration) : Z := fold_right Z.add 0 ds.

End MetricsTrace.

(** ** internal/ldapclient: where the connections are *)

Module PoolAccount.

Import LdapClient.

(** The user connections dialed so far are the ones in the pool, on loan or
    closed; connection 0 is the lookup connection. *)
Definition tracked (s : shared) : Prop :=
  (1 <= dialed (cl s))%nat /\
  forall h, (1 <= h < dialed (cl s))%nat <->
            In h (pool (cl s)) \/ In h (held s) \/ In h (closed (cl s)).

End PoolAccount.

(** ** Filters with several placeholders *)

Module Placeholders.

Open Scope string_scope.

(** Every percent sign of the text starts a placeholder [%s]. *)
Fixpoint only_placeholders (f : string) : bool :=
  match f with
  | EmptyString => true
  | String c rest =>
      if Fmt.is_percent c then
        match rest with
        | String d rest' => Ascii.eqb d "s" && only_placeholders rest'
        | EmptyString => false
        end
      else only_placeholders rest
  end.

(** The text with its placeholders filled from [a], left to right, and with
    [%!s(MISSING)] for the placeholders left when [a] is used up. *)
Fixpoint fill (f : string) (a : list string) : string :=
  match f with
  | EmptyString => EmptyString
  | String c rest =>
      match rest with
      | EmptyString => f
      | String d rest' =>
          if Fmt.is_percent c && Ascii.eqb d "s" then
            match a with
            | x :: a' => x ++ fill rest' a'
            | [] => "%!s(MISSING)" ++ fill rest' []
            end
          else String c (fill rest a)
      end
  end.

End Placeholders.

(** ** What an iteration of the runner asks of the directory *)

Module Iteration.

Import Runner.

(** The answers of the client during one call of [runOnce] on [user]. *)
Section Answers.

Variable fmt_other : string -> list string -> string.
Variable r : Runner.
Variable user : User.

Definition dn : string := fst (LookupDN (client r) (Username user)).

Definition lookup_error : error := snd (LookupDN (client r) (Username user)).

Definition bind_error : error := UserBind (client r) dn (Password user).

Definition search_error : error :=
  snd (UserSearch (client r) dn (Password user)
         (prepareFilter fmt_other r (Username user))).

(** The operations the configured mode asks for all go through. *)
Definition all_went_well : Prop :=
  lookup_error = None /\
  let mode := Config.Mode_ (cfg r) in
  (mode = Config.ModeAuth /\ bind_error = None) \/
  (mode = Config.ModeSearch /\ search_error = None) \/
  (mode = Config.ModeBoth /\ bind_error = None /\ search_error = None).

Definition known_mode : Prop :=
  let mode := Config.Mode_ (cfg r) in
  mode = Config.ModeAuth \/ mode = Config.ModeSearch \/ mode = Config.ModeBoth.

End Answers.

End Iteration.

(** ** internal/csvdata: columns of a header *)

Module CsvHeader.

(** Some name of the header, trimmed and in lower case, is [col]. *)
Definition has_column (TrimSpace ToLower : string -> string)
  (h : list string) (col : string) : Prop :=
  exists name, In name h /\ TrimSpace (ToLower name) = col.

Definition is_row (rd : Csvdata.read) : Prop :=
  match rd with
  | Csvdata.Row _ => True
  | Csvdata.Failed _ => False
  end.

(** The records the reader returns without error after the header [h]:
    with [FieldsPerRecord] at 0 each has as many fields as the header. *)
Definition reader_yields (h : list string) (recs : list (list string))
  : Prop :=
  Forall (fun rec => List.length rec = List.length h) recs.

(** [k] is the index of the last column of [h] named [col], the first name
    of [h] having index [i]. *)
Definition last_column (TrimSpace ToLower : string -> string)
  (h : list string) (i : Z) (col : string) (k : Z) : Prop :=
  i <= k < i + GoInt.len h /\
  TrimSpace (ToLower (Csvdata.field h (k - i))) = col /\
  forall j, k < j < i + GoInt.len h ->
            TrimSpace (ToLower (Csvdata.field h (j - i))) <> col.

End CsvHeader.

(** * Properties *)

(** ** Machine arithmetic *)

Module GoIntFacts.

Import GoInt.

Lemma wrap64_small (z : Z) : min_int <= z <= max_int -> wrap64 z = z.
Proof.
  unfold wrap64, min_int, max_int. intros H.
  rewrite Z.mod_small; lia.
Qed.

(** Reducing an operand first does not change the reduced sum. *)
Lemma wrap64_add_l (x y : Z) : wrap64 (wrap64 x + y) = wrap64 (x + y).
Proof.
  unfold wrap64. f_equal.
  replace (((x + 2 ^ 63) mod 2 ^ 64 - 2 ^ 63) + y + 2 ^ 63)
    with ((x + 2 ^ 63) mod 2 ^ 64 + y) by lia.
  rewrite Zplus_mod_idemp_l. f_equal. lia.
Qed.

End GoIntFacts.

(** ** Filter substitution *)

Module FilterFacts.

Import Fmt Design RunnerTest.
Open Scope string_scope.

Section Substitution.

Variable fmt_other : string -> list string -> string.

Lemma no_percent_contains (f : string) :
  percent_signs f = O -> Contains f "%s" = false.
Proof.
  induction f as [|c rest IH]; [reflexivity|].
  cbn [percent_signs Contains]. intros H.
  destruct (is_percent c) eqn:Hc; [discriminate|].
  rewrite (IH H), orb_false_r.
  unfold is_percent in Hc. cbn [String.prefix].
  destruct (ascii_dec "%" c) as [E|_]; [|reflexivity].
  subst c. discriminate.
Qed.

Lemma no_percent_printf (f : string) :
  percent_signs f = O -> doPrintf fmt_other f [] = f.
Proof.
  induction f as [|c rest IH]; [reflexivity|].
  cbn [percent_signs doPrintf]. intros H.
  destruct (is_percent c); [discriminate|].
  now rewrite (IH H).
Qed.

Lemma no_percent_replace (f u : string) :
  percent_signs f = O -> replace_every_placeholder f u = f.
Proof.
  induction f as [|c rest IH]; [reflexivity|].
  cbn [percent_signs replace_every_placeholder]. intros H.
  destruct (is_percent c); [discriminate|].
  destruct rest as [|d rest']; [reflexivity|].
  cbn [andb]. now rewrite (IH H).
Qed.

Lemma prefix_placeholder (c : ascii) (rest : string) :
  String.prefix "%s" (String c rest) =
  is_percent c && match rest with
                  | String d _ => Ascii.eqb d "s"
                  | EmptyString => false
                  end.
Proof.
  unfold is_percent.
  destruct rest as [|d rest']; cbn [String.prefix];
    destruct (ascii_dec "%" c) as [E|N];
    destruct (Ascii.eqb_spec c "%") as [E'|N']; try congruence;
    try reflexivity.
  cbn [andb]. destruct (ascii_dec "s" d) as [E2|N2];
    destruct (Ascii.eqb_spec d "s") as [E3|N3]; try congruence.
  now destruct rest'.
Qed.

Lemma one_percent_unchanged (f u : string) :
  (percent_signs f <= 1)%nat -> Contains f "%s" = false ->
  replace_every_placeholder f u = f.
Proof.
  induction f as [|c rest IH]; [reflexivity|].
  intros Hn Hc. cbn [Contains] in Hc. apply orb_false_iff in Hc.
  destruct Hc as [Hp Hc]. rewrite prefix_placeholder in Hp.
  cbn [percent_signs] in Hn. cbn [replace_every_placeholder].
  destruct rest as [|d rest']; [reflexivity|].
  rewrite Hp. f_equal. apply IH; [|exact Hc].
  destruct (is_percent c); lia.
Qed.

Lemma one_percent_substituted (f u : string) :
  (percent_signs f <= 1)%nat -> Contains f "%s" = true ->
  doPrintf fmt_other f [u] = replace_every_placeholder f u.
Proof.
  induction f as [|c rest IH]; [discriminate|].
  intros Hn Hc. cbn [percent_signs] in Hn.
  cbn [Contains] in Hc. rewrite prefix_placeholder in Hc.
  cbn [doPrintf replace_every_placeholder].
  destruct (is_percent c) eqn:Ec.
  - assert (H0 : percent_signs rest = O) by lia.
    rewrite (no_percent_contains _ H0), orb_false_r in Hc.
    destruct rest as [|d rest']; [discriminate|].
    cbn [andb] in Hc |- *. rewrite Hc.
    apply Ascii.eqb_eq in Hc. subst d.
    cbn [percent_signs] in H0.
    change (is_percent "s") with false in *.
    change (starts_complex_directive "s") with false.
    cbn [Ascii.eqb Bool.eqb orb].
    rewrite no_percent_printf, no_percent_replace by exact H0.
    reflexivity.
  - cbn [andb orb] in Hc.
    destruct rest as [|d rest']; [discriminate|].
    cbn [andb]. f_equal. apply IH; [lia|exact Hc].
Qed.

(** C2 (as amended). A filter text without the placeholder is used as it
    is; a filter text with at most one percent sign comes out with its
    placeholder, if it has one, replaced by the username. *)
Theorem prepareFilter_substitutes (r : Runner.Runner) (u : string) :
  let f := Config.Filter (Runner.cfg r) in
  (Contains f "%s" = false -> Runner.prepareFilter fmt_other r u = f) /\
  ((percent_signs f <= 1)%nat ->
   Runner.prepareFilter fmt_other r u = replace_every_placeholder f u).
Proof.
  cbv zeta. unfold Runner.prepareFilter, Sprintf. split.
  - intros ->. reflexivity.
  - intros Hn. destruct (Contains _ "%s") eqn:Hc.
    + now apply one_percent_substituted.
    + symmetry. now apply one_percent_unchanged.
Qed.

End Substitution.

(** The two filters of the design document's test, through the theorem. *)
Lemma prepareFilter_substitutes_witness :
  Runner.prepareFilter (fun _ _ => "") (runner_with_filter "(uid=%s)") "alice"
    = "(uid=alice)" /\
  Runner.prepareFilter (fun _ _ => "") (runner_with_filter "(objectClass=person)") "bob"
    = "(objectClass=person)".
Proof.
  split.
  - exact (proj2 (prepareFilter_substitutes (fun _ _ => "")
                    (runner_with_filter "(uid=%s)") "alice")
                 (le_n 1)).
  - exact (proj1 (prepareFilter_substitutes (fun _ _ => "")
                    (runner_with_filter "(objectClass=person)") "bob")
                 eq_refl).
Defined.

(** C2 (as stated) fails on a filter with two placeholders: the second one
    is not replaced by the username. *)
Lemma prepareFilter_second_placeholder :
  Runner.prepareFilter (fun _ _ => "")
    (runner_with_filter "(|(uid=%s)(cn=%s))") "alice"
    = "(|(uid=alice)(cn=%!s(MISSING)))" /\
  Runner.prepareFilter (fun _ _ => "")
    (runner_with_filter "(|(uid=%s)(cn=%s))") "alice"
    <> replace_every_placeholder "(|(uid=%s)(cn=%s))" "alice".
Proof.
  split; [reflexivity|]. vm_compute. discriminate.
Qed.

End FilterFacts.

(** ** Latency statistics *)

Module LatencyFacts.

Import GoInt Metrics.

Lemma insert_sorted_perm (d : Duration) (l : list Duration) :
  Permutation (d :: l) (insert_sorted d l).
Proof.
  induction l as [|h t IH]; cbn [insert_sorted]; [reflexivity|].
  destruct (d <=? h); [reflexivity|].
  rewrite perm_swap. now constructor.
Qed.

Lemma insert_sorted_keeps (d : Duration) (l : list Duration) :
  StronglySorted Z.le l -> StronglySorted Z.le (insert_sorted d l).
Proof.
  induction 1 as [|h t Hs IH Hh]; cbn [insert_sorted].
  - repeat constructor.
  - destruct (Z.leb_spec d h) as [Hle|Hgt].
    + constructor; [now constructor|].
      constructor; [exact Hle|].
      eapply Forall_impl; [|exact Hh]. intros; cbn in *; lia.
    + constructor; [exact IH|].
      eapply Permutation_Forall; [apply insert_sorted_perm|].
      constructor; [lia|exact Hh].
Qed.

(** The model of [sort.Slice] returns the ascending rearrangement. *)
Lemma sort_durations_sorted (l : list Duration) :
  StronglySorted Z.le (sort_durations l) /\ Permutation l (sort_durations l).
Proof.
  induction l as [|h t [IHs IHp]]; cbn [sort_durations fold_right].
  - split; constructor.
  - split; [now apply insert_sorted_keeps|].
    etransitivity; [|apply insert_sorted_perm]. now constructor.
Qed.

Lemma sort_durations_length (l : list Duration) :
  len (sort_durations l) = len l.
Proof.
  unfold len. f_equal. symmetry.
  apply Permutation_length, sort_durations_sorted.
Qed.

Lemma sorted_first_is_least (l : list Duration) :
  StronglySorted Z.le l -> Forall (fun d => index l 0 <= d) l.
Proof.
  unfold index. destruct 1 as [|h t _ Hh]; cbn; constructor; [lia|exact Hh].
Qed.

Lemma sorted_last_nat (l : list Duration) :
  StronglySorted Z.le l ->
  forall d, In d l -> d <= nth (List.length l - 1) l 0.
Proof.
  unfold Duration.
  induction 1 as [|h t Hs IH Hh]; [intros d []|].
  destruct t as [|h' t']; intros d Hd.
  - destruct Hd as [<-|[]]. cbn. lia.
  - assert (E : (List.length (h :: h' :: t') - 1
                 = S (List.length (h' :: t') - 1))%nat)
      by (cbn [List.length]; lia).
    rewrite E. cbn [nth]. destruct Hd as [<-|Hd]; [|now apply IH].
    transitivity h'; [now inversion Hh|].
    apply IH. now left.
Qed.

Lemma sorted_last_is_greatest (l : list Duration) :
  StronglySorted Z.le l -> Forall (fun d => d <= index l (len l - 1)) l.
Proof.
  intros Hs. unfold index, len.
  replace (Z.to_nat (Z.of_nat (List.length l) - 1))
    with (List.length l - 1)%nat by lia.
  apply Forall_forall. now apply sorted_last_nat.
Qed.

(** A fraction of at least one is not at most zero (binary64 order). *)
Lemma ge_one_not_le_zero (p : float) :
  PrimFloat.leb 1%float p = true -> PrimFloat.leb p 0%float = false.
Proof.
  rewrite !FloatAxioms.leb_spec.
  change (Prim2SF 1) with (S754_finite false 4503599627370496 (-52)).
  change (Prim2SF 0) with (S754_zero false).
  destruct (Prim2SF p) as [s|s| |s m e]; cbn; try discriminate;
    try reflexivity.
  all: destruct s; cbn; try discriminate; reflexivity.
Qed.

Lemma index_clamped (l : list Duration) (rank : Z) :
  0 < len l ->
  (if rank <=? 0 then index l 0
   else if len l <=? rank then index l (len l - 1)
   else index l rank)
  = index l (Design.clamp_rank (len l) rank).
Proof.
  intros Hn. unfold Design.clamp_rank.
  destruct (Z.leb_spec rank 0); [f_equal; lia|].
  destruct (Z.leb_spec (len l) rank); f_equal; lia.
Qed.

Section AnyPlatform.

Variable indefinite : Z.

(** C4. On a sorted non-empty sequence of N durations, [percentile] returns
    the least element for p <= 0, the greatest for p >= 1, and otherwise the
    element at the rank clamped to [0, N-1], the rank being the float64
    product of N and p, rounded as the multiplication rounds it and
    converted to int by truncation; on 1..5 ms it returns 3 ms at 0.50 and
    5 ms at 0.99. *)
Theorem percentile_nearest_rank (sorted : list Duration) (p : float) :
  StronglySorted Z.le sorted -> sorted <> [] ->
  let n := len sorted in
  let result := percentile indefinite sorted p in
  let rank := int_of_float indefinite (PrimFloat.mul (float_of_int n) p) in
  (PrimFloat.leb p 0%float = true ->
   result = index sorted 0 /\ Forall (fun d => result <= d) sorted) /\
  (PrimFloat.leb 1%float p = true ->
   result = index sorted (n - 1) /\ Forall (fun d => d <= result) sorted) /\
  (PrimFloat.leb p 0%float = false -> PrimFloat.leb 1%float p = false ->
   result = index sorted (Design.clamp_rank n rank)) /\
  percentile indefinite (map (Z.mul Millisecond) [1; 2; 3; 4; 5]) p50
    = 3 * Millisecond /\
  percentile indefinite (map (Z.mul Millisecond) [1; 2; 3; 4; 5]) p99
    = 5 * Millisecond.
Proof.
  intros Hs Hne. cbv zeta.
  assert (Hn : 0 < len sorted).
  { unfold len. destruct sorted; [congruence|cbn [List.length]; lia]. }
  assert (Hz : (len sorted =? 0) = false) by (apply Z.eqb_neq; lia).
  unfold percentile. rewrite Hz.
  split; [|split; [|split; [|split]]].
  - intros ->. split; [reflexivity|]. now apply sorted_first_is_least.
  - intros H1. rewrite (ge_one_not_le_zero _ H1), H1.
    split; [reflexivity|]. now apply sorted_last_is_greatest.
  - intros -> ->. now apply index_clamped.
  - vm_compute. reflexivity.
  - vm_compute. reflexivity.
Qed.

End AnyPlatform.

(** The sorted window of the design document's example, through the theorem:
    rank floor(5 * 0.50) = 2 and rank floor(5 * 0.99) = 4. *)
Lemma percentile_nearest_rank_witness :
  percentile 0 (sort_durations (map (Z.mul Millisecond) [3; 1; 5; 2; 4])) p50
    = index (map (Z.mul Millisecond) [1; 2; 3; 4; 5]) 2 /\
  percentile 0 (sort_durations (map (Z.mul Millisecond) [3; 1; 5; 2; 4])) p99
    = index (map (Z.mul Millisecond) [1; 2; 3; 4; 5]) 4.
Proof.
  pose (w := sort_durations (map (Z.mul Millisecond) [3; 1; 5; 2; 4])).
  assert (Hs : StronglySorted Z.le w) by apply sort_durations_sorted.
  assert (Hne : w <> []) by (vm_compute; discriminate).
  split.
  - exact (proj1 (proj2 (proj2 (percentile_nearest_rank 0 w p50 Hs Hne)))
             eq_refl eq_refl).
  - exact (proj1 (proj2 (proj2 (percentile_nearest_rank 0 w p99 Hs Hne)))
             eq_refl eq_refl).
Defined.

(** C4 as the design document words it fails: the rank is taken from the
    rounded float64 product, not from the floor of N*p. With twenty samples
    and 0.95, whose float64 value lies just below 0.95, the exact product
    lies just below 19 and its floor is 18, while the float64 product is 19:
    [percentile] returns the greatest sample. With a hundred samples and
    0.29, whose float64 value is the nearest one to 29/100, the float64
    product lies just below 29 and [percentile] returns the sample at rank
    28, while floor(100 * 0.29) is 29. *)
Lemma rank_is_not_the_floor :
  let twenty := map (Z.mul Millisecond) (map Z.of_nat (seq 1 20)) in
  let hundred := map (Z.mul Millisecond) (map Z.of_nat (seq 1 100)) in
  (StronglySorted Z.le twenty /\ len twenty = 20 /\
   Design.floor_rank 20 p95 = 18 /\
   index twenty (Design.clamp_rank 20 (Design.floor_rank 20 p95))
   = 19 * Millisecond /\
   percentile 0 twenty p95 = 20 * Millisecond) /\
  (StronglySorted Z.le hundred /\ len hundred = 100 /\
   Prim2SF Design.p29 = S754_finite false 0x128f5c28f5c28f (-54) /\
   Z.abs (100 * 0x128f5c28f5c28f - 29 * 2 ^ 54) <= 50 /\
   Design.floor_rank_of_fraction 100 29 100 = 29 /\
   index hundred (Design.clamp_rank 100
                    (Design.floor_rank_of_fraction 100 29 100))
   = 30 * Millisecond /\
   percentile 0 hundred Design.p29 = 29 * Millisecond).
Proof.
  cbv zeta. split.
  - split; [|vm_compute; repeat split].
    replace (map (Z.mul Millisecond) (map Z.of_nat (seq 1 20)))
      with (sort_durations (map (Z.mul Millisecond) (map Z.of_nat (seq 1 20))))
      by (vm_compute; reflexivity).
    apply sort_durations_sorted.
  - split; [|vm_compute; repeat split; discriminate].
    replace (map (Z.mul Millisecond) (map Z.of_nat (seq 1 100)))
      with (sort_durations (map (Z.mul Millisecond) (map Z.of_nat (seq 1 100))))
      by (vm_compute; reflexivity).
    apply sort_durations_sorted.
Qed.

Section Windows.

Variable indefinite : Z.

Lemma Record_window (l l' : LatencyRecorder) (d : Duration) (now : Z) :
  Record_ l d now = Ok l' -> window l' = window l ++ [d].
Proof.
  unfold Record_, rem, bind.
  repeat match goal with
         | |- context [if ?b then _ else _] => destruct b
         end; intros H; inversion H; reflexivity.
Qed.

Lemma window_read (l : LatencyRecorder) :
  exists st l',
    WindowSnapshotAndReset indefinite l = Ok (st, l') /\
    Count st = len (window l) /\ window l' = [] /\
    WindowSnapshotAndReset indefinite l' = Ok (zero_stats, l').
Proof.
  unfold WindowSnapshotAndReset at 1.
  destruct (Z.eqb_spec (len (window l)) 0) as [E|N].
  - exists zero_stats, l. unfold WindowSnapshotAndReset. rewrite E.
    repeat split. unfold len in E. now destruct (window l).
  - unfold div. destruct (Z.eqb_spec (len (window l)) 0); [contradiction|].
    cbn [bind]. eexists _, _. repeat split.
Qed.

(** C5. A window read never fails; it reports as many samples as the window
    holds and leaves the window empty, so that the next read, with no
    [Record] in between, reports count 0; and over any series of calls the
    samples reported by the window reads plus the samples still in the
    window are exactly the samples recorded: none is reported twice. *)
Theorem window_read_once (calls : list call) (l : LatencyRecorder) :
  (exists st l',
     WindowSnapshotAndReset indefinite l = Ok (st, l') /\
     Count st = len (window l) /\ window l' = [] /\
     exists st', WindowSnapshotAndReset indefinite l' = Ok (st', l') /\
                 Count st' = 0) /\
  (forall reads l',
     serve indefinite calls l = Ok (reads, l') ->
     counted reads + len (window l') = len (window l) + records calls).
Proof.
  split.
  - destruct (window_read l) as (st & l' & H1 & H2 & H3 & H4).
    exists st, l'. repeat split; try assumption.
    exists zero_stats. now split.
  - revert l. induction calls as [|c rest IH]; intros l reads l' H.
    + inversion H; subst. unfold counted, records. cbn. lia.
    + destruct c as [d now| |]; cbn [serve] in H.
      * destruct (Record_ l d now) as [l1|] eqn:R; [|discriminate].
        cbn [bind] in H. apply IH in H. apply Record_window in R.
        rewrite R in H. unfold records, len in *. cbn [filter List.length].
        rewrite length_app in H. cbn [List.length] in H. lia.
      * destruct (TotalSnapshot indefinite l); [|discriminate].
        cbn [bind] in H. apply IH in H. unfold records in *. cbn [filter].
        exact H.
      * destruct (window_read l) as (st & l1 & H1 & H2 & H3 & _).
        rewrite H1 in H. cbn [bind fst snd] in H.
        destruct (serve indefinite rest l1) as [[reads1 l2]|] eqn:S;
          [|discriminate].
        cbn [bind fst snd] in H. inversion H; subst.
        apply IH in S. rewrite H3 in S. unfold counted in *.
        cbn [map fold_right]. unfold records in *. cbn [filter].
        unfold len in S at 2. cbn [List.length] in S. lia.
Qed.

(** C10. [percentile] of an empty sequence is the zero duration whatever
    the fraction, and [TotalSnapshot] of a recorder that has recorded
    nothing returns the all-zero stats, without a division. *)
Theorem empty_statistics (p : float) (l : LatencyRecorder) :
  percentile indefinite [] p = 0 /\
  (totalCount l = 0 -> sample l = [] ->
   TotalSnapshot indefinite l = Ok zero_stats).
Proof.
  split; [reflexivity|].
  intros Hc Hs. unfold TotalSnapshot. rewrite Hc, Hs. reflexivity.
Qed.

End Windows.

(** Three samples, a read, a second read, one more sample. *)
Lemma window_read_once_witness :
  counted [ {| Count := 3; Avg := 2; P50 := 2; P95 := 3; P99 := 3 |};
            zero_stats ] + 1 = 0 + 4.
Proof.
  pose (calls := [CallRecord 1 7; CallRecord 3 8; CallRecord 2 9;
                  CallWindowSnapshotAndReset; CallWindowSnapshotAndReset;
                  CallRecord 5 10]).
  exact (proj2 (window_read_once 0 calls (NewLatencyRecorder 20000))
           _ {| totalCount := 4; totalSum := 11; sample := [1; 3; 2; 5];
                cap := 20000; window := [5] |} eq_refl).
Defined.

(** A recorder fresh from [metrics.New]. *)
Lemma empty_statistics_witness :
  TotalSnapshot 0 (NewLatencyRecorder 20000) = Ok zero_stats.
Proof.
  exact (proj2 (empty_statistics 0 p50 (NewLatencyRecorder 20000))
           eq_refl eq_refl).
Defined.

End LatencyFacts.

(** ** Failure logger *)

Module LoggerFacts.

Import GoInt Fail.

#[local] Arguments persisted : simpl never.

Lemma persisted_app (f g : list line) :
  persisted (f ++ g) = persisted f ++ persisted g.
Proof. unfold persisted. apply flat_map_app. Qed.

Lemma persisted_rows (buf : list Record_) : persisted (map Row buf) = buf.
Proof.
  induction buf as [|r buf IH]; [reflexivity|].
  change (r :: persisted (map Row buf) = r :: buf). now rewrite IH.
Qed.

Lemma flush_keeps (buf : list Record_) (f : list line) :
  persisted (snd (flush buf f)) ++ fst (flush buf f) = persisted f ++ buf.
Proof.
  destruct buf as [|r buf]; [reflexivity|].
  cbn [flush fst snd]. now rewrite persisted_app, persisted_rows, app_nil_r.
Qed.

Lemma flush_empties (buf : list Record_) (f : list line) :
  fst (flush buf f) = [].
Proof. now destruct buf. Qed.

Lemma append_keeps (l : Logger) (buf : list Record_) (r : Record_) :
  persisted (snd (append_and_maybe_flush l buf r))
    ++ fst (append_and_maybe_flush l buf r)
  = persisted (file l) ++ buf ++ [r].
Proof.
  unfold append_and_maybe_flush.
  destruct (batch l <=? len (buf ++ [r])); [apply flush_keeps|reflexivity].
Qed.





Lemma fire_cap (ev : event) (l : Logger) : ch_cap (fire ev l) = ch_cap l.
Proof.
  unfold fire, receive, send_or_drop.
  destruct (panicked l); [reflexivity|].
  destruct ev; repeat
    match goal with
    | |- context [match ?x with _ => _ end] => destruct x
    end; reflexivity.
Qed.



Lemma New_fresh (path : string) (batch : Z) (l : Logger) :
  New path batch = Ok (Some l) ->
  ch l = [] /\ file l = [] /\ run l = Opening /\ 0 <= ch_cap l /\
  ch_cap l = mul (effective_batch batch) 4.
Proof.
  unfold New, effective_batch. destruct (String.eqb path ""); [discriminate|].
  destruct (Z.ltb_spec (mul (if batch <=? 0 then 256 else batch) 4) 0)
    as [|Hpos]; [discriminate|].
  intros HN. inversion HN; subst. cbn. repeat split. exact Hpos.
Qed.




(** C9. [New] with an empty path returns nil, and on a nil logger [Log] and
    [Close] return at once, without a panic and with nothing changed. *)
Theorem nil_logger_is_inert (batch : Z) (rec : Record_) (sched : list event) :
  New "" batch = Ok None /\
  Log None rec = None /\
  Close None sched = CloseReturned None.
Proof. repeat split. Qed.

(** *** Shutdown *)

Lemma fire_discarding (ev : event) (l : Logger) :
  run l = Discarding -> run (fire ev l) = Discarding.
Proof.
  intros R. unfold fire, receive, send_or_drop.
  destruct (panicked l); [exact R|].
  destruct ev; rewrite ?R;
    repeat match goal with
           | |- context [match ?x with _ => _ end] => destruct x
           end; cbn; first [exact R | reflexivity].
Qed.

Lemma wait_discarding (sched : list event) (l : Logger) :
  run l = Discarding ->
  exists l', Wait l sched = CloseBlocked l' /\ run l' = Discarding.
Proof.
  revert l. induction sched as [|ev sched IH]; intros l R;
    cbn [Wait]; unfold wg_done; rewrite R.
  - now exists l.
  - apply IH. now apply fire_discarding.
Qed.

(** C3, where the code departs from it. Once [os.OpenFile] has failed, [run]
    sits in [for range l.ch], which only ends when [l.ch] is closed, and
    nothing closes it: whatever the other goroutines do after the shutdown
    signal, [run] has not returned and [Close] is still waiting. *)
Theorem close_waits_forever_after_failed_open (l : Logger)
  (sched : list event) :
  run l = Discarding -> stop_closed l = false ->
  exists l', Close (Some l) sched = CloseBlocked l' /\
             run l' = Discarding /\ wg_done l' = false.
Proof.
  intros R S. cbn [Close]. cbn [close_stopCh panicked]. rewrite S.
  destruct (wait_discarding sched (close_stopCh l) R) as (l' & W & R').
  exists l'. repeat split; try assumption. unfold wg_done. now rewrite R'.
Qed.

(** The log file sits in a directory that does not exist. *)
Lemma close_waits_forever_after_failed_open_witness :
  exists l0 l',
    New "/nonexistent/fail.csv" 2 = Ok (Some l0) /\
    Close (Some (fire (EvOpen false) l0))
      [EvRecv; EvTick; EvStop; EvEmpty; EvRecv; EvEmpty]
    = CloseBlocked l'.
Proof.
  destruct (New "/nonexistent/fail.csv" 2) as [[l0|]|] eqn:E;
    try discriminate.
  assert (R : run (fire (EvOpen false) l0) = Discarding)
    by (inversion E; reflexivity).
  assert (S : stop_closed (fire (EvOpen false) l0) = false)
    by (inversion E; reflexivity).
  destruct (close_waits_forever_after_failed_open
              (fire (EvOpen false) l0)
              [EvRecv; EvTick; EvStop; EvEmpty; EvRecv; EvEmpty] R S)
    as (l' & W & _).
  exists l0, l'. split; [reflexivity|exact W].
Defined.

Lemma wait_drains (q : list Record_) :
  forall (l : Logger) (buf : list Record_),
    run l = Draining buf -> ch l = q -> panicked l = false ->
    exists l',
      Wait l (repeat EvRecv (List.length q) ++ [EvEmpty])
        = CloseReturned (Some l') /\
      persisted (file l') = persisted (file l) ++ buf ++ q /\ ch l' = [].
Proof.
  induction q as [|r q IH]; intros l buf R Q P.
  - cbn [repeat List.length app Wait]. unfold wg_done at 1. rewrite R.
    unfold fire. rewrite P, R, Q.
    pose proof (flush_keeps buf (file l)) as K.
    pose proof (flush_empties buf (file l)) as E.
    destruct (flush buf (file l)) as [buf' f]. cbn [fst snd] in K, E.
    subst buf'. rewrite app_nil_r in *. cbn [Wait wg_done with_run run].
    eexists. split; [reflexivity|]. cbn. split; [exact K|exact Q].
  - cbn [repeat List.length app Wait]. unfold wg_done at 1. rewrite R.
    unfold fire at 1. rewrite P, Q. unfold receive. rewrite R.
    pose proof (append_keeps l buf r) as K.
    destruct (append_and_maybe_flush l buf r) as [buf' f].
    cbn [fst snd] in K.
    destruct (IH (with_run (with_ch l q) (Draining buf') f) buf'
                eq_refl eq_refl P) as (l' & W & F & C).
    exists l'. split; [exact W|]. split; [|exact C].
    rewrite F. cbn [file with_run]. rewrite app_assoc, K.
    now rewrite <- !app_assoc.
Qed.

(** C3, where the code agrees with it. When the file could be opened, a
    [Close] returns as soon as [run] has taken the stop case, received what
    was queued and found the queue empty; by then every record that was in
    [buf] or queued is on file. *)
Lemma close_returns_after_drain (l : Logger) (buf : list Record_) :
  run l = Serving buf -> stop_closed l = false -> panicked l = false ->
  exists l',
    Close (Some l) (EvStop :: repeat EvRecv (List.length (ch l)) ++ [EvEmpty])
      = CloseReturned (Some l') /\
    persisted (file l') = persisted (file l) ++ buf ++ ch l /\ ch l' = [].
Proof.
  intros R S P. cbn [Close]. cbn [close_stopCh panicked]. rewrite S.
  cbn [Wait]. unfold wg_done at 1. cbn [close_stopCh run]. rewrite R.
  unfold fire at 1. cbn [close_stopCh panicked run stop_closed]. rewrite S, R.
  destruct (wait_drains (ch l)
              (with_run (close_stopCh l) (Draining buf)
                 (file (close_stopCh l))) buf eq_refl eq_refl S)
    as (l' & W & F & C).
  exists l'. repeat split; assumption.
Qed.

End LoggerFacts.

(** ** Connection pool *)

Module PoolFacts.

Import GoInt LdapClient.

Lemma held_dec (l : Conn) (hs : list Conn) :
  existsb (Nat.eqb l) hs = true <-> In l hs.
Proof.
  rewrite existsb_exists. split.
  - intros (x & Hx & E). apply Nat.eqb_eq in E. now subst.
  - intros H. exists l. split; [exact H|apply Nat.eqb_refl].
Qed.

Lemma start_consistent (c : client) :
  pool c = [] -> closed c = [] -> consistent (start c).
Proof.
  intros Hp Hc. constructor; cbn; rewrite ?Hp, ?Hc.
  - constructor.
  - intros h [].
  - intros h [].
  - intros h [[]|[[]|[]]].
Qed.

Lemma fire_consistent (ev : event) (s : shared) :
  consistent s -> consistent (snd (fire ev s)).
Proof.
  intros [ND PH CG AD]. destruct ev as [dial_ok|l err]; cbn [fire].
  - unfold getConn. destruct (pool (cl s)) as [|h rest] eqn:P.
    + destruct dial_ok; cbn; [|constructor; cbn; rewrite ?P; assumption].
      constructor; cbn; rewrite ?P.
      * constructor.
      * intros h [].
      * intros h Hc. split; [intros []|]. intros [<-|Hh].
        -- pose proof (AD _ (or_intror (or_intror Hc))). lia.
        -- now apply (CG h).
      * intros h [[]|[[<-|Hh]|Hc]]; [lia| |].
        -- pose proof (AD h (or_intror (or_introl Hh))). lia.
        -- pose proof (AD h (or_intror (or_intror Hc))). lia.
    + constructor; cbn.
      * now inversion ND.
      * intros x Hx [<-|Hh]; [now inversion ND|].
        apply (PH x); [now right|exact Hh].
      * intros x Hc. destruct (CG x Hc) as [C1 C2]. split.
        -- intros Hx. apply C1. now right.
        -- intros [<-|Hh]; [apply C1; now left|now apply C2].
      * intros x [Hx|[[<-|Hh]|Hc]]; apply AD; auto.
        -- left. now right.
        -- left. now left.
  - destruct (existsb (Nat.eqb l) (held s)) eqn:E;
      [|constructor; assumption].
    apply held_dec in E.
    assert (Hlp : ~ In l (pool (cl s))) by (intros H; now apply (PH l)).
    assert (Hrm : forall x, In x (List.remove Nat.eq_dec l (held s)) ->
                            In x (held s) /\ x <> l)
      by (intros x; apply in_remove).
    unfold putConn.
    destruct err as [e|];
      [|destruct (len (pool (cl s)) <? pool_cap (cl s))];
      constructor; cbn.
    + exact ND.
    + intros h Hh Hr. apply Hrm in Hr. now apply (PH h).
    + intros h [<-|Hc]; split; try assumption.
      * apply remove_In.
      * now apply (CG h).
      * intros Hr. apply Hrm in Hr. now apply (CG h Hc).
    + intros h [Hh|[Hr|[<-|Hc]]]; apply AD; auto.
      right. left. now apply Hrm.
    + apply NoDup_app; [exact ND|repeat constructor; intros []|].
      intros x Hx [<-|[]]. contradiction.
    + intros h Hh Hr. apply Hrm in Hr. destruct Hr as [Hr Hne].
      apply in_app_or in Hh. destruct Hh as [Hh|[<-|[]]];
        [now apply (PH h)|congruence].
    + intros h Hc. destruct (CG h Hc) as [C1 C2]. split.
      * intros Hh. apply in_app_or in Hh. destruct Hh as [Hh|[<-|[]]];
          [contradiction|contradiction].
      * intros Hr. apply Hrm in Hr. now apply C2.
    + intros h [Hh|[Hr|Hc]]; apply AD; auto.
      * apply in_app_or in Hh. destruct Hh as [Hh|[<-|[]]]; auto.
      * right. left. now apply Hrm.
    + exact ND.
    + intros h Hh Hr. apply Hrm in Hr. now apply (PH h).
    + intros h [<-|Hc]; split; try assumption.
      * apply remove_In.
      * now apply (CG h).
      * intros Hr. apply Hrm in Hr. now apply (CG h Hc).
    + intros h [Hh|[Hr|[<-|Hc]]]; apply AD; auto.
      right. left. now apply Hrm.
Qed.

Lemma exec_consistent (evs : list event) (s : shared) :
  consistent s -> consistent (exec evs s).
Proof.
  revert s. induction evs as [|ev evs IH]; intros s H; [exact H|].
  cbn [exec]. apply IH. now apply fire_consistent.
Qed.

(** [UserBind] is a [Borrow] followed, when a connection was obtained, by
    the [GiveBack] of that connection with the bind's result. *)
Lemma UserBind_as_events (s : shared) (dial_ok : bool) (bind : Conn -> error) :
  let '(got, s1) := fire (Borrow dial_ok) s in
  snd (UserBind (cl s) dial_ok bind)
  = match got with
    | Some l => cl (snd (fire (GiveBack l (bind l)) s1))
    | None => cl s1
    end.
Proof.
  cbn [fire]. unfold UserBind.
  destruct (getConn (cl s) dial_ok) as [[l|] c]; [|reflexivity].
  cbn [fire held cl existsb]. rewrite Nat.eqb_refl. reflexivity.
Qed.

(** [UserSearch] likewise: it gives the connection back once, with the
    error of the bind if that failed and with the result of the search
    otherwise. *)
Lemma UserSearch_as_events (s : shared) (dial_ok : bool)
  (bind : Conn -> error) (search : Conn -> Z * error) :
  let '(got, s1) := fire (Borrow dial_ok) s in
  snd (UserSearch (cl s) dial_ok bind search)
  = match got with
    | Some l =>
        let err := match bind l with
                   | Some e => Some e
                   | None => snd (search l)
                   end in
        cl (snd (fire (GiveBack l err) s1))
    | None => cl s1
    end.
Proof.
  cbn [fire]. unfold UserSearch.
  destruct (getConn (cl s) dial_ok) as [[l|] c]; [|reflexivity].
  cbn [fire held cl existsb]. rewrite Nat.eqb_refl. cbn [orb].
  destruct (bind l) as [e|]; [reflexivity|].
  destruct (search l) as [n [e|]]; reflexivity.
Qed.

Lemma fire_keeps_closed (ev : event) (s : shared) (h : Conn) :
  In h (closed (cl s)) -> In h (closed (cl (snd (fire ev s)))).
Proof.
  intros H. destruct ev as [dial_ok|l err]; cbn [fire].
  - unfold getConn. destruct (pool (cl s)); [destruct dial_ok|]; exact H.
  - destruct (existsb (Nat.eqb l) (held s)); [|exact H].
    unfold putConn. destruct err;
      [|destruct (len (pool (cl s)) <? pool_cap (cl s))];
      cbn; auto.
Qed.

Lemma getConn_source (c : client) (dial_ok : bool) (l : Conn) :
  fst (getConn c dial_ok) = Some l -> In l (pool c) \/ l = dialed c.
Proof.
  unfold getConn. destruct (pool c) as [|h rest].
  - destruct dial_ok; cbn; [|discriminate]. intros [= <-]. now right.
  - cbn. intros [= <-]. left. now left.
Qed.

(** A closed connection is never handed out again. *)
Lemma closed_never_acquired (evs : list event) :
  forall (s : shared) (h : Conn),
    consistent s -> In h (closed (cl s)) -> ~ In h (acquired evs s).
Proof.
  induction evs as [|ev evs IH]; intros s h Hs Hc; [intros []|].
  cbn [acquired].
  pose proof (fire_consistent ev s Hs) as Hs'.
  pose proof (fire_keeps_closed ev s h Hc) as Hc'.
  destruct (fire ev s) as [r s'] eqn:F. cbn [snd] in Hs', Hc'.
  destruct ev as [dial_ok|l err]; [|now apply IH].
  destruct r as [l|]; [|now apply IH].
  intros [<-|Hin]; [|now apply (IH s' h)].
  cbn [fire] in F. destruct (getConn (cl s) dial_ok) as [r c] eqn:G.
  inversion F; subst r. clear F.
  assert (Hsrc : fst (getConn (cl s) dial_ok) = Some l) by now rewrite G.
  apply getConn_source in Hsrc. destruct Hs as [_ _ CG AD].
  destruct Hsrc as [Hp| ->].
  - destruct (CG l Hc) as [C1 _]. now apply C1.
  - pose proof (AD _ (or_intror (or_intror Hc))). lia.
Qed.

Lemma New_empty (cfg : Config.Config) (c : client) :
  New cfg true = Some c ->
  pool c = [] /\ closed c = [] /\ 1 <= pool_cap c /\
  pool_cap c =
    let size := mul (Config.Concurrency cfg) (Config.Connections cfg) in
    if size <? 1 then 1 else size.
Proof.
  unfold New. intros [= <-]. cbn. repeat split.
  destruct (Z.ltb_spec (mul (Config.Concurrency cfg) (Config.Connections cfg)) 1);
    lia.
Qed.

(** C6. A connection given back with an error is closed on the spot; it is
    neither in the idle buffer nor on loan afterwards, and no later
    [getConn], whatever the workers do, returns it: [getConn] hands out
    idle connections and fresh dials only. *)
Theorem tainted_connection_never_reused (cfg : Config.Config) (c0 : client)
  (before after : list event) (h : Conn) (e : string) :
  New cfg true = Some c0 ->
  let s := exec before (start c0) in
  In h (held s) ->
  let s' := snd (fire (GiveBack h (Some e)) s) in
  In h (closed (cl s')) /\ ~ In h (pool (cl s')) /\ ~ In h (held s') /\
  ~ In h (acquired after s') /\
  (forall dial_ok l, fst (getConn (cl s') dial_ok) = Some l ->
                     In l (pool (cl s')) \/ l = dialed (cl s')).
Proof.
  intros HN s Hh s'.
  destruct (New_empty cfg c0 HN) as (Hp & Hc & _).
  assert (Hs : consistent s)
    by (apply exec_consistent, start_consistent; assumption).
  assert (Hs' : consistent s') by now apply fire_consistent.
  assert (Hcl : In h (closed (cl s'))).
  { subst s'. cbn [fire]. apply held_dec in Hh. rewrite Hh. cbn. now left. }
  destruct Hs' as [ND' PH' CG' AD'].
  destruct (CG' h Hcl) as [C1 C2].
  repeat split; try assumption.
  - apply closed_never_acquired; [constructor; assumption|exact Hcl].
  - intros dial_ok l. apply getConn_source.
Qed.

(** One worker binds, the server rejects the bind, and the workers go on. *)
Lemma tainted_connection_never_reused_witness :
  let cfg := {| Config.Mode_ := Config.ModeAuth; Config.Filter := "";
                Config.Concurrency := 2; Config.Connections := 1;
                Config.FailLogPath := ""; Config.FailLogBatch := 256 |} in
  exists c0, New cfg true = Some c0 /\
    let s' := snd (fire (GiveBack 1%nat (Some "invalid credentials"%string))
                     (exec [Borrow true] (start c0))) in
    ~ In 1%nat (acquired [Borrow true; Borrow true; GiveBack 2%nat None;
                          Borrow false] s').
Proof.
  cbv zeta. eexists. split; [reflexivity|].
  refine (proj1 (proj2 (proj2 (proj2
           (tainted_connection_never_reused _ _ [Borrow true] _ 1%nat
              "invalid credentials" eq_refl _))))).
  cbn. now left.
Defined.

Lemma fire_pool_bounded (ev : event) (s : shared) :
  len (pool (cl s)) <= pool_cap (cl s) ->
  len (pool (cl (snd (fire ev s)))) <= pool_cap (cl (snd (fire ev s))) /\
  pool_cap (cl (snd (fire ev s))) = pool_cap (cl s).
Proof.
  intros H. destruct ev as [dial_ok|l err]; cbn [fire].
  - unfold getConn. destruct (pool (cl s)) as [|h rest] eqn:P.
    + destruct dial_ok; cbn; rewrite ?P; now split.
    + cbn. split; [|reflexivity]. unfold len in *. cbn [List.length] in H. lia.
  - destruct (existsb (Nat.eqb l) (held s)); [|now split].
    unfold putConn. destruct err; [now split|].
    destruct (Z.ltb_spec (len (pool (cl s))) (pool_cap (cl s))); cbn;
      [|now split].
    split; [|reflexivity]. unfold len in *. rewrite length_app. cbn. lia.
Qed.

Lemma exec_pool_bounded (evs : list event) (s : shared) :
  len (pool (cl s)) <= pool_cap (cl s) ->
  len (pool (cl (exec evs s))) <= pool_cap (cl (exec evs s)) /\
  pool_cap (cl (exec evs s)) = pool_cap (cl s).
Proof.
  revert s. induction evs as [|ev evs IH]; intros s H; [now split|].
  cbn [exec]. destruct (fire_pool_bounded ev s H) as [B C].
  destruct (IH _ B) as [B' C']. split; [exact B'|]. now rewrite C'.
Qed.

(** C7. The idle buffer is created with the capacity [New] computes: the
    product of concurrency and connections-per-worker in int arithmetic,
    raised to 1 when below, hence concurrency x connections-per-worker, at
    least 1, whenever that product is representable as an int. Whatever the
    workers do, the buffer never holds more connections than the capacity it
    was created with, and a connection given back without error while it is
    full is closed, the buffer staying as it is. *)
Theorem pool_never_exceeds_capacity (cfg : Config.Config) (c0 : client)
  (evs : list event) (h : Conn) :
  New cfg true = Some c0 ->
  (min_int <= Config.Concurrency cfg * Config.Connections cfg <= max_int ->
   pool_cap c0
   = Design.pool_capacity (Config.Concurrency cfg) (Config.Connections cfg)) /\
  1 <= pool_cap c0 /\
  let c := cl (exec evs (start c0)) in
  pool_cap c = pool_cap c0 /\
  len (pool c) <= pool_cap c0 /\
  (len (pool c) = pool_cap c0 ->
   putConn c (Some h) None = close_conn c h /\
   pool (putConn c (Some h) None) = pool c /\
   In h (closed (putConn c (Some h) None))).
Proof.
  intros HN. destruct (New_empty cfg c0 HN) as (Hp & Hc & H1 & Hcap).
  split; [|split; [exact H1|]].
  - intros Hfit. rewrite Hcap. unfold mul, Design.pool_capacity.
    rewrite GoIntFacts.wrap64_small by exact Hfit. cbv zeta.
    destruct (Z.ltb_spec (Config.Concurrency cfg * Config.Connections cfg) 1);
      lia.
  - cbv zeta.
    assert (H0 : len (pool (cl (start c0))) <= pool_cap (cl (start c0)))
      by (cbn; rewrite Hp; cbn; lia).
    destruct (exec_pool_bounded evs (start c0) H0) as [B C].
    cbn [start cl] in C. rewrite C in B.
    split; [exact C|]. split; [exact B|].
    intros Hfull. unfold putConn. rewrite C, Hfull, Z.ltb_irrefl.
    repeat split. cbn. now left.
Qed.

(** Two workers, one connection each: three connections come back without
    error, the third one finds the buffer full. *)
Lemma pool_never_exceeds_capacity_witness :
  let cfg := {| Config.Mode_ := Config.ModeAuth; Config.Filter := "";
                Config.Concurrency := 2; Config.Connections := 1;
                Config.FailLogPath := ""; Config.FailLogBatch := 256 |} in
  exists c0, New cfg true = Some c0 /\ pool_cap c0 = 2 /\
    let c := cl (exec [Borrow true; Borrow true; Borrow true;
                       GiveBack 1%nat None; GiveBack 2%nat None;
                       GiveBack 3%nat None] (start c0)) in
    len (pool c) <= 2 /\ closed c = [3%nat].
Proof.
  intros cfg. eexists. split; [reflexivity|].
  assert (Hfit : min_int <= Config.Concurrency cfg * Config.Connections cfg
                 <= max_int) by (vm_compute; split; discriminate).
  pose proof (pool_never_exceeds_capacity cfg _
                [Borrow true; Borrow true; Borrow true;
                 GiveBack 1%nat None; GiveBack 2%nat None;
                 GiveBack 3%nat None] 4%nat eq_refl)
    as (H1 & _ & _ & H2 & _).
  split; [exact (H1 Hfit)|]. split; [exact H2|reflexivity].
Defined.

(** C7 as the design document words it fails when the product does not fit
    an int: 2^32 workers with 2^32 connections each are accepted, the
    product wraps around to 0 and the buffer gets capacity 1. *)
Lemma pool_capacity_of_wrapped_product :
  let cfg := {| Config.Mode_ := Config.ModeAuth; Config.Filter := "";
                Config.Concurrency := 2 ^ 32; Config.Connections := 2 ^ 32;
                Config.FailLogPath := ""; Config.FailLogBatch := 256 |} in
  ConfigParse.Parse
    {| ConfigParse.mode := "auth"; ConfigParse.filter := "";
       ConfigParse.BaseDN := "dc=example,dc=org";
       ConfigParse.LookupBindDN := "cn=lookup"; ConfigParse.LookupBindPass := "x";
       ConfigParse.SaslExternal := false;
       ConfigParse.concurrency := 2 ^ 32; ConfigParse.connections := 2 ^ 32;
       ConfigParse.fail_log := ""; ConfigParse.fail_batch := 256 |}
  = Good cfg /\
  exists c0, New cfg true = Some c0 /\ pool_cap c0 = 1 /\
    Design.pool_capacity (Config.Concurrency cfg) (Config.Connections cfg)
    = 2 ^ 64 /\
    pool_cap c0
    <> Design.pool_capacity (Config.Concurrency cfg) (Config.Connections cfg).
Proof.
  intros cfg. split; [reflexivity|]. eexists. split; [reflexivity|].
  split; [reflexivity|]. split; [reflexivity|]. discriminate.
Qed.

End PoolFacts.

(** ** Counters of the workload runner *)

Module RunnerFacts.

Import GoInt Metrics Runner.

Lemma existsb_filter {A} (f : A -> bool) (l : list A) :
  existsb f l = negb (Nat.eqb (List.length (filter f l)) 0).
Proof.
  induction l as [|a l IH]; [reflexivity|].
  cbn [existsb filter]. destruct (f a); [reflexivity|exact IH].
Qed.

(** Every call of [runOnce] counts the attempt first and then exactly one
    outcome, whatever the mode and whatever the client answers. *)
Lemma runOnce_counts_once (fmt_other : string -> list string -> string)
  (r : Runner) (user : User) (now : Z) :
  exists rest, runOnce fmt_other r user now = ActAttempts :: rest /\
               attempts rest = O /\ outcomes rest = 1%nat.
Proof.
  unfold runOnce. eexists. split; [reflexivity|].
  unfold bind_phase, search_phase, failed, attempts, outcomes.
  repeat match goal with
         | |- context [match ?x with _ => _ end] => destruct x
         end; split; reflexivity.
Qed.

(** Run to its end with nothing else running, a stretch moves the counters
    by what it counts. *)
Lemma perform_all_counts (todo : list action) (w : world) :
  let w' := fold_left (fun w a => perform a w) todo w in
  wrap64 (Attempts (m w'))
  = wrap64 (Attempts (m w) + Z.of_nat (attempts todo)) /\
  wrap64 (Success (m w') + Fail (m w'))
  = wrap64 (Success (m w) + Fail (m w) + Z.of_nat (outcomes todo)).
Proof.
  cbv zeta. revert w. induction todo as [|a todo IH]; intros w.
  - unfold attempts, outcomes. cbn. now rewrite !Z.add_0_r.
  - cbn [fold_left]. destruct (IH (perform a w)) as [IA IO].
    rewrite IA, IO. unfold attempts, outcomes. cbn [filter].
    destruct a; cbn [perform m is_attempt is_outcome AttemptsAdd1 SuccessAdd1
                       FailAdd1 Attempts Success Fail List.length];
      unfold add; split; rewrite ?GoIntFacts.wrap64_add_l;
      try reflexivity; try (f_equal; lia).
    + replace (wrap64 (Success (m w) + 1) + Fail (m w)
               + Z.of_nat (List.length (filter is_outcome todo)))
        with (wrap64 (Success (m w) + 1)
              + (Fail (m w) + Z.of_nat (List.length (filter is_outcome todo))))
        by lia.
      rewrite GoIntFacts.wrap64_add_l. f_equal. lia.
    + replace (Success (m w) + wrap64 (Fail (m w) + 1)
               + Z.of_nat (List.length (filter is_outcome todo)))
        with (wrap64 (Fail (m w) + 1)
              + (Success (m w) + Z.of_nat (List.length (filter is_outcome todo))))
        by lia.
      rewrite GoIntFacts.wrap64_add_l. f_equal. lia.
Qed.

(** A whole call of [runOnce], alone, adds one to the attempts and one to
    the successes and failures taken together. *)
Lemma runOnce_alone_counts (fmt_other : string -> list string -> string)
  (r : Runner) (user : User) (now : Z) (w : world) :
  let w' := runOnce_alone fmt_other r user now w in
  wrap64 (Attempts (m w')) = wrap64 (Attempts (m w) + 1) /\
  wrap64 (Success (m w') + Fail (m w'))
  = wrap64 (Success (m w) + Fail (m w) + 1).
Proof.
  cbv zeta. unfold runOnce_alone.
  destruct (runOnce_counts_once fmt_other r user now) as (rest & E & Ha & Ho).
  destruct (perform_all_counts (runOnce fmt_other r user now) w) as [PA PO].
  rewrite PA, PO, E. unfold attempts, outcomes in *.
  cbn [filter is_attempt is_outcome List.length]. rewrite Ha, Ho.
  split; reflexivity.
Qed.

(** What running the first statement of a stretch does to it. *)
Lemma stretch_step (a : action) (todo : list action) :
  stretch (a :: todo) ->
  stretch todo /\
  in_flight (InRunOnce todo)
  = in_flight (InRunOnce (a :: todo))
    + (if is_attempt a then 1 else if is_outcome a then -1 else 0).
Proof.
  unfold stretch, in_flight. rewrite !existsb_filter.
  fold (attempts todo) (outcomes todo) (attempts (a :: todo))
    (outcomes (a :: todo)).
  intros [(rest & E & Ha & Ho)|[Ha Ho]].
  - inversion E; subst. split; [right; lia|].
    unfold attempts, outcomes in *. cbn [filter is_attempt is_outcome].
    cbn [List.length]. rewrite Ha, Ho. reflexivity.
  - unfold attempts, outcomes in *. cbn [filter] in Ha, Ho |- *.
    destruct a; cbn [is_attempt is_outcome List.length] in *;
      try discriminate;
      (split; [right; lia|]);
      destruct (List.length (filter is_attempt todo)) as [|k];
      destruct (List.length (filter is_outcome todo)) as [|[|k']];
      try discriminate; try lia; reflexivity.
Qed.

Lemma flights_set (ws : list worker) (i : nat) (old new : worker) :
  nth_error ws i = Some old ->
  flights (set_worker ws i new) = flights ws - in_flight old + in_flight new.
Proof.
  revert i. induction ws as [|w ws IH]; intros [|i] H; try discriminate.
  - inversion H; subst. unfold flights. cbn. lia.
  - cbn [nth_error] in H. cbn [set_worker]. unfold flights in *.
    cbn [map fold_right]. rewrite (IH i H). lia.
Qed.

Lemma sound_set (ws : list worker) (i : nat) (new : worker) :
  Forall sound_worker ws -> sound_worker new ->
  Forall sound_worker (set_worker ws i new).
Proof.
  intros H Hn. revert i. induction H as [|w ws Hw Hws IH]; intros [|i];
    cbn [set_worker]; constructor; auto.
Qed.

Lemma sound_nth (ws : list worker) (i : nat) (wk : worker) :
  Forall sound_worker ws -> nth_error ws i = Some wk -> sound_worker wk.
Proof.
  intros H E. rewrite Forall_forall in H. apply H.
  eapply nth_error_In; eassumption.
Qed.

Section Schedules.

Variable fmt_other : string -> list string -> string.
Variable r : Runner.

Lemma fire_balanced (ev : event) (s : system) :
  balanced s -> balanced (fire fmt_other r ev s).
Proof.
  intros [Hw Hc]. unfold fire.
  destruct ev as [i answers pick now|i|i|i].
  - destruct (nth_error (workers s) i) as [[| |]|] eqn:E;
      try (split; assumption).
    destruct (nth_error (users r) pick) as [user|]; [|split; assumption].
    match goal with
    | |- context [runOnce fmt_other ?r' user now] =>
        destruct (runOnce_counts_once fmt_other r' user now)
          as (rest & Er & Ha & Ho)
    end.
    split; cbn [workers shared].
    + apply sound_set; [exact Hw|]. cbn. left. rewrite Er. now exists rest.
    + rewrite (flights_set _ _ _ _ E). rewrite Hc. f_equal.
      unfold in_flight. rewrite Er.
      cbn [existsb is_attempt negb andb orb]. lia.
  - destruct (nth_error (workers s) i) as [[|[|a todo]|]|] eqn:E;
      try (split; assumption).
    pose proof (sound_nth _ _ _ Hw E) as Hs. cbn in Hs.
    destruct (stretch_step a todo Hs) as [Hs' Hf].
    split; cbn [workers shared].
    + apply sound_set; assumption.
    + rewrite (flights_set _ _ _ _ E), Hf.
      destruct a; cbn [perform m is_attempt is_outcome AttemptsAdd1
                         SuccessAdd1 FailAdd1 Attempts Success Fail];
        unfold add; rewrite ?Hc.
      * rewrite GoIntFacts.wrap64_add_l. f_equal. lia.
      * replace (wrap64 (Success (m (shared s)) + 1) + Fail (m (shared s))
                 + (flights (workers s) - in_flight (InRunOnce (ActSuccess :: todo))
                    + (in_flight (InRunOnce (ActSuccess :: todo)) + -1)))
          with (wrap64 (Success (m (shared s)) + 1)
                + (Fail (m (shared s)) + flights (workers s) - 1)) by lia.
        rewrite GoIntFacts.wrap64_add_l. f_equal. lia.
      * replace (Success (m (shared s)) + wrap64 (Fail (m (shared s)) + 1)
                 + (flights (workers s) - in_flight (InRunOnce (ActFail :: todo))
                    + (in_flight (InRunOnce (ActFail :: todo)) + -1)))
          with (wrap64 (Fail (m (shared s)) + 1)
                + (Success (m (shared s)) + flights (workers s) - 1)) by lia.
        rewrite GoIntFacts.wrap64_add_l. f_equal. lia.
      * f_equal. lia.
      * f_equal. lia.
  - destruct (nth_error (workers s) i) as [[|[|a todo]|]|] eqn:E;
      try (split; assumption).
    split; cbn [workers shared].
    + apply sound_set; [exact Hw|exact I].
    + rewrite (flights_set _ _ _ _ E). rewrite Hc. f_equal. cbn. lia.
  - destruct (nth_error (workers s) i) as [[| |]|] eqn:E;
      try (split; assumption).
    split; cbn [workers shared].
    + apply sound_set; [exact Hw|exact I].
    + rewrite (flights_set _ _ _ _ E). rewrite Hc. f_equal. cbn. lia.
Qed.

Lemma exec_balanced (evs : list event) (s : system) :
  balanced s -> balanced (exec fmt_other r evs s).
Proof.
  revert s. induction evs as [|ev evs IH]; intros s H; [exact H|].
  cbn [exec fold_left]. apply IH. now apply fire_balanced.
Qed.

End Schedules.

Lemma flights_range (ws : list worker) : 0 <= flights ws <= len ws.
Proof.
  unfold flights, len. induction ws as [|w ws IH]; [cbn; lia|].
  cbn [map fold_right List.length].
  assert (0 <= in_flight w <= 1).
  { destruct w as [|todo|]; cbn; try lia.
    destruct (negb (existsb is_attempt todo) && existsb is_outcome todo); lia. }
  lia.
Qed.

Lemma all_exited (ws : list worker) (i : nat) (wk : worker) :
  forallb (fun wk => match wk with Exited => true | _ => false end) ws = true ->
  nth_error ws i = Some wk -> wk = Exited.
Proof.
  intros H E. rewrite forallb_forall in H.
  specialize (H wk (nth_error_In _ _ E)). now destruct wk.
Qed.

Lemma all_exited_flights (ws : list worker) :
  forallb (fun wk => match wk with Exited => true | _ => false end) ws = true ->
  flights ws = 0.
Proof.
  unfold flights. induction ws as [|w ws IH]; [reflexivity|].
  cbn [forallb map fold_right]. intros H. apply andb_prop in H.
  destruct H as [Hw H]. rewrite (IH H). now destruct w.
Qed.

Section Completion.

Variable fmt_other : string -> list string -> string.
Variable r : Runner.

(** Once every worker has returned, nothing changes any more. *)
Lemma fire_after_completion (ev : event) (s : system) :
  run_complete s = true -> fire fmt_other r ev s = s.
Proof.
  unfold run_complete. intros H. unfold fire.
  destruct ev as [i answers pick now|i|i|i];
    destruct (nth_error (workers s) i) as [wk|] eqn:E; try reflexivity;
    rewrite (all_exited _ _ _ H E); reflexivity.
Qed.

Lemma exec_after_completion (evs : list event) (s : system) :
  run_complete s = true -> exec fmt_other r evs s = s.
Proof.
  intros H. induction evs as [|ev evs IH]; [reflexivity|].
  cbn [exec fold_left]. rewrite fire_after_completion by exact H. exact IH.
Qed.

Lemma start_balanced (now : Z) (l : option Fail.Logger) :
  balanced (start r (fresh_world now l)).
Proof.
  split; cbn [start workers shared fresh_world m].
  - apply Forall_forall. intros wk H. apply repeat_spec in H. now subst.
  - replace (flights (repeat LoopTop (Z.to_nat (Config.Concurrency (cfg r)))))
      with 0; [reflexivity|].
    symmetry. unfold flights.
    induction (Z.to_nat (Config.Concurrency (cfg r))) as [|n IH];
      [reflexivity|exact IH].
Qed.

(** C1 (as amended). At every instant of every run the attempts counted are
    the successes plus the failures plus the iterations in flight (those
    that have counted their attempt and not yet their outcome), in int64
    arithmetic; so the equality attempts == successes + failures holds
    whenever no iteration is in flight, and in particular at every snapshot
    taken once the run has completed, after which the counters no longer
    move. Every iteration counts its attempt once, first, and one outcome,
    under every mode, the unknown one included. *)
Theorem attempts_cover_outcomes (now : Z) (l : option Fail.Logger)
  (evs later : list event) (user : User) (t : Z) :
  let s := exec fmt_other r evs (start r (fresh_world now l)) in
  let mm := m (shared s) in
  Attempts mm = wrap64 (Success mm + Fail mm + iterations_in_flight s) /\
  0 <= iterations_in_flight s <= len (workers s) /\
  (iterations_in_flight s = 0 ->
   Attempts mm = wrap64 (Success mm + Fail mm)) /\
  (run_complete s = true ->
   let '(att, suc, fal, _) :=
     Snapshot (m (shared (exec fmt_other r later s))) t in
   att = wrap64 (suc + fal)) /\
  (exists rest, runOnce fmt_other r user t = ActAttempts :: rest /\
                attempts rest = O /\ outcomes rest = 1%nat).
Proof.
  cbv zeta.
  destruct (exec_balanced fmt_other r evs _ (start_balanced now l))
    as [_ Hc].
  split; [exact Hc|]. split; [apply flights_range|]. split; [|split].
  - unfold iterations_in_flight in *. intros H0. rewrite H0 in Hc.
    now rewrite Z.add_0_r in Hc.
  - intros Hdone. rewrite exec_after_completion by exact Hdone.
    cbn [Snapshot]. rewrite Hc.
    rewrite (all_exited_flights _ Hdone). now rewrite Z.add_0_r.
  - apply runOnce_counts_once.
Qed.

End Completion.

(** The run of [TestRunOnce_ModeAuth_Success] as one worker of [Run]: after
    the iteration the worker leaves, and the snapshot is 1/1/0. *)
Lemma attempts_cover_outcomes_witness :
  let r := RunnerTest.runner_in_mode Config.ModeAuth None in
  let s := exec (fun _ _ => EmptyString) r
             [Begin 0 (client r) 0 7; Step 0; Step 0; Finish 0; Leave 0]
             (start r (fresh_world 0 None)) in
  run_complete s = true /\
  Snapshot (m (shared s)) 9 = (1, 1, 0, 9) /\
  let '(att, suc, fal, _) := Snapshot (m (shared s)) 9 in
  att = wrap64 (suc + fal).
Proof.
  intros r s. split; [reflexivity|]. split; [reflexivity|].
  exact (proj1 (proj2 (proj2 (proj2
           (attempts_cover_outcomes (fun _ _ => EmptyString) r 0 None
              [Begin 0 (client r) 0 7; Step 0; Step 0; Finish 0; Leave 0]
              [] RunnerTest.bob 9)))) eq_refl).
Defined.

(** C1 (as stated) fails at a snapshot taken while an iteration is under
    way: the attempt is counted at the start, the outcome at the end. *)
Lemma snapshot_during_iteration :
  let r := RunnerTest.runner_in_mode Config.ModeAuth None in
  let s := exec (fun _ _ => EmptyString) r [Begin 0 (client r) 0 7; Step 0]
             (start r (fresh_world 0 None)) in
  Snapshot (m (shared s)) 9 = (1, 0, 0, 9) /\
  Attempts (m (shared s))
  <> wrap64 (Success (m (shared s)) + Fail (m (shared s))).
Proof.
  split; [reflexivity|]. vm_compute. discriminate.
Qed.

End RunnerFacts.

(** * Further properties of the code *)

(** ** Latency recorder *)

Module LatencyMore.

Import GoInt Metrics MetricsTrace.

Lemma store_length (l : list Z) (i : nat) (v : Z) :
  List.length (store l i v) = List.length l.
Proof.
  revert i. induction l as [|h t IH]; intros [|i]; cbn; auto.
Qed.

Lemma store_in (l : list Z) (i : nat) (v x : Z) :
  In x (store l i v) -> In x l \/ x = v.
Proof.
  revert i. induction l as [|h t IH]; intros [|i]; cbn; auto.
  - intros [<-|H]; auto.
  - intros [<-|H]; auto. destruct (IH _ H); auto.
Qed.

(** One [Record] on a recorder in order. *)
Lemma Record_step (l : LatencyRecorder) (d : Duration) (now : Z) :
  0 <= totalCount l < max_int -> len (sample l) <= cap l -> 0 <= now ->
  exists l',
    Record_ l d now = Ok l' /\
    totalCount l' = totalCount l + 1 /\ cap l' = cap l /\
    len (sample l') <= cap l' /\
    window l' = window l ++ [d] /\
    (forall x, In x (sample l') -> In x (sample l) \/ x = d).
Proof.
  intros Hc Hs Hn. unfold Record_, add, rem.
  rewrite (GoIntFacts.wrap64_small (totalCount l + 1))
    by (unfold min_int, max_int in *; lia).
  destruct (Z.ltb_spec 0 (cap l)) as [Hcap|Hcap].
  - destruct (Z.ltb_spec (len (sample l)) (cap l)) as [Hroom|Hfull].
    + eexists. split; [reflexivity|]. cbn. repeat split; try lia.
      * unfold len in *. rewrite length_app. cbn. lia.
      * intros x Hx. apply in_app_or in Hx. destruct Hx as [Hx|[<-|[]]]; auto.
    + destruct (Z.eqb_spec (totalCount l + 1) 0) as [E|_]; [lia|].
      cbn [bind].
      pose proof (Z.rem_bound_pos now (totalCount l + 1) Hn ltac:(lia)) as Hr.
      destruct (Z.ltb_spec (Z.rem now (totalCount l + 1)) (cap l)) as [Hi|Hi].
      * destruct (Z.ltb_spec (Z.rem now (totalCount l + 1)) 0); [lia|].
        destruct (Z.leb_spec (len (sample l)) (Z.rem now (totalCount l + 1)));
          [lia|].
        cbn [orb]. eexists. split; [reflexivity|]. cbn. repeat split; try lia.
        -- unfold len, Duration in *. rewrite store_length. lia.
        -- intros x. apply store_in.
      * eexists. split; [reflexivity|]. cbn. repeat split; try lia. auto.
  - eexists. split; [reflexivity|]. cbn. repeat split; try lia. auto.
Qed.

Lemma TotalSnapshot_total (indefinite : Z) (l : LatencyRecorder) :
  exists st, TotalSnapshot indefinite l = Ok st /\ Count st = totalCount l.
Proof.
  unfold TotalSnapshot, div.
  destruct (Z.ltb_spec 0 (totalCount l)).
  - destruct (Z.eqb_spec (totalCount l) 0); [lia|]. cbn [bind].
    destruct (0 <? len (sample l)); eexists; split; reflexivity.
  - cbn [bind]. destruct (0 <? len (sample l)); eexists; split; reflexivity.
Qed.

Section Recorder.

Variable indefinite : Z.

Lemma serve_in_order (calls : list call) :
  forall l : LatencyRecorder,
    0 <= totalCount l -> totalCount l + records calls < max_int ->
    len (sample l) <= cap l -> clock_not_negative calls ->
    exists reads l',
      serve indefinite calls l = Ok (reads, l') /\
      totalCount l' = totalCount l + records calls /\
      cap l' = cap l /\
      len (sample l') <= cap l' /\
      (forall x, In x (sample l') -> In x (sample l) \/ In x (recorded calls)).
Proof.
  induction calls as [|c rest IH]; intros l Hc Hm Hs Hk.
  - exists [], l. unfold records, len. cbn. repeat split; auto; lia.
  - inversion Hk as [|c' rest' Hnow Hrest]; subst.
    assert (Hrec : 0 <= records rest) by (unfold records, len; lia).
    destruct c as [d now| |]; cbn [serve].
    + assert (Hm' : records (CallRecord d now :: rest) = records rest + 1)
        by (unfold records, len; cbn [filter List.length]; lia).
      rewrite Hm' in *.
      destruct (Record_step l d now ltac:(lia) Hs Hnow)
        as (l1 & R & C1 & K1 & S1 & _ & I1).
      rewrite R. cbn [bind].
      destruct (IH l1 ltac:(lia) ltac:(lia) S1 Hrest)
        as (reads & l' & E & C' & K' & S' & I').
      exists reads, l'. split; [exact E|]. repeat split; try lia; try congruence.
      intros x Hx. cbn [recorded flat_map]. destruct (I' x Hx) as [H|H].
      * destruct (I1 x H) as [H1| ->]; [now left|right; now left].
      * right. apply in_or_app. now right.
    + destruct (TotalSnapshot_total indefinite l) as (st & T & _).
      rewrite T. cbn [bind].
      assert (Hm' : records (CallTotalSnapshot :: rest) = records rest)
        by reflexivity.
      rewrite Hm' in *. now apply IH.
    + destruct (LatencyFacts.window_read indefinite l)
        as (st & l1 & W & _ & _ & _).
      rewrite W. cbn [bind fst snd].
      assert (Hsame : totalCount l1 = totalCount l /\ cap l1 = cap l
                      /\ sample l1 = sample l).
      { unfold WindowSnapshotAndReset, div in W.
        destruct (len (window l) =? 0); [inversion W; auto|].
        cbn [bind] in W. inversion W. auto. }
      destruct Hsame as (E1 & E2 & E3).
      assert (Hm' : records (CallWindowSnapshotAndReset :: rest)
                    = records rest) by reflexivity.
      rewrite Hm' in *.
      destruct (IH l1 ltac:(lia) ltac:(lia) ltac:(rewrite E3, E2; exact Hs)
                  Hrest) as (reads & l' & E & C' & K' & S' & I').
      rewrite E. cbn [bind fst snd]. eexists _, l'. split; [reflexivity|].
      repeat split; try lia; try congruence.
      intros x Hx. rewrite <- E3. now apply I'.
Qed.

(** X1. On a recorder fresh from [NewLatencyRecorder], as long as the clock
    does not read a negative time and fewer than 2^63 - 1 samples are
    recorded, no call panics; afterwards the count is the number of calls of
    [Record], the reservoir holds at most [capacity] values (none for a
    capacity of zero or less), and each of them is a duration that was
    recorded. *)
Theorem recorder_stays_in_order (capacity : Z) (calls : list call) :
  clock_not_negative calls -> records calls < max_int ->
  exists reads l',
    serve indefinite calls (NewLatencyRecorder capacity) = Ok (reads, l') /\
    totalCount l' = records calls /\
    len (sample l') <= Z.max 0 capacity /\
    (forall x, In x (sample l') -> In x (recorded calls)).
Proof.
  intros Hk Hm.
  assert (Hcap : cap (NewLatencyRecorder capacity) = Z.max 0 capacity).
  { unfold NewLatencyRecorder. cbn. destruct (Z.ltb_spec capacity 0); lia. }
  destruct (serve_in_order calls (NewLatencyRecorder capacity))
    as (reads & l' & E & C & K & S & I).
  - change (0 <= 0). lia.
  - change (0 + records calls < max_int). lia.
  - rewrite Hcap. change (0 <= Z.max 0 capacity). lia.
  - exact Hk.
  - exists reads, l'. split; [exact E|].
    change (totalCount l' = 0 + records calls) in C. rewrite K, Hcap in S.
    repeat split; try lia.
    intros x Hx. destruct (I x Hx) as [[]|H]. exact H.
Qed.

End Recorder.

(** A reservoir of two slots and three samples: the third one replaces the
    slot the clock selects. *)
Lemma recorder_stays_in_order_witness :
  exists reads l',
    serve 0 [CallRecord 5 1; CallRecord 7 2; CallTotalSnapshot;
             CallRecord 9 3] (NewLatencyRecorder 2) = Ok (reads, l') /\
    totalCount l' = 3 /\ len (sample l') <= 2 /\
    (forall x, In x (sample l') -> In x [5; 7; 9]).
Proof.
  apply (recorder_stays_in_order 0 2
           [CallRecord 5 1; CallRecord 7 2; CallTotalSnapshot; CallRecord 9 3]).
  - repeat constructor; lia.
  - vm_compute. reflexivity.
Defined.

(** *** Percentiles and averages *)

Lemma index_in (l : list Duration) (i : Z) :
  0 <= i < len l -> In (index l i) l.
Proof.
  unfold index, len, Duration. intros H. apply nth_In. lia.
Qed.

(** Whatever the fraction, [percentile] picks one of the values. *)
Lemma percentile_in (indefinite : Z) (l : list Duration) (p : float) :
  l <> [] -> In (percentile indefinite l p) l.
Proof.
  intros Hne.
  assert (Hn : 0 < len l)
    by (unfold len; destruct l; [congruence|cbn [List.length]; lia]).
  unfold percentile. destruct (Z.eqb_spec (len l) 0); [lia|].
  destruct (PrimFloat.leb p 0); [apply index_in; lia|].
  destruct (PrimFloat.leb 1 p); [apply index_in; lia|].
  destruct (Z.leb_spec
              (int_of_float indefinite (PrimFloat.mul (float_of_int (len l)) p))
              0); [apply index_in; lia|].
  destruct (Z.leb_spec (len l)
              (int_of_float indefinite (PrimFloat.mul (float_of_int (len l)) p)));
    apply index_in; lia.
Qed.

Lemma percentile_of_sorted (indefinite : Z) (l : list Duration) (p : float) :
  l <> [] -> In (percentile indefinite (sort_durations l) p) l.
Proof.
  intros Hne.
  destruct (LatencyFacts.sort_durations_sorted l) as [_ Hp].
  eapply Permutation_in; [symmetry; exact Hp|].
  apply percentile_in. intros E. apply Hne.
  apply Permutation_sym in Hp. rewrite E in Hp.
  now apply Permutation_nil in Hp.
Qed.

Lemma sum_in_range (hi : Z) (ds : list Duration) :
  Forall (fun d => 0 <= d <= hi) ds ->
  forall acc, 0 <= acc -> acc + len ds * hi <= max_int ->
              fold_left add ds acc = acc + total ds /\
              0 <= total ds <= len ds * hi.
Proof.
  unfold Duration.
  induction 1 as [|d ds Hd Hds IH]; intros acc Ha Hm.
  - unfold total, len. cbn. lia.
  - assert (Hlen : len (d :: ds) = len ds + 1)
      by (unfold len; cbn [List.length]; lia).
    rewrite Hlen in *. cbn [fold_left]. unfold add at 2.
    assert (0 <= len ds) by (unfold len; lia).
    rewrite GoIntFacts.wrap64_small by (unfold min_int, max_int in *; nia).
    destruct (IH (acc + d) ltac:(lia) ltac:(nia)) as [E B].
    rewrite E. unfold total in *. cbn [fold_right]. split; nia.
Qed.

Section Snapshots.

Variable indefinite : Z.

(** X2. A read of a non-empty window reports as 50th, 95th and 99th
    percentile three of the durations the window holds. *)
Theorem window_percentiles_are_samples (l : LatencyRecorder) :
  window l <> [] ->
  exists st l',
    WindowSnapshotAndReset indefinite l = Ok (st, l') /\
    In (P50 st) (window l) /\ In (P95 st) (window l) /\ In (P99 st) (window l).
Proof.
  intros Hne. unfold WindowSnapshotAndReset, div.
  assert (Hn : 0 < len (window l))
    by (unfold len; destruct (window l); [congruence|cbn [List.length]; lia]).
  destruct (Z.eqb_spec (len (window l)) 0); [lia|]. cbn [bind].
  eexists _, _. split; [reflexivity|]. cbn [P50 P95 P99].
  repeat split; now apply percentile_of_sorted.
Qed.

(** X3. [TotalSnapshot] never fails, whatever the recorder holds: the
    division is guarded. It reports the count of samples; its percentiles
    are values of the reservoir when that is not empty and zero when it is,
    and its average is zero while nothing is counted. *)
Theorem total_snapshot_is_safe (l : LatencyRecorder) :
  exists st,
    TotalSnapshot indefinite l = Ok st /\ Count st = totalCount l /\
    (sample l <> [] ->
     In (P50 st) (sample l) /\ In (P95 st) (sample l) /\ In (P99 st) (sample l)) /\
    (sample l = [] -> P50 st = 0 /\ P95 st = 0 /\ P99 st = 0) /\
    (totalCount l <= 0 -> Avg st = 0).
Proof.
  unfold TotalSnapshot, div.
  assert (Hs : sample l = [] \/ (sample l <> [] /\ 0 < len (sample l))).
  { unfold len. destruct (sample l); [now left|right].
    split; [discriminate|cbn [List.length]; lia]. }
  destruct (Z.ltb_spec 0 (totalCount l)) as [Hc|Hc];
    [destruct (Z.eqb_spec (totalCount l) 0); [lia|]|]; cbn [bind];
    (destruct Hs as [Hs|[Hs Hn]];
     [rewrite Hs; cbn; eexists; split; [reflexivity|]; cbn;
      repeat split; try congruence; try lia
     |destruct (Z.ltb_spec 0 (len (sample l))); [|lia];
      eexists; split; [reflexivity|]; cbn [Count Avg P50 P95 P99];
      repeat split; try (intros; now apply percentile_of_sorted);
      try congruence; try lia]).
Qed.

(** X4. When the durations of the window lie between 0 and [hi] and their
    number times [hi] fits an int64, the average a read reports is the exact
    sum of the window divided by its length, rounded down; it lies between 0
    and [hi]. *)
Theorem window_average_is_the_mean (hi : Z) (l : LatencyRecorder) :
  window l <> [] ->
  Forall (fun d => 0 <= d <= hi) (window l) ->
  len (window l) * hi <= max_int ->
  exists st l',
    WindowSnapshotAndReset indefinite l = Ok (st, l') /\
    Avg st = total (window l) / len (window l) /\
    0 <= Avg st <= hi.
Proof.
  intros Hne Hr Hm. unfold WindowSnapshotAndReset, div.
  assert (Hn : 0 < len (window l))
    by (unfold len; destruct (window l); [congruence|cbn [List.length]; lia]).
  destruct (Z.eqb_spec (len (window l)) 0); [lia|]. cbn [bind].
  destruct (sum_in_range hi (window l) Hr 0 ltac:(lia) ltac:(lia)) as [E B].
  rewrite E, Z.add_0_l.
  assert (Hq : Z.quot (total (window l)) (len (window l))
               = total (window l) / len (window l))
    by (apply Z.quot_div_nonneg; lia).
  assert (Hb : 0 <= total (window l) / len (window l) <= hi).
  { split; [apply Z.div_pos; lia|].
    apply Z.div_le_upper_bound; [lia|]. lia. }
  eexists _, _. split; [reflexivity|]. cbn [Avg]. rewrite Hq.
  rewrite GoIntFacts.wrap64_small; [split; [reflexivity|exact Hb]|].
  assert (0 <= hi).
  { destruct (window l) as [|d ds]; [congruence|]. inversion Hr; lia. }
  unfold min_int, max_int in *. nia.
Qed.

(** A window read, empty window or not, leaves the cumulative view as it
    was: the next [TotalSnapshot] returns what it would have returned
    before. *)
Theorem window_read_keeps_totals (l : LatencyRecorder) :
  exists st l',
    WindowSnapshotAndReset indefinite l = Ok (st, l') /\
    totalCount l' = totalCount l /\ totalSum l' = totalSum l /\
    sample l' = sample l /\ cap l' = cap l /\
    TotalSnapshot indefinite l' = TotalSnapshot indefinite l.
Proof.
  unfold WindowSnapshotAndReset, div.
  destruct (Z.eqb_spec (len (window l)) 0) as [E|N].
  - eexists _, _. split; [reflexivity|]. repeat split.
  - cbn [bind]. eexists _, _. split; [reflexivity|]. repeat split.
Qed.

End Snapshots.

(** A window of three latencies. *)
Lemma window_percentiles_are_samples_witness :
  exists st l',
    WindowSnapshotAndReset 0
      {| totalCount := 3; totalSum := 12; sample := [4; 3; 5]; cap := 8;
         window := [4; 3; 5] |} = Ok (st, l') /\
    In (P50 st) [4; 3; 5] /\ In (P95 st) [4; 3; 5] /\ In (P99 st) [4; 3; 5].
Proof.
  apply (window_percentiles_are_samples 0
           {| totalCount := 3; totalSum := 12; sample := [4; 3; 5]; cap := 8;
              window := [4; 3; 5] |}).
  discriminate.
Defined.

Lemma total_snapshot_is_safe_witness :
  exists st,
    TotalSnapshot 0 {| totalCount := 0; totalSum := 0; sample := [];
                       cap := 8; window := [] |} = Ok st /\
    P50 st = 0 /\ Avg st = 0.
Proof.
  destruct (total_snapshot_is_safe 0
              {| totalCount := 0; totalSum := 0; sample := []; cap := 8;
                 window := [] |}) as (st & E & _ & _ & Hz & Ha).
  exists st. split; [exact E|]. split.
  - now destruct (Hz eq_refl).
  - apply Ha. cbn. lia.
Defined.

(** Three latencies of at most 5 ms. *)
Lemma window_average_is_the_mean_witness :
  exists st l',
    WindowSnapshotAndReset 0
      {| totalCount := 3; totalSum := 12000000;
         sample := [4000000; 3000000; 5000000]; cap := 8;
         window := [4000000; 3000000; 5000000] |} = Ok (st, l') /\
    Avg st = 12000000 / 3 /\ 0 <= Avg st <= 5000000.
Proof.
  apply (window_average_is_the_mean 0 5000000
           {| totalCount := 3; totalSum := 12000000;
              sample := [4000000; 3000000; 5000000]; cap := 8;
              window := [4000000; 3000000; 5000000] |}).
  - discriminate.
  - repeat constructor; cbn; lia.
  - vm_compute. discriminate.
Defined.

End LatencyMore.

(** ** Failure logger, further *)

Module LoggerMore.

Import GoInt Fail FailTrace.

#[local] Arguments persisted : simpl never.

(** Takes [fire] apart, one goal per way an event can go. *)
Ltac fire_cases l ev :=
  unfold fire, receive, send_or_drop;
  destruct (panicked l) eqn:?; [|destruct ev];
  repeat match goal with
         | |- context [match ?x with _ => _ end] => destruct x eqn:?
         end.

Lemma fire_batch (ev : event) (l : Logger) : batch (fire ev l) = batch l.
Proof. fire_cases l ev; reflexivity. Qed.

Lemma append_below_batch (l : Logger) (buf : list Record_) (r : Record_) :
  1 <= batch l -> len (fst (append_and_maybe_flush l buf r)) < batch l.
Proof.
  intros Hb. unfold append_and_maybe_flush.
  destruct (Z.leb_spec (batch l) (len (buf ++ [r]))) as [H|H]; [|exact H].
  rewrite LoggerFacts.flush_empties. unfold len. cbn. lia.
Qed.

Lemma fire_buf_below_batch (ev : event) (l : Logger) :
  1 <= batch l -> len (in_hand (run l)) < batch l ->
  len (in_hand (run (fire ev l))) < batch l.
Proof.
  intros Hb. fire_cases l ev; cbn [run with_run with_ch close_stopCh];
    try match goal with
        | R : run l = _ |- _ => rewrite ?R
        end;
    cbn [in_hand]; intros H; try assumption;
    try (unfold len in *; cbn [List.length] in *; lia).
  - match goal with
    | E : append_and_maybe_flush l ?b ?r = _ |- _ =>
        pose proof (append_below_batch l b r Hb) as A; rewrite E in A
    end. exact A.
  - match goal with
    | E : append_and_maybe_flush l ?b ?r = _ |- _ =>
        pose proof (append_below_batch l b r Hb) as A; rewrite E in A
    end. exact A.
  - match goal with
    | E : flush ?b ?f = _ |- _ =>
        pose proof (LoggerFacts.flush_empties b f) as A; rewrite E in A
    end. cbn [fst] in A. subst. unfold len. cbn. lia.
Qed.

(** X5. The consumer never sits on a full batch: whatever happens to a
    logger after [New], [buf] holds fewer records than the batch size the
    logger works with. *)
Theorem buffer_stays_below_batch (path : string) (n : Z) (l : Logger)
  (evs : list event) :
  New path n = Ok (Some l) ->
  batch (exec evs l) = effective_batch n /\
  1 <= effective_batch n /\
  len (in_hand (run (exec evs l))) < effective_batch n.
Proof.
  intros HN.
  assert (H0 : batch l = effective_batch n /\ run l = Opening).
  { unfold New, effective_batch in *. destruct (String.eqb path ""); [discriminate|].
    destruct (mul (if n <=? 0 then 256 else n) 4 <? 0); [discriminate|].
    inversion HN. now split. }
  destruct H0 as [Hb Hr].
  assert (H1 : 1 <= effective_batch n)
    by (unfold effective_batch; destruct (Z.leb_spec n 0); lia).
  rewrite <- Hb in *. clear Hb HN.
  assert (Hi : len (in_hand (run l)) < batch l)
    by (rewrite Hr; unfold len; cbn; lia).
  clear Hr. revert l H1 Hi.
  induction evs as [|ev evs IH]; intros l H1 Hi; [now repeat split|].
  cbn [exec fold_left]. fold (exec evs (fire ev l)).
  pose proof (fire_batch ev l) as Fb.
  pose proof (fire_buf_below_batch ev l H1 Hi) as Fi.
  rewrite <- Fb in *. now apply IH.
Qed.

Lemma buffer_stays_below_batch_witness :
  exists l, New "fail.csv" 2 = Ok (Some l) /\
    let rec := {| Timestamp := 0; Operation := "bind"; Username := "u";
                  DN := "dn"; Filter := ""; Error := "e" |} in
    len (in_hand (run (exec [EvOpen true; EvLog rec; EvLog rec; EvLog rec;
                             EvRecv; EvRecv; EvRecv] l))) < 2.
Proof.
  destruct (New "fail.csv" 2) as [[l|]|] eqn:E; try discriminate.
  exists l. split; [reflexivity|]. cbv zeta.
  refine (proj2 (proj2 (buffer_stays_below_batch "fail.csv" 2 l _ E))).
Defined.

(** *** The file *)

Lemma shape_append (f : list line) (b : list Record_) :
  f = Header :: map Row (persisted f) ->
  f ++ map Row b = Header :: map Row (persisted (f ++ map Row b)).
Proof.
  intros E. rewrite LoggerFacts.persisted_app, LoggerFacts.persisted_rows.
  rewrite map_app, app_comm_cons, <- E. reflexivity.
Qed.

Lemma flush_shape (buf : list Record_) (f : list line) :
  f = Header :: map Row (persisted f) ->
  snd (flush buf f) = Header :: map Row (persisted (snd (flush buf f))).
Proof.
  intros E. destruct buf as [|r buf]; [exact E|].
  cbn [flush snd]. now apply shape_append.
Qed.

Lemma append_shape (l : Logger) (buf : list Record_) (r : Record_) :
  file l = Header :: map Row (persisted (file l)) ->
  snd (append_and_maybe_flush l buf r)
  = Header :: map Row (persisted (snd (append_and_maybe_flush l buf r))).
Proof.
  intros E. unfold append_and_maybe_flush.
  destruct (batch l <=? len (buf ++ [r])); [now apply flush_shape|exact E].
Qed.

Lemma fire_shape (ev : event) (l : Logger) :
  file_in_shape l -> file_in_shape (fire ev l).
Proof.
  fire_cases l ev; unfold file_in_shape;
    cbn [run file with_run with_ch close_stopCh];
    try match goal with
        | R : run l = _ |- _ => rewrite ?R
        end;
    intros H; try exact H.
  - rewrite H. reflexivity.
  - match goal with
    | E : append_and_maybe_flush l ?b ?r = _ |- _ =>
        pose proof (append_shape l b r H) as A; rewrite E in A
    end. exact A.
  - match goal with
    | E : append_and_maybe_flush l ?b ?r = _ |- _ =>
        pose proof (append_shape l b r H) as A; rewrite E in A
    end. exact A.
  - match goal with
    | E : flush ?b ?f = _ |- _ =>
        pose proof (flush_shape b f H) as A; rewrite E in A
    end. exact A.
  - match goal with
    | E : flush ?b ?f = _ |- _ =>
        pose proof (flush_shape b f H) as A; rewrite E in A
    end. exact A.
Qed.

(** X6. A logger writes nothing to its file until [run] has opened it, and
    nothing at all if the open fails; once the file is open, what the logger
    has written is the header line followed by record lines only: each
    logger writes the header once, before any record. (The file is opened
    for appending: on a path that holds lines already these come first, and
    the errors of the writes are dropped.) *)
Theorem header_once_and_first (path : string) (n : Z) (l : Logger)
  (evs : list event) :
  New path n = Ok (Some l) ->
  match run (exec evs l) with
  | Opening | Discarding => file (exec evs l) = []
  | Serving _ | Draining _ | Returned =>
      file (exec evs l)
      = Header :: map Row (persisted (file (exec evs l)))
  end.
Proof.
  intros HN. destruct (LoggerFacts.New_fresh _ _ _ HN) as (_ & Hf & Hr & _).
  assert (H0 : file_in_shape l) by (unfold file_in_shape; now rewrite Hr).
  clear HN Hf Hr. revert l H0.
  induction evs as [|ev evs IH]; intros l H0; [exact H0|].
  cbn [exec fold_left]. apply IH. now apply fire_shape.
Qed.

Lemma header_once_and_first_witness :
  exists l, New "fail.csv" 1 = Ok (Some l) /\
    let rec := {| Timestamp := 0; Operation := "bind"; Username := "u";
                  DN := "dn"; Filter := ""; Error := "e" |} in
    file (exec [EvLog rec; EvOpen true; EvRecv; EvLog rec; EvRecv] l)
    = [Header; Row rec; Row rec].
Proof.
  destruct (New "fail.csv" 1) as [[l|]|] eqn:E; try discriminate.
  exists l. split; [reflexivity|]. intros rec.
  pose proof (header_once_and_first "fail.csv" 1 l
                [EvLog rec; EvOpen true; EvRecv; EvLog rec; EvRecv] E) as H.
  inversion E; subst l. exact H.
Defined.

Lemma fire_returned (ev : event) (l : Logger) :
  run l = Returned ->
  run (fire ev l) = Returned /\ file (fire ev l) = file l.
Proof.
  intros R. unfold fire, receive, send_or_drop. rewrite R.
  destruct (panicked l); [now split|].
  destruct ev; repeat match goal with
                      | |- context [match ?x with _ => _ end] => destruct x
                      end; now split.
Qed.

(** X7. Once [run] has returned, the file is final: whatever is logged
    afterwards is at best queued, never written. *)
Theorem nothing_written_after_return (l : Logger) (evs : list event) :
  run l = Returned ->
  run (exec evs l) = Returned /\ file (exec evs l) = file l.
Proof.
  revert l. induction evs as [|ev evs IH]; intros l R; [now split|].
  cbn [exec fold_left]. destruct (fire_returned ev l R) as [R' F'].
  destruct (IH _ R') as [R'' F'']. split; [exact R''|].
  rewrite <- F'. exact F''.
Qed.

Lemma nothing_written_after_return_witness :
  exists l, New "fail.csv" 2 = Ok (Some l) /\
    let rec := {| Timestamp := 0; Operation := "bind"; Username := "u";
                  DN := "dn"; Filter := ""; Error := "e" |} in
    let done := exec [EvOpen true; EvLog rec; EvCloseStop; EvStop; EvRecv;
                      EvEmpty] l in
    file (exec [EvLog rec; EvRecv; EvTick] done) = [Header; Row rec].
Proof.
  destruct (New "fail.csv" 2) as [[l|]|] eqn:E; try discriminate.
  exists l. split; [reflexivity|]. inversion E; subst l. intros rec done.
  refine (eq_trans (proj2 (nothing_written_after_return done
                            [EvLog rec; EvRecv; EvTick] _)) _);
    reflexivity.
Defined.

(** *** Close, twice *)

Lemma fire_keeps_stop (ev : event) (l : Logger) :
  stop_closed l = true -> stop_closed (fire ev l) = true.
Proof.
  fire_cases l ev; cbn; intros S; congruence.
Qed.

Lemma wait_keeps_stop (sched : list event) :
  forall l l', stop_closed l = true ->
               Wait l sched = CloseReturned (Some l') ->
               stop_closed l' = true.
Proof.
  induction sched as [|ev sched IH]; intros l l' S W; cbn [Wait] in W.
  - destruct (wg_done l); [|discriminate]. inversion W; now subst.
  - destruct (wg_done l); [inversion W; now subst|].
    eapply IH; [|exact W]. now apply fire_keeps_stop.
Qed.

(** X8. [Close] is not to be called twice: after a [Close] that has
    returned, any further [Close] panics, closing [stopCh] a second time. *)
Theorem second_close_panics (l l' : Logger) (sched sched' : list event) :
  Close (Some l) sched = CloseReturned (Some l') ->
  Close (Some l') sched' = ClosePanicked.
Proof.
  cbn [Close]. destruct (panicked (close_stopCh l)); [discriminate|].
  intros W. apply wait_keeps_stop in W; [|reflexivity].
  cbn [close_stopCh panicked]. now rewrite W.
Qed.

(** The logger of the package's test: [New], [Log], [Close], [Close]. *)
Lemma second_close_panics_witness :
  exists l l',
    New "fail.csv" 2 = Ok (Some l) /\
    let rec := {| Timestamp := 0; Operation := "bind"; Username := "u";
                  DN := "dn"; Filter := ""; Error := "e" |} in
    Close (Some (exec [EvOpen true; EvLog rec] l)) [EvStop; EvRecv; EvEmpty]
    = CloseReturned (Some l') /\
    Close (Some l') [] = ClosePanicked.
Proof.
  destruct (New "fail.csv" 2) as [[l|]|] eqn:E; try discriminate.
  inversion E; subst l. clear E.
  pose (rec := {| Timestamp := 0; Operation := "bind"; Username := "u";
                  DN := "dn"; Filter := ""; Error := "e" |}).
  assert (C : exists l',
             Close (Some (exec [EvOpen true; EvLog rec]
                            {| path := "fail.csv"; batch := 2; ch := [];
                               ch_cap := mul 2 4; stop_closed := false;
                               run := Opening; file := [];
                               panicked := false |}))
               [EvStop; EvRecv; EvEmpty] = CloseReturned (Some l'))
    by (vm_compute; eexists; reflexivity).
  destruct C as [l' C]. eexists _, l'. split; [reflexivity|].
  split; [exact C|exact (second_close_panics _ l' _ [] C)].
Defined.

(** *** What becomes of the records *)

Import Seq.

Lemma subseq_refl {A} (l : list A) : subseq l l.
Proof. induction l; constructor; assumption. Qed.

Lemma subseq_trans {A} (a b c : list A) :
  subseq a b -> subseq b c -> subseq a c.
Proof.
  intros H1 H2. revert a H1.
  induction H2 as [|x b c H2 IH|x b c H2 IH]; intros a H1.
  - exact H1.
  - constructor. now apply IH.
  - inversion H1; subst; constructor; now apply IH.
Qed.

Lemma subseq_app {A} (a b c d : list A) :
  subseq a b -> subseq c d -> subseq (a ++ c) (b ++ d).
Proof.
  induction 1 as [|x a b Hab IH|x a b Hab IH]; intros Hcd; cbn [app].
  - exact Hcd.
  - apply subseq_skip. now apply IH.
  - apply subseq_take. now apply IH.
Qed.

Lemma subseq_nil_l {A} (l : list A) : subseq [] l.
Proof. induction l; constructor; assumption. Qed.

Lemma subseq_app_r {A} (l x : list A) : subseq l (l ++ x).
Proof.
  rewrite <- (app_nil_r l) at 1.
  apply subseq_app; [apply subseq_refl|apply subseq_nil_l].
Qed.

Lemma logged_cons (ev : event) (evs : list event) :
  logged (ev :: evs) = logged [ev] ++ logged evs.
Proof. unfold logged. cbn [flat_map]. now rewrite app_nil_r. Qed.

Lemma log_calls_cons (ev : event) (evs : list event) :
  log_calls (ev :: evs) = log_calls [ev] + log_calls evs.
Proof. unfold log_calls, len. destruct ev; cbn [filter List.length]; lia. Qed.

Lemma retained_moved (f f' : list line) (b b' q : list Record_) (r : Record_) :
  persisted f' ++ b' = persisted f ++ b ++ [r] ->
  persisted f' ++ b' ++ q = persisted f ++ b ++ r :: q.
Proof.
  intros E. rewrite app_assoc, E, <- !app_assoc. reflexivity.
Qed.

(** An event keeps the records and their order; only a [Log] adds one, at
    the end, and only a consumer that could not open the file loses one. *)
Lemma fire_retained (ev : event) (l : Logger) :
  subseq (retained (fire ev l)) (retained l ++ logged [ev]) /\
  (run (fire ev l) <> Discarding -> panicked l = false ->
   len (ch l) + log_calls [ev] <= ch_cap l ->
   retained (fire ev l) = retained l ++ logged [ev]).
Proof.
  assert (Hskip : forall x : list Record_, subseq x (x ++ []))
    by (intros x; rewrite app_nil_r; apply subseq_refl).
  fire_cases l ev; unfold retained, logged; cbn [flat_map app];
    cbn [run file ch with_run with_ch close_stopCh in_hand];
    try match goal with
        | R : run l = _ |- _ => rewrite ?R
        end;
    try match goal with
        | Q : ch l = _ |- _ => rewrite ?Q
        end;
    cbn [in_hand app]; rewrite ?app_nil_r;
    try (split; [apply subseq_refl|congruence]).
  - (* after a panic nothing happens *)
    split; [apply subseq_app_r|discriminate].
  - (* open: the header is no record *)
    rewrite LoggerFacts.persisted_app.
    change (persisted [Header]) with (@nil Record_). rewrite app_nil_r.
    split; [apply subseq_refl|reflexivity].
  - (* a record received and discarded *)
    split; [|congruence].
    apply subseq_app; [apply subseq_refl|]. constructor. apply subseq_refl.
  - match goal with
    | E : append_and_maybe_flush l ?b ?r = _ |- _ =>
        pose proof (LoggerFacts.append_keeps l b r) as A; rewrite E in A;
        cbn [fst snd] in A; apply (retained_moved _ _ _ _ l0) in A;
        rewrite A
    end. split; [apply subseq_refl|reflexivity].
  - match goal with
    | E : append_and_maybe_flush l ?b ?r = _ |- _ =>
        pose proof (LoggerFacts.append_keeps l b r) as A; rewrite E in A;
        cbn [fst snd] in A; apply (retained_moved _ _ _ _ l0) in A;
        rewrite A
    end. split; [apply subseq_refl|reflexivity].
  - match goal with
    | E : flush ?b ?f = _ |- _ =>
        pose proof (LoggerFacts.flush_keeps b f) as A; rewrite E in A;
        cbn [fst snd] in A
    end. rewrite app_assoc, A, <- app_assoc.
    split; [apply subseq_refl|reflexivity].
  - match goal with
    | E : flush ?b ?f = _ |- _ =>
        pose proof (LoggerFacts.flush_keeps b f) as A;
        pose proof (LoggerFacts.flush_empties b f) as B; rewrite E in A, B;
        cbn [fst snd] in A, B; subst; rewrite app_nil_r in A; rewrite A
    end. split; [apply subseq_refl|reflexivity].
  - (* Log with room *)
    rewrite !app_assoc. split; [apply subseq_refl|reflexivity].
  - (* Log on a full queue *)
    split.
    + apply subseq_app_r.
    + intros _ _ Hroom.
      match goal with
      | E : (len (ch l) <? ch_cap l) = false |- _ => apply Z.ltb_ge in E
      end.
      unfold log_calls, len in *. cbn [filter List.length] in Hroom. lia.
Qed.

Lemma exec_panicked (evs : list event) (l : Logger) :
  panicked l = true -> exec evs l = l.
Proof.
  intros P. induction evs as [|ev evs IH]; [reflexivity|].
  cbn [exec fold_left]. unfold fire at 2. rewrite P. exact IH.
Qed.

Lemma exec_discarding (evs : list event) (l : Logger) :
  run l = Discarding -> run (exec evs l) = Discarding.
Proof.
  revert l. induction evs as [|ev evs IH]; intros l R; [exact R|].
  cbn [exec fold_left]. apply IH. now apply LoggerFacts.fire_discarding.
Qed.

Lemma fire_queue_grows (ev : event) (l : Logger) :
  len (ch (fire ev l)) <= len (ch l) + log_calls [ev].
Proof.
  fire_cases l ev; cbn [ch with_run with_ch close_stopCh];
    try match goal with
        | Q : ch l = _ |- _ => rewrite ?Q
        end;
    unfold log_calls, len; cbn [filter List.length];
    rewrite ?length_app; cbn [List.length]; lia.
Qed.

Lemma exec_retained (evs : list event) :
  forall l : Logger,
    subseq (retained (exec evs l)) (retained l ++ logged evs) /\
    (run (exec evs l) <> Discarding -> panicked (exec evs l) = false ->
     len (ch l) + log_calls evs <= ch_cap l ->
     retained (exec evs l) = retained l ++ logged evs).
Proof.
  induction evs as [|ev evs IH]; intros l.
  - cbn [exec fold_left logged flat_map]. rewrite app_nil_r.
    split; [apply subseq_refl|reflexivity].
  - cbn [exec fold_left]. fold (exec evs (fire ev l)).
    destruct (IH (fire ev l)) as [S E]. destruct (fire_retained ev l) as [S1 E1].
    rewrite logged_cons, log_calls_cons, app_assoc. split.
    + eapply subseq_trans; [exact S|]. apply subseq_app; [exact S1|].
      apply subseq_refl.
    + intros Hd Hp Hroom.
      assert (Hp0 : panicked l = false).
      { destruct (panicked l) eqn:P; [|reflexivity].
        unfold fire in Hp at 1. rewrite P in Hp.
        rewrite (exec_panicked evs l P) in Hp. congruence. }
      assert (Hd1 : run (fire ev l) <> Discarding).
      { intros R. apply Hd. now apply exec_discarding. }
      assert (0 <= log_calls evs) by (unfold log_calls, len; lia).
      rewrite E, E1; try assumption; try lia.
      * reflexivity.
      * pose proof (fire_queue_grows ev l). rewrite LoggerFacts.fire_cap. lia.
Qed.

(** X9. Whatever happens to a logger, the records it holds (on file, in
    [buf], in the channel, taken in that order) are records that were passed
    to [Log], each at most once and in the order of the calls: the logger
    drops records but neither invents, repeats nor reorders them. *)
Theorem records_keep_their_order (path : string) (n : Z) (l : Logger)
  (evs : list event) :
  New path n = Ok (Some l) ->
  subseq (retained (exec evs l)) (logged evs) /\
  subseq (persisted (file (exec evs l))) (logged evs).
Proof.
  intros HN. destruct (LoggerFacts.New_fresh _ _ _ HN) as (Hc & Hf & Hr & _).
  destruct (exec_retained evs l) as [S _].
  assert (E0 : retained l = []) by (unfold retained; now rewrite Hc, Hf, Hr).
  rewrite E0 in S. cbn [app] in S. split; [exact S|].
  eapply subseq_trans; [|exact S]. unfold retained.
  rewrite <- (app_nil_r (persisted (file (exec evs l)))) at 1.
  apply subseq_app; [apply subseq_refl|apply subseq_nil_l].
Qed.

(** X10. When the file could be opened, [stopCh] was closed at most once and
    no more records were logged than the queue can hold, the logger drops
    nothing: the records written to the file, in [buf] and in the channel
    are exactly the records passed to [Log], in call order, and once [run]
    has returned with the queue empty it has written every one of them to
    the file. (Written means passed to [w.Write] and flushed: the code drops
    the errors of both, so nothing is said of a write that fails.) *)
Theorem no_record_lost_within_capacity (path : string) (n : Z) (l : Logger)
  (evs : list event) :
  New path n = Ok (Some l) ->
  run (exec evs l) <> Discarding -> panicked (exec evs l) = false ->
  log_calls evs <= ch_cap l ->
  retained (exec evs l) = logged evs /\
  (run (exec evs l) = Returned -> ch (exec evs l) = [] ->
   persisted (file (exec evs l)) = logged evs).
Proof.
  intros HN Hd Hp Hroom.
  destruct (LoggerFacts.New_fresh _ _ _ HN) as (Hc & Hf & Hr & _).
  destruct (exec_retained evs l) as [_ E].
  assert (E0 : retained l = []) by (unfold retained; now rewrite Hc, Hf, Hr).
  rewrite E0 in E. cbn [app] in E.
  assert (H : retained (exec evs l) = logged evs).
  { apply E; try assumption. rewrite Hc. unfold len. cbn. lia. }
  split; [exact H|].
  intros R Q. rewrite <- H. unfold retained. rewrite R, Q. cbn [in_hand].
  now rewrite !app_nil_r.
Qed.

Lemma records_keep_their_order_witness :
  exists l, New "fail.csv" 1 = Ok (Some l) /\
    let rec op := {| Timestamp := 0; Operation := op; Username := "u";
                     DN := "dn"; Filter := ""; Error := "e" |} in
    subseq
      (persisted (file (exec [EvOpen true; EvLog (rec "lookup"%string);
                              EvLog (rec "bind"%string); EvRecv; EvRecv] l)))
      [rec "lookup"%string; rec "bind"%string].
Proof.
  destruct (New "fail.csv" 1) as [[l|]|] eqn:E; try discriminate.
  exists l. split; [reflexivity|]. intros rec.
  exact (proj2 (records_keep_their_order "fail.csv" 1 l
                  [EvOpen true; EvLog (rec "lookup"%string); EvLog (rec "bind"%string);
                   EvRecv; EvRecv] E)).
Defined.

(** The package's test: two records, then [Close]. *)
Lemma no_record_lost_within_capacity_witness :
  exists l, New "fail.csv" 2 = Ok (Some l) /\
    let rec op := {| Timestamp := 0; Operation := op; Username := "u";
                     DN := "dn"; Filter := ""; Error := "e" |} in
    persisted (file (exec [EvLog (rec "lookup"%string); EvOpen true;
                           EvLog (rec "bind"%string); EvCloseStop; EvStop; EvRecv;
                           EvRecv; EvEmpty] l))
    = [rec "lookup"%string; rec "bind"%string].
Proof.
  destruct (New "fail.csv" 2) as [[l|]|] eqn:E; try discriminate.
  exists l. split; [reflexivity|]. intros rec.
  refine (proj2 (no_record_lost_within_capacity "fail.csv" 2 l
                   [EvLog (rec "lookup"%string); EvOpen true; EvLog (rec "bind"%string);
                    EvCloseStop; EvStop; EvRecv; EvRecv; EvEmpty] E _ _ _)
            _ _);
    inversion E; subst l.
  - vm_compute. discriminate.
  - vm_compute. reflexivity.
  - vm_compute. discriminate.
  - vm_compute. reflexivity.
  - vm_compute. reflexivity.
Defined.

End LoggerMore.

(** ** Connection pool, further *)

Module PoolMore.

Import GoInt LdapClient PoolAccount.

Lemma fire_tracked (ev : event) (s : shared) :
  tracked s -> tracked (snd (fire ev s)).
Proof.
  unfold tracked. intros [H1 H]. destruct ev as [dial_ok|l err]; cbn [fire].
  - unfold getConn. destruct (pool (cl s)) as [|h0 rest] eqn:P.
    + destruct dial_ok; cbn;
        [|split; [exact H1|]; intros h; rewrite P; apply H].
      split; [lia|]. intros h. destruct (H h) as [Hf Hb]. cbn in Hf, Hb.
      rewrite P. cbn [In]. split.
      * intros Hh. destruct (Nat.eq_dec h (dialed (cl s))) as [->|Hne];
          [right; left; now left|].
        assert (Hlt : (1 <= h < dialed (cl s))%nat) by lia.
        destruct (Hf Hlt) as [[]|[Hx|Hx]]; auto.
      * intros [[]|[[<-|Hx]|Hx]]; [lia| |].
        -- assert ((1 <= h < dialed (cl s))%nat) by (apply Hb; auto). lia.
        -- assert ((1 <= h < dialed (cl s))%nat) by (apply Hb; auto). lia.
    + cbn. split; [exact H1|]. intros h. rewrite (H h). cbn. tauto.
  - destruct (existsb (Nat.eqb l) (held s)) eqn:E; [|now split].
    apply PoolFacts.held_dec in E.
    assert (Hrm : forall h, In h (List.remove Nat.eq_dec l (held s))
                            <-> In h (held s) /\ h <> l).
    { intros h. split; [apply in_remove|]. intros [? ?].
      now apply in_in_remove. }
    unfold putConn.
    destruct err as [e|];
      [|destruct (len (pool (cl s)) <? pool_cap (cl s))];
      cbn; (split; [exact H1|]); intros h; rewrite (H h), Hrm;
      rewrite ?in_app_iff; cbn;
      destruct (Nat.eq_dec h l) as [->|Hne]; intuition congruence.
Qed.

Lemma exec_tracked (evs : list event) (s : shared) :
  tracked s -> tracked (exec evs s).
Proof.
  revert s. induction evs as [|ev evs IH]; intros s H; [exact H|].
  cbn [exec]. apply IH. now apply fire_tracked.
Qed.

(** X11. No connection is lost track of: at any time every user connection
    dialed since [New] is in exactly one place, idle in the pool, on loan to
    a call, or closed. *)
Theorem every_connection_accounted_for (cfg : Config.Config) (c0 : client)
  (evs : list event) (h : Conn) :
  New cfg true = Some c0 ->
  let s := exec evs (start c0) in
  ((1 <= h < dialed (cl s))%nat <->
   In h (pool (cl s)) \/ In h (held s) \/ In h (closed (cl s))) /\
  (In h (pool (cl s)) -> ~ In h (held s) /\ ~ In h (closed (cl s))) /\
  (In h (held s) -> ~ In h (closed (cl s))).
Proof.
  intros HN s.
  destruct (PoolFacts.New_empty cfg c0 HN) as (Hp & Hc & _).
  assert (Hs : consistent s)
    by (apply PoolFacts.exec_consistent, PoolFacts.start_consistent;
        assumption).
  assert (Hd0 : dialed c0 = 1%nat) by (unfold New in HN; now inversion HN).
  assert (Ht : tracked s).
  { apply exec_tracked. split; cbn; rewrite Hd0; [lia|].
    intros x. rewrite Hp, Hc. cbn. split; [lia|tauto]. }
  destruct Ht as [_ Ht]. destruct Hs as [ND PH CG AD].
  split; [apply Ht|]. split.
  - intros Hin. split; [now apply PH|]. intros Hx.
    destruct (CG h Hx) as [C1 _]. now apply C1.
  - intros Hin Hx. destruct (CG h Hx) as [_ C2]. now apply C2.
Qed.

Lemma every_connection_accounted_for_witness :
  let cfg := {| Config.Mode_ := Config.ModeAuth; Config.Filter := "";
                Config.Concurrency := 1; Config.Connections := 1;
                Config.FailLogPath := ""; Config.FailLogBatch := 256 |} in
  exists c0, New cfg true = Some c0 /\
    let s := exec [Borrow true; Borrow true; GiveBack 1%nat None;
                   GiveBack 2%nat None; Borrow true] (start c0) in
    ~ In 2%nat (held s) /\ ~ In 2%nat (pool (cl s)).
Proof.
  intros cfg. eexists. split; [reflexivity|].
  pose proof (every_connection_accounted_for cfg _
                [Borrow true; Borrow true; GiveBack 1%nat None;
                 GiveBack 2%nat None; Borrow true] 2%nat eq_refl)
    as (_ & _ & H).
  cbv zeta. split.
  - intros Hh. apply (H Hh). vm_compute. now left.
  - vm_compute. intros [].
Defined.

(** *** Reuse *)

(** X12. The pool is a queue: a connection given back without error while
    there is room is handed out again after the connections that were idle
    before it, and at once when none was; in neither case is a connection
    dialed. *)
Theorem pool_is_first_in_first_out (c : client) (h : Conn) (dial_ok : bool) :
  len (pool c) < pool_cap c ->
  let '(got, c') := getConn (putConn c (Some h) None) dial_ok in
  got = Some (hd h (pool c)) /\
  pool c' = tl (pool c ++ [h]) /\
  dialed c' = dialed c /\ closed c' = closed c /\
  (pool c = [] -> got = Some h /\ c' = c).
Proof.
  intros Hroom. unfold putConn.
  destruct (Z.ltb_spec (len (pool c)) (pool_cap c)); [|lia].
  unfold getConn. cbn [pool with_pool].
  destruct (pool c) as [|h0 rest] eqn:P; cbn [app hd tl].
  - split; [reflexivity|]. split; [reflexivity|]. split; [reflexivity|].
    split; [reflexivity|]. intros _. split; [reflexivity|].
    destruct c; cbn in *. now subst.
  - split; [reflexivity|]. split; [reflexivity|]. split; [reflexivity|].
    split; [reflexivity|]. discriminate.
Qed.

Lemma pool_is_first_in_first_out_witness :
  let c := {| cfg := RunnerTest.config Config.ModeAuth "";
              conn := Some 0%nat; pool := [3%nat; 1%nat]; pool_cap := 4;
              dialed := 5%nat; closed := [2%nat] |} in
  fst (getConn (putConn c (Some 4%nat) None) false) = Some 3%nat /\
  pool (snd (getConn (putConn c (Some 4%nat) None) false)) = [1%nat; 4%nat].
Proof.
  intros c.
  assert (Hroom : len (pool c) < pool_cap c) by (vm_compute; reflexivity).
  pose proof (pool_is_first_in_first_out c 4%nat false Hroom) as H.
  cbv in H. destruct H as (H1 & H2 & _). split; [exact H1|exact H2].
Defined.

(** X13. [UserBind] on a pool that holds an idle connection dials nothing.
    It binds on the oldest idle connection; when the bind succeeds that
    connection goes to the back of the pool, and when it fails the
    connection is closed and the pool is one shorter. *)
Theorem UserBind_reuses_idle_connection (c : client) (h : Conn)
  (rest : list Conn) (dial_ok : bool) (bind : Conn -> error) :
  pool c = h :: rest -> len (pool c) <= pool_cap c ->
  let '(err, c') := UserBind c dial_ok bind in
  err = bind h /\ dialed c' = dialed c /\
  (bind h = None -> pool c' = rest ++ [h] /\ closed c' = closed c) /\
  (bind h <> None -> pool c' = rest /\ closed c' = h :: closed c).
Proof.
  intros P Hcap. unfold UserBind, getConn. rewrite P.
  assert (Hroom : len rest < pool_cap c).
  { rewrite P in Hcap. unfold len in *. cbn [List.length] in Hcap. lia. }
  unfold putConn. destruct (bind h) as [e|] eqn:B; cbn.
  - repeat split; congruence.
  - destruct (Z.ltb_spec (len rest) (pool_cap c)); [|lia]. cbn.
    repeat split; congruence.
Qed.

Lemma UserBind_reuses_idle_connection_witness :
  let c := {| cfg := RunnerTest.config Config.ModeAuth "";
              conn := Some 0%nat; pool := [3%nat; 1%nat]; pool_cap := 2;
              dialed := 5%nat; closed := [] |} in
  pool (snd (UserBind c true (fun _ => None))) = [1%nat; 3%nat] /\
  dialed (snd (UserBind c true (fun _ => None))) = 5%nat.
Proof.
  intros c.
  assert (Hcap : len (pool c) <= pool_cap c) by (vm_compute; discriminate).
  pose proof (UserBind_reuses_idle_connection c 3%nat [1%nat] true
                (fun _ => None) eq_refl Hcap) as H.
  cbv in H. destruct H as (_ & H2 & H3 & _).
  split; [exact (proj1 (H3 eq_refl))|exact H2].
Defined.

(** *** Shutdown *)

Import LdapShutdown.

Lemma close_all (p : list Conn) :
  forall b : client,
    closed (fold_left close_conn p b) = rev p ++ closed b /\
    pool (fold_left close_conn p b) = pool b /\
    dialed (fold_left close_conn p b) = dialed b /\
    conn (fold_left close_conn p b) = conn b /\
    pool_cap (fold_left close_conn p b) = pool_cap b.
Proof.
  induction p as [|h p IH]; intros b; [now repeat split|].
  cbn [fold_left rev]. destruct (IH (close_conn b h)) as (C & P & D & L & K).
  rewrite C, P, D, L, K. cbn. rewrite <- app_assoc. now repeat split.
Qed.

(** X14. [Close] on a client whose pool channel is open closes the lookup
    connection and every idle connection and leaves the pool empty; it dials
    nothing and closes nothing else. *)
Theorem Close_closes_what_is_idle (c : client) :
  exists c',
    LdapShutdown.Close (opened c) = Ok c' /\
    pool_closed c' = true /\
    conn (base c') = None /\ pool (base c') = [] /\
    dialed (base c') = dialed c /\
    (forall h, In h (closed (base c')) <->
               In h (closed c) \/ In h (pool c) \/ conn c = Some h).
Proof.
  unfold LdapShutdown.Close. cbn [opened base pool_closed].
  destruct (conn c) as [l0|] eqn:L; cbn [pool];
    match goal with
    | |- context [fold_left close_conn (pool c) ?b] =>
        destruct (close_all (pool c) b) as (C & P & D & L' & K)
    end;
    (eexists; split; [reflexivity|]);
    cbn [pool_closed base with_pool conn pool dialed closed];
    rewrite C, D, L'; cbn [conn dialed closed]; rewrite ?L;
    (split; [reflexivity|]); (split; [reflexivity|]);
    (split; [reflexivity|]); (split; [reflexivity|]);
    intros h; rewrite in_app_iff, <- in_rev; cbn [In];
    intuition congruence.
Qed.

(** X15. After [Close] the client is of no further use: a second [Close]
    panics, [getConn] returns nil without dialing, so that [UserBind] fails
    with "no connection available", and giving back a healthy connection
    panics, the pool channel being closed. *)
Theorem after_Close_nothing_works (c : client) (c' : closable)
  (dial_ok : bool) (bind : Conn -> error) (h : Conn) :
  LdapShutdown.Close (opened c) = Ok c' ->
  LdapShutdown.Close c' = Panic "close of closed channel" /\
  LdapShutdown.getConn c' dial_ok = (None, c') /\
  LdapShutdown.UserBind c' dial_ok bind
  = Ok (Some "no connection available"%string, c') /\
  LdapShutdown.putConn c' (Some h) None = Panic "send on closed channel".
Proof.
  intros HC.
  assert (H : pool_closed c' = true /\ pool (base c') = []).
  { unfold LdapShutdown.Close in HC. cbn [opened base pool_closed] in HC.
    inversion HC. now split. }
  destruct H as [Hpc Hp].
  unfold LdapShutdown.Close, LdapShutdown.UserBind, LdapShutdown.getConn,
    LdapShutdown.putConn.
  rewrite Hpc, Hp. repeat split.
Qed.

Lemma after_Close_nothing_works_witness :
  let c := {| cfg := RunnerTest.config Config.ModeAuth "";
              conn := Some 0%nat; pool := [3%nat; 1%nat]; pool_cap := 2;
              dialed := 5%nat; closed := [2%nat] |} in
  exists c',
    LdapShutdown.Close (opened c) = Ok c' /\
    closed (base c') = [1%nat; 3%nat; 0%nat; 2%nat] /\
    LdapShutdown.UserBind c' true (fun _ => None)
    = Ok (Some "no connection available"%string, c').
Proof.
  intros c. eexists. split; [reflexivity|]. split; [reflexivity|].
  exact (proj1 (proj2 (proj2
           (after_Close_nothing_works c _ true (fun _ => None) 4%nat
              eq_refl)))).
Defined.

End PoolMore.

(** ** One iteration of the runner, further *)

Module RunnerMore.

Import Runner Iteration.
Open Scope string_scope.

(** Splits on what the client answers and on the mode. *)
Ltac by_answers r user :=
  unfold all_went_well, known_mode, lookup_error, bind_error, search_error, dn,
    runOnce, bind_phase, search_phase, failed;
  destruct (LookupDN (client r) (Username user)) as [d [e|]]; cbn [fst snd];
  generalize (Config.Mode_ (cfg r)); intros mode;
  [|destruct (String.eqb_spec mode Config.ModeAuth);
    [|destruct (String.eqb_spec mode Config.ModeSearch);
      [|destruct (String.eqb_spec mode Config.ModeBoth)]]];
  try subst mode;
  unfold Config.ModeAuth, Config.ModeSearch, Config.ModeBoth in *.

(** Closes the goals about a list of actions that is laid out. *)
Ltac settle :=
  cbn [In filter List.length app fst snd] in *; repeat split; intros;
  repeat match goal with
         | H : _ \/ _ |- _ => destruct H
         | H : False |- _ => destruct H
         | H : ActLog _ = ActLog _ |- _ => inversion H; subst; clear H
         | H : @eq action _ _ |- _ => discriminate H
         end;
  cbn [Fail.Timestamp Fail.Operation Fail.Username Fail.DN Fail.Filter
       Fail.Error] in *;
  try lia; try congruence; try discriminate;
  try (intuition (discriminate || congruence));
  eauto 10.

Section OneIteration.

Variable fmt_other : string -> list string -> string.

(** X16. An iteration counts a success exactly when the lookup and the
    operations of the configured mode all return without error (the bind in
    mode auth, the search in mode search, the bind and then the search in
    mode both), and a failure in every other case; in mode search the
    runner's own bind is never consulted. In a mode that is none of the
    three, the iteration counts a failure and no success, whatever the
    lookup returned. *)
Theorem success_needs_every_operation (r : Runner) (user : User) (now : Z) :
  let acts := runOnce fmt_other r user now in
  (In ActSuccess acts <-> all_went_well fmt_other r user) /\
  (In ActFail acts <-> ~ all_went_well fmt_other r user) /\
  (~ known_mode r -> In ActFail acts /\ ~ In ActSuccess acts).
Proof.
  cbv zeta.
  assert (H : (In ActSuccess (runOnce fmt_other r user now)
               <-> all_went_well fmt_other r user) /\
              (In ActFail (runOnce fmt_other r user now)
               <-> ~ all_went_well fmt_other r user)).
  { cbv zeta. by_answers r user.
    - destruct (flog r); cbn [In]; split; split;
        intuition (discriminate || congruence).
    - destruct (UserBind (client r) d (Password user)) as [e|];
        destruct (flog r); cbn [In]; split; split;
        intuition (discriminate || congruence).
    - destruct (UserSearch (client r) d (Password user) _) as [cnt [e|]];
        destruct (flog r); cbn [In snd]; split; split;
        intuition (discriminate || congruence).
    - destruct (UserBind (client r) d (Password user)) as [e|];
        [|destruct (UserSearch (client r) d (Password user) _) as [cnt [e|]]];
        destruct (flog r); cbn [In snd]; split; split;
        intuition (discriminate || congruence).
    - cbn [In]; split; split; intuition (discriminate || congruence). }
  destruct H as [H1 H2]. split; [exact H1|]. split; [exact H2|].
  intros Hk.
  assert (Hn : ~ all_went_well fmt_other r user).
  { intros (_ & [[E _]|[[E _]|[E _]]]); apply Hk; unfold known_mode;
      cbv zeta; auto. }
  split; [now apply H2|]. intros Hs. apply Hn. now apply H1.
Qed.

(** X17. An iteration passes at most one record to the failure logger,
    and only with a logger attached and a failure counted. The record
    carries the time, the username and the error of the operation that
    failed, named lookup, bind or search; the DN is empty for a lookup and
    the filter is set for a search only. With a logger attached every
    failed operation is logged; the unknown mode prints a line and logs
    nothing. *)
Theorem failed_operation_is_logged_once (r : Runner) (user : User) (now : Z) :
  let acts := runOnce fmt_other r user now in
  let d := dn r user in
  (forall rec, In (ActLog rec) acts ->
     flog r = true /\ In ActFail acts /\
     Fail.Timestamp rec = now /\ Fail.Username rec = Username user /\
     ((Fail.Operation rec = "lookup" /\ Fail.DN rec = "" /\
       Fail.Filter rec = "" /\ lookup_error r user = Some (Fail.Error rec)) \/
      (Fail.Operation rec = "bind" /\ Fail.DN rec = d /\
       Fail.Filter rec = "" /\ bind_error r user = Some (Fail.Error rec)) \/
      (Fail.Operation rec = "search" /\ Fail.DN rec = d /\
       Fail.Filter rec = prepareFilter fmt_other r (Username user) /\
       search_error fmt_other r user = Some (Fail.Error rec)))) /\
  (List.length
     (filter (fun a => match a with ActLog _ => true | _ => false end) acts)
   <= 1)%nat /\
  (flog r = true -> In ActFail acts ->
   lookup_error r user <> None \/ known_mode r ->
   exists rec, In (ActLog rec) acts) /\
  (forall s, In (ActPrintln s) acts ->
     s = "unknown mode" /\ lookup_error r user = None /\ ~ known_mode r /\
     forall rec, ~ In (ActLog rec) acts).
Proof.
  cbv zeta. by_answers r user.
  - destruct (flog r); settle.
  - destruct (UserBind (client r) d (Password user)) as [e|];
      destruct (flog r); settle.
  - destruct (UserSearch (client r) d (Password user) _) as [cnt [e|]];
      destruct (flog r); settle.
  - destruct (UserBind (client r) d (Password user)) as [e|];
      [|destruct (UserSearch (client r) d (Password user) _) as [cnt [e|]]];
      destruct (flog r); settle.
  - settle.
Qed.

Lemma prints_only_in_unknown_mode (r : Runner) (user : User) (now : Z)
  (s : string) :
  In (ActPrintln s) (runOnce fmt_other r user now) -> ~ known_mode r.
Proof.
  by_answers r user.
  - destruct (flog r); settle.
  - destruct (UserBind (client r) d (Password user)) as [e|];
      destruct (flog r); settle.
  - destruct (UserSearch (client r) d (Password user) _) as [cnt [e|]];
      destruct (flog r); settle.
  - destruct (UserBind (client r) d (Password user)) as [e|];
      [|destruct (UserSearch (client r) d (Password user) _) as [cnt [e|]]];
      destruct (flog r); settle.
  - settle.
Qed.

(** X18. A configuration that [Parse] accepts has one of the three modes, a
    base DN, lookup credentials unless SASL/EXTERNAL is chosen, and at least
    one worker and one connection per worker. With it the runner never
    reaches its unknown-mode branch, and the pool of the client gets
    capacity concurrency x connections exactly (the product fitting an
    int). *)
Theorem accepted_configuration_is_sound (fl : ConfigParse.Flags)
  (cfg : Config.Config) :
  ConfigParse.Parse fl = Good cfg ->
  (Config.Mode_ cfg = Config.ModeAuth \/ Config.Mode_ cfg = Config.ModeSearch
   \/ Config.Mode_ cfg = Config.ModeBoth) /\
  ConfigParse.BaseDN fl <> "" /\
  (ConfigParse.SaslExternal fl = false ->
   ConfigParse.LookupBindDN fl <> "" /\ ConfigParse.LookupBindPass fl <> "") /\
  1 <= Config.Concurrency cfg /\ 1 <= Config.Connections cfg /\
  (forall r user now s,
     Runner.cfg r = cfg ->
     ~ In (ActPrintln s) (runOnce fmt_other r user now)) /\
  (forall c,
     LdapClient.New cfg true = Some c ->
     Config.Concurrency cfg * Config.Connections cfg <= GoInt.max_int ->
     LdapClient.pool_cap c
     = Config.Concurrency cfg * Config.Connections cfg).
Proof.
  unfold ConfigParse.Parse.
  destruct (String.eqb_spec (ConfigParse.mode fl) Config.ModeAuth) as [Ea|Na];
    [|destruct (String.eqb_spec (ConfigParse.mode fl) Config.ModeSearch)
        as [Es|Ns];
      [|destruct (String.eqb_spec (ConfigParse.mode fl) Config.ModeBoth)
          as [Eb|Nb]; [|discriminate]]];
    cbn [orb negb];
    (destruct (String.eqb_spec (ConfigParse.BaseDN fl) "") as [|Hb];
     [discriminate|]);
    (destruct (ConfigParse.SaslExternal fl) eqn:Sx; cbn [negb andb];
     [|destruct (String.eqb_spec (ConfigParse.LookupBindDN fl) "") as [|Hd];
       [discriminate|];
       destruct (String.eqb_spec (ConfigParse.LookupBindPass fl) "") as [|Hp];
       [discriminate|]; cbn [orb]]);
    (destruct (Z.leb_spec (ConfigParse.concurrency fl) 0) as [|Hc];
     [discriminate|]);
    (destruct (Z.leb_spec (ConfigParse.connections fl) 0) as [|Hn];
     [discriminate|]);
    cbn [orb]; intros HG; inversion HG; subst cfg; clear HG;
    cbn [Config.Mode_ Config.Concurrency Config.Connections];
    (assert (Hk : forall r : Runner,
               Runner.cfg r
               = {| Config.Mode_ := ConfigParse.mode fl;
                    Config.Filter := ConfigParse.filter fl;
                    Config.Concurrency := ConfigParse.concurrency fl;
                    Config.Connections := ConfigParse.connections fl;
                    Config.FailLogPath := ConfigParse.fail_log fl;
                    Config.FailLogBatch := ConfigParse.fail_batch fl |} ->
               known_mode r)
       by (intros r Hr; unfold known_mode; rewrite Hr; cbn; tauto));
    (split; [tauto|]); (split; [exact Hb|]);
    (split; [intros; try discriminate; try (split; assumption)|]);
    (split; [lia|]); (split; [lia|]);
    (split;
     [intros r user now s Hr Hin;
      exact (prints_only_in_unknown_mode r user now s Hin (Hk r Hr))|]);
    intros c HN Hfit; unfold LdapClient.New in HN; inversion HN;
    cbn [LdapClient.pool_cap Config.Concurrency Config.Connections];
    unfold GoInt.mul;
    (rewrite GoIntFacts.wrap64_small
       by (unfold GoInt.min_int, GoInt.max_int in *; nia));
    (destruct (Z.ltb_spec
                 (ConfigParse.concurrency fl * ConfigParse.connections fl) 1);
     [nia|reflexivity]).
Qed.

End OneIteration.

(** The defaults of the command line with a base DN and credentials. *)
Lemma accepted_configuration_is_sound_witness :
  let fl := {| ConfigParse.mode := "auth";
               ConfigParse.filter := "(objectClass=person)";
               ConfigParse.BaseDN := "dc=example,dc=org";
               ConfigParse.LookupBindDN := "cn=svc";
               ConfigParse.LookupBindPass := "pw";
               ConfigParse.SaslExternal := false;
               ConfigParse.concurrency := 32; ConfigParse.connections := 1;
               ConfigParse.fail_log := ""; ConfigParse.fail_batch := 256 |} in
  exists cfg, ConfigParse.Parse fl = Good cfg /\
    forall c, LdapClient.New cfg true = Some c -> LdapClient.pool_cap c = 32.
Proof.
  intros fl. eexists. split; [reflexivity|]. intros c HN.
  refine (proj2 (proj2 (proj2 (proj2 (proj2 (proj2
           (accepted_configuration_is_sound (fun _ _ => "") fl _ eq_refl))))))
            c HN _).
  vm_compute. discriminate.
Defined.

End RunnerMore.

(** ** Filters with several placeholders *)

Module FilterMore.

Import Fmt Placeholders.
Open Scope string_scope.

Section Fill.

Variable fmt_other : string -> list string -> string.

Lemma fill_printf_aux (n : nat) :
  forall f : string,
    (String.length f <= n)%nat -> only_placeholders f = true ->
    doPrintf fmt_other f [] = fill f [] /\
    (forall u, Contains f "%s" = true ->
               doPrintf fmt_other f [u] = fill f [u]) /\
    (forall a, Contains f "%s" = false -> fill f a = f).
Proof.
  induction n as [|n IH]; intros f Hlen Hok.
  - destruct f; [|cbn in Hlen; lia]. repeat split; intros; discriminate.
  - destruct f as [|c rest]; [repeat split; intros; discriminate|].
    cbn [String.length] in Hlen. cbn [only_placeholders] in Hok.
    cbn [doPrintf fill Contains].
    rewrite FilterFacts.prefix_placeholder.
    destruct (is_percent c) eqn:Ec.
    + destruct rest as [|d rest']; [discriminate|].
      apply andb_prop in Hok. destruct Hok as [Ed Hok].
      apply Ascii.eqb_eq in Ed. subst d. cbn [String.length] in Hlen.
      destruct (IH rest' ltac:(lia) Hok) as (I0 & I1 & I2).
      change (is_percent "s") with false.
      change (starts_complex_directive "s") with false.
      cbn [andb orb Ascii.eqb Bool.eqb]. rewrite I0.
      repeat split; try reflexivity; intros; discriminate.
    + destruct (IH rest ltac:(lia) Hok) as (I0 & I1 & I2).
      cbn [andb orb]. rewrite I0.
      destruct rest as [|d rest'].
      * repeat split; intros; try reflexivity; discriminate.
      * repeat split; intros.
        -- now rewrite I1.
        -- now rewrite I2.
Qed.

(** X19. On a filter text whose percent signs all start a placeholder,
    [prepareFilter] puts the username in place of the first placeholder and
    the text %!s(MISSING) in place of every later one; a text without any
    percent sign comes out as it is. *)
Theorem prepareFilter_fills_the_first_placeholder (r : Runner.Runner)
  (u : string) :
  only_placeholders (Config.Filter (Runner.cfg r)) = true ->
  Runner.prepareFilter fmt_other r u = fill (Config.Filter (Runner.cfg r)) [u].
Proof.
  intros Hok. unfold Runner.prepareFilter, Sprintf.
  destruct (fill_printf_aux _ _ (le_n _) Hok) as (_ & I1 & I2).
  destruct (Contains _ "%s") eqn:Hc; [now apply I1|].
  symmetry. now apply I2.
Qed.

End Fill.

Lemma prepareFilter_fills_the_first_placeholder_witness :
  Runner.prepareFilter (fun _ _ => "")
    (RunnerTest.runner_with_filter "(&(uid=%s)(|(cn=%s)(mail=%s)))") "alice"
  = "(&(uid=alice)(|(cn=%!s(MISSING))(mail=%!s(MISSING))))".
Proof.
  exact (prepareFilter_fills_the_first_placeholder (fun _ _ => "")
           (RunnerTest.runner_with_filter "(&(uid=%s)(|(cn=%s)(mail=%s)))")
           "alice" eq_refl).
Defined.

End FilterMore.

(** ** Loading the credentials *)

Module CsvFacts.

Import Csvdata CsvHeader.
Open Scope string_scope.

Section Strings.

Variable TrimSpace : string -> string.
Variable ToLower : string -> string.
Variable TrimRight : string -> string -> string.
Variable EqualFold : string -> string -> bool.

#[local] Notation "'has'" := (has_column TrimSpace ToLower).
#[local] Notation "'last'" := (last_column TrimSpace ToLower).
#[local] Notation "'indices'" := (header_indices TrimSpace ToLower).
#[local] Notation "'rows'" := (load_rows TrimSpace TrimRight EqualFold).
#[local] Notation "'load'" := (Load TrimSpace ToLower TrimRight EqualFold).

Lemma has_cons (name : string) (h : list string) (col : string) :
  has (name :: h) col <-> TrimSpace (ToLower name) = col \/ has h col.
Proof.
  unfold has_column. split.
  - intros (x & [<-|Hx] & E); [now left|right; now exists x].
  - intros [E|(x & Hx & E)]; [exists name|exists x]; cbn; auto.
Qed.

(** An index is set exactly when its column occurs. *)
Lemma indices_spec (h : list string) :
  forall (i u p ok : Z),
    let '(u', p', ok') := indices h i (u, p, ok) in
    (0 <= i -> 0 <= u' <-> 0 <= u \/ has h "username") /\
    (0 <= i -> 0 <= p' <-> 0 <= p \/ has h "password") /\
    (0 <= i -> 0 <= ok' <-> 0 <= ok \/ has h "expected_ok").
Proof.
  induction h as [|name h IH]; intros i u p ok.
  - cbn [header_indices]. unfold has_column.
    repeat split; intros; auto; firstorder.
  - cbn [header_indices].
    destruct (String.eqb_spec (TrimSpace (ToLower name)) "username") as [E|N].
    + specialize (IH (i + 1)%Z i p ok).
      destruct (indices h (i + 1)%Z (i, p, ok)) as [[u' p'] ok'].
      destruct IH as (A & B & C). rewrite !has_cons, E.
      repeat split; intros;
             (assert (Hi : (0 <= i + 1)%Z) by lia);
             specialize (A Hi); specialize (B Hi); specialize (C Hi);
             intuition (try discriminate; try lia).
    + destruct (String.eqb_spec (TrimSpace (ToLower name)) "password")
        as [E|N'].
      * specialize (IH (i + 1)%Z u i ok).
        destruct (indices h (i + 1)%Z (u, i, ok)) as [[u' p'] ok'].
        destruct IH as (A & B & C). rewrite !has_cons, E.
        repeat split; intros;
             (assert (Hi : (0 <= i + 1)%Z) by lia);
             specialize (A Hi); specialize (B Hi); specialize (C Hi);
             intuition (try discriminate; try lia).
      * destruct (String.eqb_spec (TrimSpace (ToLower name)) "expected_ok")
          as [E|N''].
        -- specialize (IH (i + 1)%Z u p i).
           destruct (indices h (i + 1)%Z (u, p, i)) as [[u' p'] ok'].
           destruct IH as (A & B & C). rewrite !has_cons, E.
           repeat split; intros;
             (assert (Hi : (0 <= i + 1)%Z) by lia);
             specialize (A Hi); specialize (B Hi); specialize (C Hi);
             intuition (try discriminate; try lia).
        -- specialize (IH (i + 1)%Z u p ok).
           destruct (indices h (i + 1)%Z (u, p, ok)) as [[u' p'] ok'].
           destruct IH as (A & B & C). rewrite !has_cons.
           repeat split; intros;
             (assert (Hi : (0 <= i + 1)%Z) by lia);
             specialize (A Hi); specialize (B Hi); specialize (C Hi);
             intuition (try discriminate; try lia).
Qed.

Lemma rows_spec (iu ip iok : Z) (reads : list read) :
  forall acc : list User,
    (Forall is_row reads ->
     exists more, rows iu ip iok reads acc = Good (acc ++ more)%list /\
                  (List.length more <= List.length reads)%nat /\
                  Forall (fun u => ExpectedOK u = (0 <=? iok)%Z) more) /\
    (~ Forall is_row reads -> exists err, rows iu ip iok reads acc = Bad err).
Proof.
  induction reads as [|rd reads IH]; intros acc.
  - split.
    + intros _. exists []. rewrite app_nil_r. repeat split; auto.
    + intros H. exfalso. apply H. constructor.
  - destruct rd as [rec|err]; cbn [load_rows].
    + match goal with
      | |- context [rows iu ip iok reads ?a] =>
          destruct (IH a) as [I1 I2]
      end.
      split.
      * intros Hall. inversion Hall; subst.
        destruct (I1 ltac:(assumption)) as (more & E & Hl & Hf).
        unfold row_user in *.
        destruct ((GoInt.len rec <=? iu)%Z || (GoInt.len rec <=? ip)%Z).
        -- exists more. repeat split; auto. cbn [List.length]. lia.
        -- destruct (0 <=? iok)%Z eqn:Eok.
           ++ destruct (EqualFold _ "true").
              ** eexists (_ :: more). rewrite E, <- app_assoc.
                 repeat split; [cbn [List.length]; lia|].
                 constructor; [reflexivity|exact Hf].
              ** exists more. repeat split; auto. cbn [List.length]. lia.
           ++ eexists (_ :: more). rewrite E, <- app_assoc.
              repeat split; [cbn [List.length]; lia|].
              constructor; [reflexivity|exact Hf].
      * intros Hn. apply I2. intros Hall. apply Hn.
        constructor; [exact I|exact Hall].
    + split.
      * intros Hall. inversion Hall; subst. contradiction.
      * intros _. now exists err.
Qed.

Lemma all_rows_or_not (reads : list read) :
  Forall is_row reads \/ ~ Forall is_row reads.
Proof.
  induction reads as [|rd reads [IH|IH]].
  - left. constructor.
  - destruct rd as [rec|err].
    + left. constructor; [exact I|exact IH].
    + right. intros H. inversion H; subst. contradiction.
  - right. intros H. inversion H; subst. contradiction.
Qed.

(** X20. Given a header, [Load] succeeds exactly when the header names a
    username and a password column (in any letter case, with spaces around)
    and every later read of the file succeeds; without one of the two
    columns it fails with the header message whatever the rows are. *)
Theorem Load_needs_both_columns (h : list string) (reads : list read) :
  ((exists users, load (Good (Row h :: reads)) = Good users) <->
   has h "username" /\ has h "password" /\ Forall is_row reads) /\
  (~ (has h "username" /\ has h "password") ->
   load (Good (Row h :: reads))
   = Bad "csv must have username,password headers").
Proof.
  unfold Load. pose proof (indices_spec h 0 (-1) (-1) (-1)) as S.
  destruct (indices h 0%Z (-1, -1, -1)%Z) as [[iu ip] iok].
  destruct S as (A & B & _).
  specialize (A ltac:(lia)). specialize (B ltac:(lia)).
  destruct (rows_spec iu ip iok reads []) as [R1 R2].
  destruct (Z.ltb_spec iu 0) as [Hu|Hu]; cbn [orb].
  - split; [|reflexivity]. split; [intros [? ?]; discriminate|].
    intros (Hh & _). exfalso. assert (0 <= iu)%Z by (apply A; auto). lia.
  - destruct (Z.ltb_spec ip 0) as [Hp|Hp].
    + split; [|reflexivity]. split; [intros [? ?]; discriminate|].
      intros (_ & Hh & _). exfalso.
      assert (0 <= ip)%Z by (apply B; auto). lia.
    + assert (Hhu : has h "username")
        by (destruct (proj1 A Hu) as [?|?]; [lia|assumption]).
      assert (Hhp : has h "password")
        by (destruct (proj1 B Hp) as [?|?]; [lia|assumption]).
      split; [|intros Hn; exfalso; apply Hn; now split].
      split.
      * intros [users E]. repeat split; try assumption.
        destruct (all_rows_or_not reads) as [Hall|Hn]; [exact Hall|].
        exfalso. destruct (R2 Hn) as [err E']. congruence.
      * intros (_ & _ & Hall). destruct (R1 Hall) as (more & E & _).
        now exists more.
Qed.

Lemma has_or_not (h : list string) (col : string) :
  has h col \/ ~ has h col.
Proof.
  induction h as [|name h [IH|IH]].
  - right. intros (x & [] & _).
  - left. apply has_cons. now right.
  - destruct (String.eqb_spec (TrimSpace (ToLower name)) col) as [E|N].
    + left. apply has_cons. now left.
    + right. intros H. apply has_cons in H. tauto.
Qed.

Lemma field_cons (name : string) (h : list string) (z : Z) :
  (0 <= z)%Z -> field (name :: h) (z + 1) = field h z.
Proof.
  intros Hz. unfold field.
  replace (Z.to_nat (z + 1)) with (S (Z.to_nat z)) by lia. reflexivity.
Qed.

Lemma field_in (h : list string) (z : Z) :
  (0 <= z < GoInt.len h)%Z -> In (field h z) h.
Proof.
  unfold field, GoInt.len. intros Hz. apply nth_In. lia.
Qed.

Lemma len_cons (name : string) (h : list string) :
  GoInt.len (name :: h) = (GoInt.len h + 1)%Z.
Proof. unfold GoInt.len. cbn [List.length]. lia. Qed.

Lemma last_column_shift (name : string) (h : list string) (i : Z)
  (col : string) (k : Z) :
  last h (i + 1)%Z col k -> last (name :: h) i col k.
Proof.
  unfold last_column. rewrite len_cons. intros (R & E & L).
  split; [lia|]. split.
  - replace (k - i)%Z with (k - (i + 1) + 1)%Z by lia.
    rewrite field_cons by lia. exact E.
  - intros j Hj. replace (j - i)%Z with (j - (i + 1) + 1)%Z by lia.
    rewrite field_cons by lia. apply L. lia.
Qed.

Lemma last_column_here (name : string) (h : list string) (i : Z)
  (col : string) :
  TrimSpace (ToLower name) = col -> ~ has h col -> last (name :: h) i col i.
Proof.
  intros E N. unfold last_column. rewrite len_cons.
  assert (0 <= GoInt.len h)%Z by (unfold GoInt.len; lia).
  split; [lia|]. split.
  - now rewrite Z.sub_diag.
  - intros j Hj. replace (j - i)%Z with (j - i - 1 + 1)%Z by lia.
    rewrite field_cons by lia. intros E'. apply N.
    exists (field h (j - i - 1)). split; [apply field_in; lia|exact E'].
Qed.

(** One name of the header that is [col]: its index replaces the one kept
    so far unless a later column has the name too. *)
Lemma head_matches (name : string) (h : list string) (i : Z) (col : string)
  (k : Z) :
  TrimSpace (ToLower name) = col ->
  (has h col -> last h (i + 1)%Z col k) -> (~ has h col -> k = i) ->
  last (name :: h) i col k.
Proof.
  intros E A B. destruct (has_or_not h col) as [H|H].
  - apply last_column_shift. now apply A.
  - rewrite (B H). now apply last_column_here.
Qed.

(** One name of the header that is not [col]. *)
Lemma head_differs (name : string) (h : list string) (i : Z) (col : string)
  (k0 k : Z) :
  TrimSpace (ToLower name) <> col ->
  (has h col -> last h (i + 1)%Z col k) /\ (~ has h col -> k = k0) ->
  (has (name :: h) col -> last (name :: h) i col k) /\
  (~ has (name :: h) col -> k = k0).
Proof.
  intros N [A B]. split.
  - intros H. apply has_cons in H. destruct H as [H|H]; [contradiction|].
    apply last_column_shift. now apply A.
  - intros H. apply B. intros H'. apply H. apply has_cons. now right.
Qed.

(** The loop over the header leaves in each index the position of the last
    column of that name, and the index as it was when there is none. *)
Lemma indices_last (h : list string) :
  forall (i u p ok : Z),
    let '(u', p', ok') := indices h i (u, p, ok) in
    ((has h "username" -> last h i "username" u') /\
     (~ has h "username" -> u' = u)) /\
    ((has h "password" -> last h i "password" p') /\
     (~ has h "password" -> p' = p)) /\
    ((has h "expected_ok" -> last h i "expected_ok" ok') /\
     (~ has h "expected_ok" -> ok' = ok)).
Proof.
  induction h as [|name h IH]; intros i u p ok.
  - cbn [header_indices].
    split; [|split];
      (split; [intros (x & [] & _)|intros _; reflexivity]).
  - cbn [header_indices].
    destruct (String.eqb_spec (TrimSpace (ToLower name)) "username") as [E|N].
    + specialize (IH (i + 1)%Z i p ok).
      destruct (indices h (i + 1)%Z (i, p, ok)) as [[u' p'] ok'].
      destruct IH as ([A1 A2] & B & C).
      split; [|split].
      * split; [intros _; now apply head_matches|].
        intros H. exfalso. apply H. apply has_cons. now left.
      * apply head_differs; [rewrite E; discriminate|exact B].
      * apply head_differs; [rewrite E; discriminate|exact C].
    + destruct (String.eqb_spec (TrimSpace (ToLower name)) "password")
        as [E|N'].
      * specialize (IH (i + 1)%Z u i ok).
        destruct (indices h (i + 1)%Z (u, i, ok)) as [[u' p'] ok'].
        destruct IH as (A & [B1 B2] & C).
        split; [|split].
        -- apply head_differs; [exact N|exact A].
        -- split; [intros _; now apply head_matches|].
           intros H. exfalso. apply H. apply has_cons. now left.
        -- apply head_differs; [rewrite E; discriminate|exact C].
      * destruct (String.eqb_spec (TrimSpace (ToLower name)) "expected_ok")
          as [E|N''].
        -- specialize (IH (i + 1)%Z u p i).
           destruct (indices h (i + 1)%Z (u, p, i)) as [[u' p'] ok'].
           destruct IH as (A & B & [C1 C2]).
           split; [|split].
           ++ apply head_differs; [exact N|exact A].
           ++ apply head_differs; [exact N'|exact B].
           ++ split; [intros _; now apply head_matches|].
              intros H. exfalso. apply H. apply has_cons. now left.
        -- specialize (IH (i + 1)%Z u p ok).
           destruct (indices h (i + 1)%Z (u, p, ok)) as [[u' p'] ok'].
           destruct IH as (A & B & C).
           split; [|split].
           ++ apply head_differs; [exact N|exact A].
           ++ apply head_differs; [exact N'|exact B].
           ++ apply head_differs; [exact N''|exact C].
Qed.

(** The loop over the rows on records that have [n] fields each, the three
    indices being below [n]: no record is too short. *)
Lemma rows_yielded (n iu ip iok : Z) (recs : list (list string)) :
  (0 <= iu < n)%Z -> (0 <= ip < n)%Z -> (iok < n)%Z ->
  Forall (fun rec => GoInt.len rec = n) recs ->
  forall acc : list User,
    rows iu ip iok (map Row recs) acc
    = Good (acc ++ map (fun rec =>
                          {| Username := TrimSpace (field rec iu);
                             Password := TrimRight (field rec ip)
                                           (String "013" (String "010" ""));
                             ExpectedOK := (0 <=? iok)%Z |})
                     (filter (fun rec =>
                                (iok <? 0)%Z
                                || EqualFold (TrimSpace (field rec iok)) "true")
                        recs))%list.
Proof.
  intros Hu Hp Hok Hall. induction Hall as [|rec recs Hn Hall IH]; intros acc.
  - cbn. now rewrite app_nil_r.
  - cbn [map load_rows filter]. unfold row_user. rewrite Hn.
    destruct (Z.leb_spec n iu); [lia|]. destruct (Z.leb_spec n ip); [lia|].
    cbn [orb]. rewrite IH.
    destruct (Z.leb_spec 0 iok) as [Hk|Hk].
    + destruct (Z.ltb_spec iok 0); [lia|].
      destruct (Z.ltb_spec iok n); [|lia]. cbn [orb].
      destruct (EqualFold (TrimSpace (field rec iok)) "true").
      * cbn [map]. now rewrite <- app_assoc.
      * reflexivity.
    + destruct (Z.ltb_spec iok 0); [|lia]. cbn [orb map].
      now rewrite <- app_assoc.
Qed.

Lemma yielded_len (h : list string) (recs : list (list string)) :
  reader_yields h recs ->
  Forall (fun rec => GoInt.len rec = GoInt.len h) recs.
Proof.
  unfold reader_yields, GoInt.len. intros H.
  induction H as [|rec recs E H IH]; constructor; [now rewrite E|exact IH].
Qed.

Lemma filter_all (A : Type) (l : list A) : filter (fun _ => true) l = l.
Proof. induction l as [|x l IH]; [reflexivity|cbn; now rewrite IH]. Qed.

(** X21. With an expected_ok column in the header, [Load] keeps exactly
    the rows whose field in that column is true (after trimming, in any
    letter case), in row order and with the flag set, and skips every other
    row; the columns read are the last ones of each name. The rows are those
    the reader yields: each has as many fields as the header. *)
Theorem expected_ok_column_filters (h : list string)
  (recs : list (list string)) :
  reader_yields h recs ->
  has h "username" -> has h "password" -> has h "expected_ok" ->
  exists iu ip iok,
    last h 0%Z "username" iu /\ last h 0%Z "password" ip /\
    last h 0%Z "expected_ok" iok /\
    load (Good (Row h :: map Row recs))
    = Good (map (fun rec =>
                   {| Username := TrimSpace (field rec iu);
                      Password := TrimRight (field rec ip)
                                    (String "013" (String "010" ""));
                      ExpectedOK := true |})
              (filter (fun rec => EqualFold (TrimSpace (field rec iok)) "true")
                 recs)).
Proof.
  intros Hy Hu Hp Hok. unfold Load.
  pose proof (indices_last h 0 (-1) (-1) (-1)) as S.
  destruct (indices h 0%Z (-1, -1, -1)%Z) as [[iu ip] iok].
  destruct S as ([A _] & [B _] & [C _]).
  specialize (A Hu). specialize (B Hp). specialize (C Hok).
  exists iu, ip, iok. repeat (split; [assumption|]).
  destruct A as (Ru & _). destruct B as (Rp & _). destruct C as (Rk & _).
  destruct (Z.ltb_spec iu 0); [lia|]. destruct (Z.ltb_spec ip 0); [lia|].
  cbn [orb].
  rewrite (rows_yielded (GoInt.len h) iu ip iok recs) by
    (try lia; now apply yielded_len).
  cbn [app]. destruct (Z.leb_spec 0 iok); [|lia].
  destruct (Z.ltb_spec iok 0); [lia|]. reflexivity.
Qed.

(** X22. Without an expected_ok column in the header, [Load] yields one
    user per row, in row order: the username is the field of the username
    column with the surrounding space trimmed, the password the field of
    the password column without trailing CR and LF, and the flag is unset;
    the columns read are the last ones of each name. The rows are those the
    reader yields: each has as many fields as the header. *)
Theorem plain_file_loads_every_row (h : list string)
  (recs : list (list string)) :
  reader_yields h recs ->
  has h "username" -> has h "password" -> ~ has h "expected_ok" ->
  exists iu ip,
    last h 0%Z "username" iu /\ last h 0%Z "password" ip /\
    load (Good (Row h :: map Row recs))
    = Good (map (fun rec =>
                   {| Username := TrimSpace (field rec iu);
                      Password := TrimRight (field rec ip)
                                    (String "013" (String "010" ""));
                      ExpectedOK := false |}) recs).
Proof.
  intros Hy Hu Hp Hok. unfold Load.
  pose proof (indices_last h 0 (-1) (-1) (-1)) as S.
  destruct (indices h 0%Z (-1, -1, -1)%Z) as [[iu ip] iok].
  destruct S as ([A _] & [B _] & [_ C]).
  specialize (A Hu). specialize (B Hp). specialize (C Hok). subst iok.
  exists iu, ip. repeat (split; [assumption|]).
  destruct A as (Ru & _). destruct B as (Rp & _).
  destruct (Z.ltb_spec iu 0); [lia|]. destruct (Z.ltb_spec ip 0); [lia|].
  cbn [orb].
  rewrite (rows_yielded (GoInt.len h) iu ip (-1) recs) by
    (try lia; now apply yielded_len).
  cbn [app]. change (-1 <? 0)%Z with true. cbn [orb].
  rewrite filter_all. reflexivity.
Qed.

End Strings.

(** The files of the package's tests, with the identity for the trimming
    and case functions, which leave these texts alone. *)
Lemma Load_needs_both_columns_witness :
  Load (fun s => s) (fun s => s) (fun s _ => s) String.eqb
    (Good [Row ["user"; "password"]; Row ["foo"; "bar"]])
  = Bad "csv must have username,password headers".
Proof.
  apply (Load_needs_both_columns (fun s => s) (fun s => s) (fun s _ => s)
           String.eqb ["user"; "password"] [Row ["foo"; "bar"]]).
  intros [(name & [E|[E|[]]] & H) _]; subst; discriminate.
Defined.

Lemma expected_ok_column_filters_witness :
  Load (fun s => s) (fun s => s) (fun s _ => s) String.eqb
    (Good [Row ["username"; "password"; "expected_ok"];
           Row ["u1"; "p1"; "true"]; Row ["u2"; "p2"; "false"];
           Row ["u3"; "p3"; "true"]])
  = Good [ {| Username := "u1"; Password := "p1"; ExpectedOK := true |};
           {| Username := "u3"; Password := "p3"; ExpectedOK := true |} ].
Proof.
  destruct (expected_ok_column_filters (fun s => s) (fun s => s)
              (fun s _ => s) String.eqb
              ["username"; "password"; "expected_ok"]
              [["u1"; "p1"; "true"]; ["u2"; "p2"; "false"];
               ["u3"; "p3"; "true"]])
    as (iu & ip & iok & (Ru & Eu & _) & (Rp & Ep & _) & (Rk & Ek & _) & E).
  - repeat constructor.
  - exists "username". split; [cbn; tauto|reflexivity].
  - exists "password". split; [cbn; tauto|reflexivity].
  - exists "expected_ok". split; [cbn; tauto|reflexivity].
  - change (GoInt.len ["username"; "password"; "expected_ok"]) with 3%Z
      in Ru, Rp, Rk.
    assert (Hu : iu = 0%Z)
      by (assert (C : (iu = 0 \/ iu = 1 \/ iu = 2)%Z) by lia;
          destruct C as [C|[C|C]]; subst iu;
          [reflexivity|discriminate Eu|discriminate Eu]).
    assert (Hp : ip = 1%Z)
      by (assert (C : (ip = 0 \/ ip = 1 \/ ip = 2)%Z) by lia;
          destruct C as [C|[C|C]]; subst ip;
          [discriminate Ep|reflexivity|discriminate Ep]).
    assert (Hk : iok = 2%Z)
      by (assert (C : (iok = 0 \/ iok = 1 \/ iok = 2)%Z) by lia;
          destruct C as [C|[C|C]]; subst iok;
          [discriminate Ek|discriminate Ek|reflexivity]).
    subst iu ip iok. exact E.
Defined.

Lemma plain_file_loads_every_row_witness :
  Load (fun s => s) (fun s => s) (fun s _ => s) String.eqb
    (Good [Row ["username"; "password"]; Row ["user1"; "pass1"];
           Row ["user2"; "pass2"]])
  = Good [ {| Username := "user1"; Password := "pass1"; ExpectedOK := false |};
           {| Username := "user2"; Password := "pass2"; ExpectedOK := false |} ].
Proof.
  destruct (plain_file_loads_every_row (fun s => s) (fun s => s)
              (fun s _ => s) String.eqb ["username"; "password"]
              [["user1"; "pass1"]; ["user2"; "pass2"]])
    as (iu & ip & (Ru & Eu & _) & (Rp & Ep & _) & E).
  - repeat constructor.
  - exists "username". split; [cbn; tauto|reflexivity].
  - exists "password". split; [cbn; tauto|reflexivity].
  - intros (name & [E|[E|[]]] & H); subst; discriminate.
  - change (GoInt.len ["username"; "password"]) with 2%Z in Ru, Rp.
    assert (Hu : iu = 0%Z)
      by (assert (C : (iu = 0 \/ iu = 1)%Z) by lia;
          destruct C as [C|C]; subst iu; [reflexivity|discriminate Eu]).
    assert (Hp : ip = 1%Z)
      by (assert (C : (ip = 0 \/ ip = 1)%Z) by lia;
          destruct C as [C|C]; subst ip; [discriminate Ep|reflexivity]).
    subst iu ip. exact E.
Defined.

End CsvFacts.

(** ** The check run *)

Module CheckFacts.

Import Check.
Open Scope string_scope.

(** Splits [with_client] on the answers and on the mode. *)
Ltac by_steps cfg c u :=
  unfold with_client, check_bind, check_search;
  destruct (BindLookup c) as [e0|];
  [|destruct (Runner.LookupDN (ops c) (Csvdata.Username u)) as [d [e1|]];
    [|cbn [fst snd]; generalize (Config.Mode_ cfg); intros mode;
      destruct (String.eqb_spec mode Config.ModeAuth);
      [|destruct (String.eqb_spec mode Config.ModeSearch);
        [|destruct (String.eqb_spec mode Config.ModeBoth)]];
      try subst mode;
      unfold Config.ModeAuth, Config.ModeSearch, Config.ModeBoth in *;
      destruct (Runner.UserBind (ops c) d (Csvdata.Password u)) as [e2|];
      try match goal with
          | |- context [Runner.UserSearch ?a ?b ?p ?f] =>
              destruct (Runner.UserSearch a b p f) as [cnt [e3|]]
          end]];
  cbn [fst snd In app].

(** Closes the goals about a list of calls that is laid out. *)
Ltac settle :=
  cbn [In fst snd app] in *; repeat split; intros;
  repeat match goal with
         | H : _ \/ _ |- _ => destruct H
         | H : False |- _ => destruct H
         | H : CallUserSearch _ _ _ = CallUserSearch _ _ _ |- _ =>
             inversion H; subst; clear H
         | H : @eq call _ _ |- _ => discriminate H
         end;
  try congruence; try discriminate;
  try (intuition (discriminate || congruence)).

Section Steps.

Variable fmt_other : string -> list string -> string.

(** X23. The check run searches with the very filter the benchmark will
    use: whenever it calls [UserSearch], the filter is what the runner's
    [prepareFilter] yields for the same configuration and username, and the
    user is the first one of the file, with the DN the lookup returned. *)
Theorem check_searches_like_the_runner (cfg : Config.Config)
  (csv_path : string) (users : list Csvdata.User) (c : Client)
  (r : Runner.Runner) (dn password filter : string) :
  Runner.cfg r = cfg ->
  In (CallUserSearch dn password filter)
     (fst (Run fmt_other cfg csv_path (Good users) (Good c))) ->
  exists u rest,
    users = u :: rest /\
    filter = Runner.prepareFilter fmt_other r (Csvdata.Username u) /\
    password = Csvdata.Password u /\
    dn = fst (Runner.LookupDN (ops c) (Csvdata.Username u)).
Proof.
  intros Hr. unfold Run. destruct users as [|u rest]; [intros []|].
  intros Hin. exists u, rest. split; [reflexivity|].
  assert (Hf : search_filter fmt_other cfg (Csvdata.Username u)
               = Runner.prepareFilter fmt_other r (Csvdata.Username u))
    by (unfold search_filter, Runner.prepareFilter; now rewrite Hr).
  rewrite <- Hf. clear Hf Hr.
  destruct (with_client fmt_other cfg c u) as [calls err] eqn:W.
  cbn [fst] in Hin. apply in_app_or in Hin.
  destruct Hin as [Hin|[Hin|[]]]; [|discriminate].
  assert (Hc : calls = fst (with_client fmt_other cfg c u)) by now rewrite W.
  rewrite Hc in Hin. clear W Hc. revert Hin.
  by_steps cfg c u; settle.
Qed.

(** X24. The check run closes the client it created exactly once, as its
    last call and whatever went wrong before; its first call is the lookup
    bind. Without users or without a client it calls nothing and returns an
    error. *)
Theorem check_always_closes_its_client (cfg : Config.Config)
  (csv_path : string) (loaded : result (list Csvdata.User))
  (new_client : result Client) :
  let '(calls, err) := Run fmt_other cfg csv_path loaded new_client in
  match loaded, new_client with
  | Good (u :: _), Good c =>
      exists middle, calls = (CallBindLookup :: middle ++ [CallClose])%list /\
                     ~ In CallClose middle /\ ~ In CallBindLookup middle
  | _, _ => calls = [] /\ err <> None
  end.
Proof.
  unfold Run. destruct loaded as [[|u rest]|e];
    try (split; [reflexivity|discriminate]).
  destruct new_client as [c|e]; [|split; [reflexivity|discriminate]].
  assert (H : exists middle,
             fst (with_client fmt_other cfg c u) = CallBindLookup :: middle /\
             ~ In CallClose middle /\ ~ In CallBindLookup middle)
    by (by_steps cfg c u; (eexists; split; [reflexivity|]; split; settle)).
  destruct (with_client fmt_other cfg c u) as [calls err].
  destruct H as (middle & E & H1 & H2). cbn [fst] in E. subst calls.
  exists middle. repeat split; assumption.
Qed.

(** X25. The check run keeps to the mode: in mode auth it never searches,
    in mode search it never calls [UserBind], and it only searches in mode
    both after the bind went through. In a mode that is none of the three
    it calls neither and reports success as soon as the lookup bind and the
    lookup went through. *)
Theorem check_keeps_to_the_mode (cfg : Config.Config) (c : Client)
  (u : Csvdata.User) :
  let '(calls, err) := with_client fmt_other cfg c u in
  let mode := Config.Mode_ cfg in
  let binds := exists dn pw, In (CallUserBind dn pw) calls in
  let searches := exists dn pw f, In (CallUserSearch dn pw f) calls in
  (mode = Config.ModeAuth -> ~ searches) /\
  (mode = Config.ModeSearch -> ~ binds) /\
  (mode = Config.ModeBoth -> searches ->
   binds /\
   Runner.UserBind (ops c)
     (fst (Runner.LookupDN (ops c) (Csvdata.Username u)))
     (Csvdata.Password u) = None) /\
  (mode <> Config.ModeAuth -> mode <> Config.ModeSearch ->
   mode <> Config.ModeBoth ->
   ~ binds /\ ~ searches /\
   (err = None <->
    BindLookup c = None /\
    snd (Runner.LookupDN (ops c) (Csvdata.Username u)) = None)).
Proof.
  destruct (with_client fmt_other cfg c u) as [calls err] eqn:W.
  assert (Hc : calls = fst (with_client fmt_other cfg c u)) by now rewrite W.
  assert (He : err = snd (with_client fmt_other cfg c u)) by now rewrite W.
  clear W. subst calls err. cbv zeta.
  by_steps cfg c u;
    repeat split; intros;
    repeat match goal with
           | H : exists _, _ |- _ => destruct H
           | |- ~ _ => intros ?
           end;
    cbn [In fst snd] in *;
    repeat match goal with
           | H : _ \/ _ |- _ => destruct H
           | H : False |- _ => destruct H
           | H : @eq call _ _ |- _ => discriminate H
           | H : _ /\ _ |- _ => destruct H
           end;
    try congruence; try discriminate; try tauto;
    try (do 2 eexists; cbn [In]; eauto 10).
Qed.

End Steps.

Lemma check_searches_like_the_runner_witness :
  let r := RunnerTest.runner_with_filter "(uid=%s)" in
  let c := {| BindLookup := None; ops := RunnerTest.fakeClient None None |} in
  let u := {| Csvdata.Username := "user1"; Csvdata.Password := "pass1";
              Csvdata.ExpectedOK := false |} in
  fst (Run (fun _ _ => "") (Runner.cfg r) "users.csv" (Good [u]) (Good c))
  = [CallBindLookup; CallLookupDN "user1";
     CallUserSearch "dn-user1" "pass1" "(uid=user1)"; CallClose] /\
  "(uid=user1)" = Runner.prepareFilter (fun _ _ => "") r "user1".
Proof.
  intros r c u. split; [reflexivity|].
  destruct (check_searches_like_the_runner (fun _ _ => "") (Runner.cfg r)
              "users.csv" [u] c r "dn-user1" "pass1" "(uid=user1)" eq_refl)
    as (u' & rest & E & F & _).
  - cbn. tauto.
  - inversion E; subst. exact F.
Defined.

End CheckFacts.
